(** * ethereumjs-devp2p: RLPx ECIES handshake, frame codec and DPT server

  A shallow embedding of [src/es/rlpx/ecies.js] (the ECIES message codec,
  the auth/ack handshake and the frame codec) and of the discovery server
  (the [Server] class), with the properties the specification states about
  them.

  Buffers are lists of bytes.  The cryptographic libraries the code calls
  (node's [crypto], [secp256k1], Keccak, [rlp-encoding]) are an interface,
  [Primitives]; what the proofs need from them (output lengths, the
  Diffie-Hellman law, signature recovery) is stated as section hypotheses.
  Methods that mutate [this] and may throw are functions from the object
  to the mutated object and a result. *)

From Stdlib Require Import ZArith QArith Qround List Lia Bool Ascii String.
From coqutil Require Import Byte.
From stdpp Require Import gmap strings list pretty.
Import ListNotations.
Local Open Scope Z_scope.

#[global] Instance byte_eq_dec : EqDecision byte := Byte.byte_eq_dec.

Abbreviation bytes := (list byte).

(** ** Node buffers *)

Module Buffer.

(** [buf.slice(start, end)]: a negative index counts from the end, and
    both indices are clamped to the buffer. *)
Definition clamp_index (len i : Z) : Z :=
  if i <? 0 then Z.max (len + i) 0 else Z.min i len.

Definition slice (b : bytes) (start stop : Z) : bytes :=
  let len := Z.of_nat (length b) in
  let s := clamp_index len start in
  let e := clamp_index len stop in
  firstn (Z.to_nat (e - s)) (skipn (Z.to_nat s) b).

(** [buf.slice(start)] *)
Definition slice_from (b : bytes) (start : Z) : bytes :=
  slice b start (Z.of_nat (length b)).

(** [Buffer.allocUnsafe(n).fill(0x00)] *)
Definition zeros (n : nat) : bytes := repeat Byte.x00 n.

(** [n] bytes, big endian; the value is taken modulo [256 ^ n]. *)
Fixpoint be_bytes (n : nat) (v : Z) : bytes :=
  match n with
  | O => []
  | S k => byte.of_Z (v / 256 ^ Z.of_nat k) :: be_bytes k v
  end.

(** [tmp.writeUInt32BE(v)] on a 4-byte buffer *)
Definition writeUInt32BE (v : Z) : bytes := be_bytes 4 v.

(** [buf.toString('hex')] *)
Definition hex_digit (d : Z) : ascii :=
  ascii_of_nat (Z.to_nat (if d <? 10 then 48 + d else 87 + d)).

Fixpoint toHex (b : bytes) : string :=
  match b with
  | [] => EmptyString
  | x :: r =>
      String (hex_digit (byte.unsigned x / 16))
        (String (hex_digit (byte.unsigned x mod 16)) (toHex r))
  end.

End Buffer.

(** ** ethereumjs-util *)

(** [intToBuffer(i)]: the hexadecimal digits of [i], padded to an even
    number of digits, read as bytes; zero is the single byte [00]. *)
Definition intToBuffer (i : Z) : bytes :=
  Buffer.be_bytes (Z.to_nat (Z.log2 i / 8 + 1)) i.

(** [bufferToInt(buf)]: the big-endian value of the buffer. *)
Definition bufferToInt (b : bytes) : Z :=
  fold_left (fun acc x => acc * 256 + byte.unsigned x) b 0.

(** ** The libraries behind the code *)

Class Primitives := {
  (** [crypto.createHash('sha256').update(m).digest()] *)
  sha256 : bytes -> bytes;
  (** [crypto.createHmac('sha256', key).update(m).digest()] *)
  hmac_sha256 : bytes -> bytes -> bytes;
  (** byte [n] of the AES-CTR key stream for a key and an IV *)
  aes_ctr_keystream : bytes -> bytes -> nat -> byte;
  (** one AES-256 block encryption, ECB *)
  aes256_ecb : bytes -> bytes -> bytes;
  (** Keccak-256 of a byte string *)
  keccak : bytes -> bytes;
  (** [secp256k1.publicKeyCreate(privateKey, false)], 65 bytes *)
  publicKeyCreate : bytes -> option bytes;
  (** [secp256k1.ecdhUnsafe(publicKey, privateKey, true)], 33 bytes *)
  ecdhUnsafe : bytes -> bytes -> option bytes;
  (** [secp256k1.sign(message, privateKey)]: signature and recovery id *)
  sign : bytes -> bytes -> option (bytes * Z);
  (** [secp256k1.recover(message, signature, recovery, false)] *)
  recover : bytes -> bytes -> Z -> option bytes;
  (** [secp256k1.privateKeyVerify(privateKey)] *)
  privateKeyVerify : bytes -> bool;
  (** [rlp.encode([ 0, 0 ])] *)
  rlp_encode_0_0 : bytes
}.

(** ** Methods: state passing with exceptions *)

Inductive Error :=
| Thrown (msg : string)   (** [throw new Error(msg)], also from [util.assertEq] *)
| TypeError               (** [null] used where an object or a buffer is needed *)
| LibraryError            (** thrown inside [crypto] or [secp256k1] *)
| RangeError.             (** a port that [socket.send] does not accept *)

Inductive Result (A : Type) :=
| Return (a : A)
| Throw (e : Error).
Arguments Return {A} a.
Arguments Throw {A} e.

(** A method of an object of type [S]: the object after the call, and the
    value returned or the exception thrown.  What was assigned before a
    [throw] stays assigned. *)
Definition M (S A : Type) : Type := S -> S * Result A.

Definition ret {S A} (a : A) : M S A := fun s => (s, Return a).

Definition throw {S A} (e : Error) : M S A := fun s => (s, Throw e).

Definition bindM {S A B} (m : M S A) (k : A -> M S B) : M S B :=
  fun s =>
    match m s with
    | (s', Return a) => k a s'
    | (s', Throw e) => (s', Throw e)
    end.

Definition gets {S A} (f : S -> A) : M S A := fun s => (s, Return (f s)).

Definition modify {S} (f : S -> S) : M S unit := fun s => (f s, Return tt).

(** A value that must not be [null] (or a library call that must not fail). *)
Definition need {S A} (e : Error) (o : option A) : M S A :=
  match o with
  | Some a => ret a
  | None => throw e
  end.

Notation "x <- m ;; k" := (bindM m (fun x => k))
  (at level 20, m at level 99, k at level 200, only parsing).
Notation "m ;; k" := (bindM m (fun _ => k))
  (at level 100, k at level 200, right associativity, only parsing).

(** ** [../util] *)

Module util.

(** Modelled from the spec: [util.xor] of [src/es/util.js], which is not
    among the sources: the bytewise XOR of two buffers (of the same
    length; on the common prefix otherwise). *)
Fixpoint xor (a b : bytes) : bytes :=
  match a, b with
  | x :: a', y :: b' => byte.xor x y :: xor a' b'
  | _, _ => []
  end.

(** Modelled from the spec: [util.zfill] of [src/es/util.js]: pad a
    buffer with zero bytes up to [size], on the left unless [leftpad] is
    false; a buffer that is long enough already is returned as it is. *)
Definition zfill (buffer : bytes) (size : Z) (leftpad : bool) : bytes :=
  if size <=? Z.of_nat (length buffer) then buffer
  else
    let pad := Buffer.zeros (Z.to_nat (size - Z.of_nat (length buffer))) in
    if leftpad then pad ++ buffer else buffer ++ pad.

(** Modelled from the spec: [util.pk2id] of [src/es/util.js]: a node id
    is the uncompressed public key with its 0x04 prefix stripped. *)
Definition pk2id (pk : bytes) : bytes := Buffer.slice_from pk 1.

(** Modelled from the spec: [util.id2pk] of [src/es/util.js]: the
    uncompressed public key of a node id, the id after the byte 0x04. *)
Definition id2pk (id : bytes) : bytes := Byte.x04 :: id.

(** Modelled from the spec: [util.keccak256(...parts)] of
    [src/es/util.js]: Keccak-256 of the concatenation of the parts. *)
Definition keccak256 `{Primitives} (parts : list bytes) : bytes :=
  keccak (concat parts).

(** Modelled from the spec: [util.assertEq] of [src/es/util.js]: nothing
    when the two values are equal, an [Error] carrying the message
    otherwise. *)
Definition assertEq {S A} `{EqDecision A} (expected actual : A) (msg : string)
    : M S unit :=
  if decide (expected = actual) then ret tt else throw (Thrown msg).

End util.

(** ** Key derivation *)

Section KDF.
Context `{Primitives}.

Definition ecdhX (publicKey privateKey : bytes) : option bytes :=
  match ecdhUnsafe publicKey privateKey with
  | Some p => Some (Buffer.slice_from p 1)
  | None => None
  end.

Definition SHA256BlockSize : Z := 64.

(** [((keyLength + 7) * 8) / (SHA256BlockSize * 8)]: a JavaScript
    division, not rounded; the quotient is a multiple of 1/64, so it is
    the same number as a double and as a rational. *)
Definition reps (keyLength : Z) : Q :=
  inject_Z ((keyLength + 7) * 8) / inject_Z (SHA256BlockSize * 8).

(** The [for] loop of [concatKDF]; [fuel] bounds the iterations. *)
Fixpoint concatKDF_loop (fuel : nat) (keyMaterial : bytes) (reps : Q)
    (counter : Z) (buffers : list bytes) : list bytes :=
  match fuel with
  | O => buffers
  | S fuel' =>
      if Qle_bool (inject_Z counter) reps then
        let counter := counter + 1 in
        let tmp := Buffer.writeUInt32BE counter in
        concatKDF_loop fuel' keyMaterial reps counter
          (buffers ++ [sha256 (tmp ++ keyMaterial)])
      else buffers
  end.

(** The loop leaves when [counter] exceeds [reps], which is below
    [keyLength + 1] (and below 1 for a negative [keyLength]): the fuel given
    here is never used up. *)
Definition concatKDF_buffers (keyMaterial : bytes) (keyLength : Z) : list bytes :=
  concatKDF_loop (Z.to_nat keyLength + 2) keyMaterial (reps keyLength) 0 [].

Definition concatKDF (keyMaterial : bytes) (keyLength : Z) : bytes :=
  Buffer.slice (concat (concatKDF_buffers keyMaterial keyLength)) 0 keyLength.

(** A secp256k1 key pair: a private key that [privateKeyVerify] accepts
    (as [util.genPrivateKey] draws them) and its uncompressed public key. *)
Definition key_pair (privateKey publicKey : bytes) : Prop :=
  privateKeyVerify privateKey = true
  /\ publicKeyCreate privateKey = Some publicKey.

End KDF.

(** ** [crypto] cipher objects *)

(** An AES-CTR cipher object: key, IV and the number of key-stream bytes
    already used.  [createCipheriv] and [createDecipheriv] give the same
    stream in CTR mode. *)
Record Cipher := {
  cipher_key : bytes;
  cipher_iv : bytes;
  cipher_pos : nat
}.

#[global] Instance Cipher_eq_dec : EqDecision Cipher.
Proof. solve_decision. Defined.

(** [crypto.createCipheriv('aes-<bits>-ctr', key, iv)]: throws unless the
    key has [bits / 8] bytes and the IV 16. *)
Definition createCipheriv (bits : Z) (key iv : bytes) : option Cipher :=
  if (Z.of_nat (length key) =? bits / 8) && (Z.of_nat (length iv) =? 16)
  then Some {| cipher_key := key; cipher_iv := iv; cipher_pos := 0 |}
  else None.

Definition createDecipheriv := createCipheriv.

Section CipherUpdate.
Context `{Primitives}.

Definition keystream (c : Cipher) (n : nat) : bytes :=
  map (aes_ctr_keystream (cipher_key c) (cipher_iv c)) (seq (cipher_pos c) n).

(** [cipher.update(data)]: the data XOR the next bytes of the key stream. *)
Definition cipher_update (c : Cipher) (data : bytes) : Cipher * bytes :=
  ({| cipher_key := cipher_key c; cipher_iv := cipher_iv c;
      cipher_pos := (cipher_pos c + length data)%nat |},
   zip_with byte.xor data (keystream c (length data))).

End CipherUpdate.

(** ** [./mac] *)

Module MAC.

Record t := {
  _secret : bytes;
  (** everything the Keccak state has absorbed *)
  _hash : bytes
}.

#[global] Instance eq_dec : EqDecision t.
Proof. solve_decision. Defined.

Section Methods.
Context `{Primitives}.

(** Modelled from the spec: the MAC chain of [src/es/rlpx/mac.js], which
    is not among the sources: a Keccak-256 absorber seeded with a 32-byte
    secret. *)
Definition new (secret : bytes) : t := {| _secret := secret; _hash := [] |}.

(** Modelled from the spec: [MAC.update] of [src/es/rlpx/mac.js]: absorb. *)
Definition update (m : t) (data : bytes) : t :=
  {| _secret := _secret m; _hash := _hash m ++ data |}.

(** Modelled from the spec: [MAC.digest] of [src/es/rlpx/mac.js]: the first
    16 bytes of the Keccak output for what was absorbed, the state going
    on unchanged. *)
Definition digest (m : t) : bytes := Buffer.slice (keccak (_hash m)) 0 16.

(** Modelled from the spec: [MAC.updateHeader] of [src/es/rlpx/mac.js]:
    absorb [AES-256-ECB(secret, digest) XOR header]. *)
Definition updateHeader (m : t) (data : bytes) : t :=
  let aesed := aes256_ecb (_secret m) (digest m) in
  update m (util.xor aesed data).

(** Modelled from the spec: [MAC.updateBody] of [src/es/rlpx/mac.js]:
    absorb the body, then [AES-256-ECB(secret, seed) XOR seed] where [seed]
    is the digest after the body. *)
Definition updateBody (m : t) (data : bytes) : t :=
  let m1 := update m data in
  let seed := digest m1 in
  let aesed := aes256_ecb (_secret m) seed in
  update m1 (util.xor aesed seed).

End Methods.
End MAC.

(** ** [src/es/rlpx/ecies.js] *)

Module ECIES.

Record t := {
  _privateKey : bytes;
  _publicKey : bytes;
  _remotePublicKey : option bytes;
  _nonce : bytes;
  _remoteNonce : option bytes;
  _initMsg : option bytes;
  _remoteInitMsg : option bytes;
  _ingressAes : option Cipher;
  _egressAes : option Cipher;
  _ingressMac : option MAC.t;
  _egressMac : option MAC.t;
  _ephemeralPrivateKey : bytes;
  _ephemeralPublicKey : bytes;
  _remoteEphemeralPublicKey : option bytes;
  _ephemeralSharedSecret : option bytes;
  _bodySize : option Z
}.

(** Assignments to the fields of [this]. *)
Definition set_remotePublicKey (v : option bytes) (e : t) : t :=
  {| _privateKey := _privateKey e; _publicKey := _publicKey e;
     _remotePublicKey := v;
     _nonce := _nonce e; _remoteNonce := _remoteNonce e;
     _initMsg := _initMsg e; _remoteInitMsg := _remoteInitMsg e;
     _ingressAes := _ingressAes e; _egressAes := _egressAes e;
     _ingressMac := _ingressMac e; _egressMac := _egressMac e;
     _ephemeralPrivateKey := _ephemeralPrivateKey e;
     _ephemeralPublicKey := _ephemeralPublicKey e;
     _remoteEphemeralPublicKey := _remoteEphemeralPublicKey e;
     _ephemeralSharedSecret := _ephemeralSharedSecret e;
     _bodySize := _bodySize e |}.

Definition set_remoteNonce (v : option bytes) (e : t) : t :=
  {| _privateKey := _privateKey e; _publicKey := _publicKey e;
     _remotePublicKey := _remotePublicKey e;
     _nonce := _nonce e; _remoteNonce := v;
     _initMsg := _initMsg e; _remoteInitMsg := _remoteInitMsg e;
     _ingressAes := _ingressAes e; _egressAes := _egressAes e;
     _ingressMac := _ingressMac e; _egressMac := _egressMac e;
     _ephemeralPrivateKey := _ephemeralPrivateKey e;
     _ephemeralPublicKey := _ephemeralPublicKey e;
     _remoteEphemeralPublicKey := _remoteEphemeralPublicKey e;
     _ephemeralSharedSecret := _ephemeralSharedSecret e;
     _bodySize := _bodySize e |}.

Definition set_initMsg (v : option bytes) (e : t) : t :=
  {| _privateKey := _privateKey e; _publicKey := _publicKey e;
     _remotePublicKey := _remotePublicKey e;
     _nonce := _nonce e; _remoteNonce := _remoteNonce e;
     _initMsg := v; _remoteInitMsg := _remoteInitMsg e;
     _ingressAes := _ingressAes e; _egressAes := _egressAes e;
     _ingressMac := _ingressMac e; _egressMac := _egressMac e;
     _ephemeralPrivateKey := _ephemeralPrivateKey e;
     _ephemeralPublicKey := _ephemeralPublicKey e;
     _remoteEphemeralPublicKey := _remoteEphemeralPublicKey e;
     _ephemeralSharedSecret := _ephemeralSharedSecret e;
     _bodySize := _bodySize e |}.

Definition set_remoteInitMsg (v : option bytes) (e : t) : t :=
  {| _privateKey := _privateKey e; _publicKey := _publicKey e;
     _remotePublicKey := _remotePublicKey e;
     _nonce := _nonce e; _remoteNonce := _remoteNonce e;
     _initMsg := _initMsg e; _remoteInitMsg := v;
     _ingressAes := _ingressAes e; _egressAes := _egressAes e;
     _ingressMac := _ingressMac e; _egressMac := _egressMac e;
     _ephemeralPrivateKey := _ephemeralPrivateKey e;
     _ephemeralPublicKey := _ephemeralPublicKey e;
     _remoteEphemeralPublicKey := _remoteEphemeralPublicKey e;
     _ephemeralSharedSecret := _ephemeralSharedSecret e;
     _bodySize := _bodySize e |}.

Definition set_ingressAes (v : option Cipher) (e : t) : t :=
  {| _privateKey := _privateKey e; _publicKey := _publicKey e;
     _remotePublicKey := _remotePublicKey e;
     _nonce := _nonce e; _remoteNonce := _remoteNonce e;
     _initMsg := _initMsg e; _remoteInitMsg := _remoteInitMsg e;
     _ingressAes := v; _egressAes := _egressAes e;
     _ingressMac := _ingressMac e; _egressMac := _egressMac e;
     _ephemeralPrivateKey := _ephemeralPrivateKey e;
     _ephemeralPublicKey := _ephemeralPublicKey e;
     _remoteEphemeralPublicKey := _remoteEphemeralPublicKey e;
     _ephemeralSharedSecret := _ephemeralSharedSecret e;
     _bodySize := _bodySize e |}.

Definition set_egressAes (v : option Cipher) (e : t) : t :=
  {| _privateKey := _privateKey e; _publicKey := _publicKey e;
     _remotePublicKey := _remotePublicKey e;
     _nonce := _nonce e; _remoteNonce := _remoteNonce e;
     _initMsg := _initMsg e; _remoteInitMsg := _remoteInitMsg e;
     _ingressAes := _ingressAes e; _egressAes := v;
     _ingressMac := _ingressMac e; _egressMac := _egressMac e;
     _ephemeralPrivateKey := _ephemeralPrivateKey e;
     _ephemeralPublicKey := _ephemeralPublicKey e;
     _remoteEphemeralPublicKey := _remoteEphemeralPublicKey e;
     _ephemeralSharedSecret := _ephemeralSharedSecret e;
     _bodySize := _bodySize e |}.

Definition set_ingressMac (v : option MAC.t) (e : t) : t :=
  {| _privateKey := _privateKey e; _publicKey := _publicKey e;
     _remotePublicKey := _remotePublicKey e;
     _nonce := _nonce e; _remoteNonce := _remoteNonce e;
     _initMsg := _initMsg e; _remoteInitMsg := _remoteInitMsg e;
     _ingressAes := _ingressAes e; _egressAes := _egressAes e;
     _ingressMac := v; _egressMac := _egressMac e;
     _ephemeralPrivateKey := _ephemeralPrivateKey e;
     _ephemeralPublicKey := _ephemeralPublicKey e;
     _remoteEphemeralPublicKey := _remoteEphemeralPublicKey e;
     _ephemeralSharedSecret := _ephemeralSharedSecret e;
     _bodySize := _bodySize e |}.

Definition set_egressMac (v : option MAC.t) (e : t) : t :=
  {| _privateKey := _privateKey e; _publicKey := _publicKey e;
     _remotePublicKey := _remotePublicKey e;
     _nonce := _nonce e; _remoteNonce := _remoteNonce e;
     _initMsg := _initMsg e; _remoteInitMsg := _remoteInitMsg e;
     _ingressAes := _ingressAes e; _egressAes := _egressAes e;
     _ingressMac := _ingressMac e; _egressMac := v;
     _ephemeralPrivateKey := _ephemeralPrivateKey e;
     _ephemeralPublicKey := _ephemeralPublicKey e;
     _remoteEphemeralPublicKey := _remoteEphemeralPublicKey e;
     _ephemeralSharedSecret := _ephemeralSharedSecret e;
     _bodySize := _bodySize e |}.

Definition set_remoteEphemeralPublicKey (v : option bytes) (e : t) : t :=
  {| _privateKey := _privateKey e; _publicKey := _publicKey e;
     _remotePublicKey := _remotePublicKey e;
     _nonce := _nonce e; _remoteNonce := _remoteNonce e;
     _initMsg := _initMsg e; _remoteInitMsg := _remoteInitMsg e;
     _ingressAes := _ingressAes e; _egressAes := _egressAes e;
     _ingressMac := _ingressMac e; _egressMac := _egressMac e;
     _ephemeralPrivateKey := _ephemeralPrivateKey e;
     _ephemeralPublicKey := _ephemeralPublicKey e;
     _remoteEphemeralPublicKey := v;
     _ephemeralSharedSecret := _ephemeralSharedSecret e;
     _bodySize := _bodySize e |}.

Definition set_ephemeralSharedSecret (v : option bytes) (e : t) : t :=
  {| _privateKey := _privateKey e; _publicKey := _publicKey e;
     _remotePublicKey := _remotePublicKey e;
     _nonce := _nonce e; _remoteNonce := _remoteNonce e;
     _initMsg := _initMsg e; _remoteInitMsg := _remoteInitMsg e;
     _ingressAes := _ingressAes e; _egressAes := _egressAes e;
     _ingressMac := _ingressMac e; _egressMac := _egressMac e;
     _ephemeralPrivateKey := _ephemeralPrivateKey e;
     _ephemeralPublicKey := _ephemeralPublicKey e;
     _remoteEphemeralPublicKey := _remoteEphemeralPublicKey e;
     _ephemeralSharedSecret := v;
     _bodySize := _bodySize e |}.

Definition set_bodySize (v : option Z) (e : t) : t :=
  {| _privateKey := _privateKey e; _publicKey := _publicKey e;
     _remotePublicKey := _remotePublicKey e;
     _nonce := _nonce e; _remoteNonce := _remoteNonce e;
     _initMsg := _initMsg e; _remoteInitMsg := _remoteInitMsg e;
     _ingressAes := _ingressAes e; _egressAes := _egressAes e;
     _ingressMac := _ingressMac e; _egressMac := _egressMac e;
     _ephemeralPrivateKey := _ephemeralPrivateKey e;
     _ephemeralPublicKey := _ephemeralPublicKey e;
     _remoteEphemeralPublicKey := _remoteEphemeralPublicKey e;
     _ephemeralSharedSecret := _ephemeralSharedSecret e;
     _bodySize := v |}.

Section Methods.
Context `{Primitives}.

(** [new ECIES(privateKey, id, remoteId)].  The two random draws of the
    constructor, [crypto.randomBytes(32)] for the nonce and
    [util.genPrivateKey()] for the ephemeral key, are arguments. *)
Definition new (privateKey id : bytes) (remoteId : option bytes)
    (nonce ephemeralPrivateKey : bytes) : Result t :=
  match publicKeyCreate ephemeralPrivateKey with
  | None => Throw LibraryError
  | Some ephemeralPublicKey =>
      Return
        {| _privateKey := privateKey;
           _publicKey := util.id2pk id;
           _remotePublicKey :=
             match remoteId with
             | Some rid => Some (util.id2pk rid)
             | None => None
             end;
           _nonce := nonce;
           _remoteNonce := None;
           _initMsg := None;
           _remoteInitMsg := None;
           _ingressAes := None;
           _egressAes := None;
           _ingressMac := None;
           _egressMac := None;
           _ephemeralPrivateKey := ephemeralPrivateKey;
           _ephemeralPublicKey := ephemeralPublicKey;
           _remoteEphemeralPublicKey := None;
           _ephemeralSharedSecret := None;
           _bodySize := None |}
  end.

(** Reading a field that must hold an object. *)
Definition field {A} (f : t -> option A) : M t A :=
  o <- gets f ;; need TypeError o.

(** [this._egressAes.update(data)] and [this._ingressAes.update(data)] *)
Definition egressAes_update (data : bytes) : M t bytes :=
  c <- field _egressAes ;;
  modify (set_egressAes (Some (fst (cipher_update c data)))) ;;
  ret (snd (cipher_update c data)).

Definition ingressAes_update (data : bytes) : M t bytes :=
  c <- field _ingressAes ;;
  modify (set_ingressAes (Some (fst (cipher_update c data)))) ;;
  ret (snd (cipher_update c data)).

(** A method call on [this._egressMac] or [this._ingressMac] that updates
    the MAC object in place. *)
Definition on_egressMac (f : MAC.t -> MAC.t) : M t unit :=
  m <- field _egressMac ;; modify (set_egressMac (Some (f m))).

Definition on_ingressMac (f : MAC.t -> MAC.t) : M t unit :=
  m <- field _ingressMac ;; modify (set_ingressMac (Some (f m))).

(** [_encryptMessage(data)]; its two random draws, [util.genPrivateKey()]
    and [crypto.randomBytes(16)], are the arguments [privateKey], [IV]. *)
Definition _encryptMessage (privateKey IV : bytes) (data : bytes) : M t bytes :=
  remotePublicKey <- field _remotePublicKey ;;
  x <- need LibraryError (ecdhX remotePublicKey privateKey) ;;
  let key := concatKDF x 32 in
  let ekey := Buffer.slice key 0 16 in
  let mkey := sha256 (Buffer.slice key 16 32) in
  cipher <- need LibraryError (createCipheriv 128 ekey IV) ;;
  let encryptedData := snd (cipher_update cipher data) in
  let dataIV := IV ++ encryptedData in
  let tag := hmac_sha256 mkey dataIV in
  publicKey <- need LibraryError (publicKeyCreate privateKey) ;;
  ret (publicKey ++ dataIV ++ tag).

Definition _decryptMessage (data : bytes) : M t bytes :=
  let publicKey := Buffer.slice data 0 65 in
  let dataIV := Buffer.slice data 65 (-32) in
  let tag := Buffer.slice_from data (-32) in
  privateKey <- gets _privateKey ;;
  x <- need LibraryError (ecdhX publicKey privateKey) ;;
  let key := concatKDF x 32 in
  let ekey := Buffer.slice key 0 16 in
  let mkey := sha256 (Buffer.slice key 16 32) in
  let _tag := hmac_sha256 mkey dataIV in
  util.assertEq _tag tag "should have valid tag" ;;
  let IV := Buffer.slice dataIV 0 16 in
  let encryptedData := Buffer.slice_from dataIV 16 in
  decipher <- need LibraryError (createDecipheriv 128 ekey IV) ;;
  ret (snd (cipher_update decipher encryptedData)).

Definition _setupFrame (remoteData : option bytes) (incoming : bool) : M t unit :=
  nonce <- gets _nonce ;;
  remoteNonce <- field _remoteNonce ;;
  let nonceMaterial :=
    if incoming then nonce ++ remoteNonce else remoteNonce ++ nonce in
  let hNonce := util.keccak256 [nonceMaterial] in
  let IV := Buffer.zeros 16 in
  ephemeralSharedSecret <- field _ephemeralSharedSecret ;;
  let sharedSecret := util.keccak256 [ephemeralSharedSecret; hNonce] in
  let aesSecret := util.keccak256 [ephemeralSharedSecret; sharedSecret] in
  ingressAes <- need LibraryError (createDecipheriv 256 aesSecret IV) ;;
  modify (set_ingressAes (Some ingressAes)) ;;
  egressAes <- need LibraryError (createDecipheriv 256 aesSecret IV) ;;
  modify (set_egressAes (Some egressAes)) ;;
  let macSecret := util.keccak256 [ephemeralSharedSecret; aesSecret] in
  modify (set_ingressMac (Some (MAC.new macSecret))) ;;
  remoteData <- need TypeError remoteData ;;
  on_ingressMac (fun m => MAC.update m (util.xor macSecret nonce ++ remoteData)) ;;
  modify (set_egressMac (Some (MAC.new macSecret))) ;;
  initMsg <- field _initMsg ;;
  on_egressMac (fun m => MAC.update m (util.xor macSecret remoteNonce ++ initMsg)).

Definition createAuth (privateKey IV : bytes) : M t bytes :=
  remotePublicKey <- field _remotePublicKey ;;
  ownPrivateKey <- gets _privateKey ;;
  x <- need LibraryError (ecdhX remotePublicKey ownPrivateKey) ;;
  nonce <- gets _nonce ;;
  ephemeralPrivateKey <- gets _ephemeralPrivateKey ;;
  sig <- need LibraryError (sign (util.xor x nonce) ephemeralPrivateKey) ;;
  ephemeralPublicKey <- gets _ephemeralPublicKey ;;
  publicKey <- gets _publicKey ;;
  let data := concat
    [ fst sig;
      [ byte.of_Z (snd sig) ];
      util.keccak256 [ util.pk2id ephemeralPublicKey ];
      util.pk2id publicKey;
      nonce;
      [ Byte.x00 ] ] in
  initMsg <- _encryptMessage privateKey IV data ;;
  modify (set_initMsg (Some initMsg)) ;;
  ret initMsg.

Definition parseAuth (data : bytes) : M t unit :=
  modify (set_remoteInitMsg (Some data)) ;;
  decypted <- _decryptMessage data ;;
  util.assertEq (Z.of_nat (length decypted)) 194 "invalid packet length" ;;
  let signature := Buffer.slice decypted 0 64 in
  let recoveryId := byte.unsigned <$> decypted !! 64%nat in
  let heid := Buffer.slice decypted 65 97 in
  modify (set_remotePublicKey (Some (util.id2pk (Buffer.slice decypted 97 161)))) ;;
  modify (set_remoteNonce (Some (Buffer.slice decypted 161 193))) ;;
  util.assertEq (byte.unsigned <$> decypted !! 193%nat) (Some 0) "invalid postfix" ;;
  remotePublicKey <- field _remotePublicKey ;;
  privateKey <- gets _privateKey ;;
  x <- need LibraryError (ecdhX remotePublicKey privateKey) ;;
  remoteNonce <- field _remoteNonce ;;
  recoveryId <- need LibraryError recoveryId ;;
  remoteEphemeralPublicKey <-
    need LibraryError (recover (util.xor x remoteNonce) signature recoveryId) ;;
  modify (set_remoteEphemeralPublicKey (Some remoteEphemeralPublicKey)) ;;
  ephemeralPrivateKey <- gets _ephemeralPrivateKey ;;
  ephemeralSharedSecret <-
    need LibraryError (ecdhX remoteEphemeralPublicKey ephemeralPrivateKey) ;;
  modify (set_ephemeralSharedSecret (Some ephemeralSharedSecret)) ;;
  let _heid := util.keccak256 [ util.pk2id remoteEphemeralPublicKey ] in
  util.assertEq _heid heid "the hash of the ephemeral key should match".

Definition createAck (privateKey IV : bytes) : M t bytes :=
  ephemeralPublicKey <- gets _ephemeralPublicKey ;;
  nonce <- gets _nonce ;;
  let data := concat
    [ util.pk2id ephemeralPublicKey;
      nonce;
      [ Byte.x00 ] ] in
  initMsg <- _encryptMessage privateKey IV data ;;
  modify (set_initMsg (Some initMsg)) ;;
  remoteInitMsg <- gets _remoteInitMsg ;;
  _setupFrame remoteInitMsg true ;;
  field _initMsg.

Definition parseAck (data : bytes) : M t unit :=
  decypted <- _decryptMessage data ;;
  util.assertEq (Z.of_nat (length decypted)) 97 "invalid packet length" ;;
  modify (set_remoteEphemeralPublicKey
            (Some (util.id2pk (Buffer.slice decypted 0 64)))) ;;
  modify (set_remoteNonce (Some (Buffer.slice decypted 64 96))) ;;
  util.assertEq (byte.unsigned <$> decypted !! 96%nat) (Some 0) "invalid postfix" ;;
  remoteEphemeralPublicKey <- field _remoteEphemeralPublicKey ;;
  ephemeralPrivateKey <- gets _ephemeralPrivateKey ;;
  ephemeralSharedSecret <-
    need LibraryError (ecdhX remoteEphemeralPublicKey ephemeralPrivateKey) ;;
  modify (set_ephemeralSharedSecret (Some ephemeralSharedSecret)) ;;
  _setupFrame (Some data) false.

Definition createHeader (size : Z) : M t bytes :=
  let size := util.zfill (intToBuffer size) 3 true in
  let header := size ++ rlp_encode_0_0 in
  let header := util.zfill header 16 false in
  header <- egressAes_update header ;;
  on_egressMac (fun m => MAC.updateHeader m header) ;;
  tag <- (m <- field _egressMac ;; ret (MAC.digest m)) ;;
  ret (header ++ tag).

Definition parseHeader (data : bytes) : M t Z :=
  let header := Buffer.slice data 0 16 in
  let mac := Buffer.slice data 16 32 in
  on_ingressMac (fun m => MAC.updateHeader m header) ;;
  _mac <- (m <- field _ingressMac ;; ret (MAC.digest m)) ;;
  util.assertEq _mac mac "Invalid MAC" ;;
  header <- ingressAes_update header ;;
  modify (set_bodySize (Some (bufferToInt (Buffer.slice header 0 3)))) ;;
  size <- field _bodySize ;;
  ret size.

(** [Math.ceil(length / 16) * 16] *)
Definition padded_length (length : Z) : Z :=
  Qceiling (inject_Z length / inject_Z 16) * 16.

Definition createBody (data : bytes) : M t bytes :=
  let data := util.zfill data (padded_length (Z.of_nat (length data))) false in
  encryptedData <- egressAes_update data ;;
  on_egressMac (fun m => MAC.updateBody m encryptedData) ;;
  tag <- (m <- field _egressMac ;; ret (MAC.digest m)) ;;
  ret (encryptedData ++ tag).

Definition parseBody (data : bytes) : M t bytes :=
  bodySize <- gets _bodySize ;;
  match bodySize with
  | None => throw (Thrown "need to parse header first")
  | Some size =>
      let body := Buffer.slice data 0 (-16) in
      let mac := Buffer.slice_from data (-16) in
      on_ingressMac (fun m => MAC.updateBody m body) ;;
      _mac <- (m <- field _ingressMac ;; ret (MAC.digest m)) ;;
      util.assertEq _mac mac "Invalid MAC" ;;
      modify (set_bodySize None) ;;
      decrypted <- ingressAes_update body ;;
      ret (Buffer.slice decrypted 0 size)
  end.

End Methods.

(** The frame state [a] writes with is the one [b] reads with: the same
    AES stream at the same position, and the same MAC state. *)
Definition mirrored (a b : t) : Prop :=
  (exists c, _egressAes a = Some c /\ _ingressAes b = Some c)
  /\ (exists m, _egressMac a = Some m /\ _ingressMac b = Some m).

Section Sessions.
Context `{Primitives}.

(** The local variables [sharedSecret], [aesSecret] and [macSecret] of
    [_setupFrame(remoteData, incoming)], from the fields it reads. *)
Definition frame_secrets (e : t) (incoming : bool) : option (bytes * bytes * bytes) :=
  match _remoteNonce e, _ephemeralSharedSecret e with
  | Some remoteNonce, Some ephemeralSharedSecret =>
      let nonceMaterial :=
        if incoming then _nonce e ++ remoteNonce else remoteNonce ++ _nonce e in
      let hNonce := util.keccak256 [nonceMaterial] in
      let sharedSecret := util.keccak256 [ephemeralSharedSecret; hNonce] in
      let aesSecret := util.keccak256 [ephemeralSharedSecret; sharedSecret] in
      let macSecret := util.keccak256 [ephemeralSharedSecret; aesSecret] in
      Some (sharedSecret, aesSecret, macSecret)
  | _, _ => None
  end.

(** One frame from [sender] to [receiver]: the header and the body that
    the one writes are parsed by the other, which reads [data]. *)
Definition frame_transfer (sender receiver : t) (data : bytes)
    (sender' receiver' : t) : Prop :=
  exists sender1 receiver1 header body,
    createHeader (Z.of_nat (length data)) sender = (sender1, Return header)
    /\ parseHeader header receiver = (receiver1, Return (Z.of_nat (length data)))
    /\ createBody data sender1 = (sender', Return body)
    /\ parseBody body receiver1 = (receiver', Return data).

(** Frames in both directions, in any order ([true]: from [a] to [b]),
    each arriving as it was written. *)
Fixpoint session (frames : list (bool * bytes)) (a b : t) : Prop :=
  match frames with
  | [] => True
  | (true, data) :: rest =>
      exists a' b', frame_transfer a b data a' b' /\ session rest a' b'
  | (false, data) :: rest =>
      exists a' b', frame_transfer b a data b' a' /\ session rest a' b'
  end.

End Sessions.
End ECIES.

(** ** Objects with their keys *)

(** An object as [new ECIES(privateKey, id, remoteId)] makes it for the
    holder of [privateKey]: the public key is that of the private key, the
    ephemeral keys are a pair too, and the nonce has 32 bytes. *)
Definition well_keyed `{Primitives} (e : ECIES.t) : Prop :=
  key_pair (ECIES._privateKey e) (ECIES._publicKey e)
  /\ key_pair (ECIES._ephemeralPrivateKey e) (ECIES._ephemeralPublicKey e)
  /\ length (ECIES._nonce e) = 32%nat.

(** ** The discovery server *)

(** [lru-cache], as the server configures it. *)
Module LRUCache.

Record Entry (V : Type) := {
  key : string;
  value : V;
  now : Z          (** [Date.now()] when the entry was set *)
}.
Arguments key {V} _.
Arguments value {V} _.
Arguments now {V} _.

Record t (V : Type) := {
  max : Z;
  maxAge : Z;
  stale : bool;
  (** the entries, most recently used first *)
  lruList : list (Entry V)
}.
Arguments max {V} _.
Arguments maxAge {V} _.
Arguments stale {V} _.
Arguments lruList {V} _.

Section Ops.
Context {V : Type}.

Definition with_list (c : t V) (l : list (Entry V)) : t V :=
  {| max := max c; maxAge := maxAge c; stale := stale c; lruList := l |}.

Definition find (k : string) (l : list (Entry V)) : option (Entry V) :=
  List.find (fun e => String.eqb (key e) k) l.

Definition remove (k : string) (l : list (Entry V)) : list (Entry V) :=
  List.filter (fun e => negb (String.eqb (key e) k)) l.

(** [isStale]: older than [maxAge] at [time]. *)
Definition isStale (c : t V) (hit : Entry V) (time : Z) : bool :=
  negb (maxAge c =? 0) && (maxAge c <? time - now hit).

(** [cache.get(key)] at [time]: a stale entry is deleted, and returned only
    when [stale] is set; a fresh one becomes the most recently used. *)
Definition get (c : t V) (k : string) (time : Z) : t V * option V :=
  match find k (lruList c) with
  | None => (c, None)
  | Some hit =>
      if isStale c hit time
      then (with_list c (remove k (lruList c)),
            if stale c then Some (value hit) else None)
      else (with_list c (hit :: remove k (lruList c)), Some (value hit))
  end.

(** [trim]: entries are dropped from the least recently used end while
    there are more than [max]. *)
Definition trim (c : t V) : t V :=
  with_list c (firstn (Z.to_nat (max c)) (lruList c)).

(** [cache.set(key, value)] at [time]; every entry has length 1. *)
Definition set (c : t V) (k : string) (v : V) (time : Z) : t V :=
  if max c <? 1 then with_list c (remove k (lruList c))
  else
    trim (with_list c
            ({| key := k; value := v; now := if maxAge c =? 0 then 0 else time |}
               :: remove k (lruList c))).

End Ops.
End LRUCache.

Module Server.

Record Endpoint := {
  e_address : string;
  e_udpPort : option Z;
  e_tcpPort : option Z
}.

(** A peer object: what [ping] is given, and what a ping resolves with. *)
Record Peer := {
  id : option bytes;
  address : string;
  udpPort : option Z;
  tcpPort : option Z
}.

(** [rinfo] of a datagram *)
Record RInfo := {
  r_address : string;
  r_port : Z
}.

(** The data of the four messages. *)
Inductive Data :=
| Ping (version : Z) (from : Endpoint) (to : Endpoint)
| Pong (to : Endpoint) (hash : bytes)
| FindNeighbours (target : bytes)
| Neighbours (peers : list Peer).

(** What [message.decode] returns. *)
Record Info := {
  data : Data;
  publicKey : bytes
}.

(** The routing table the server consults. *)
Record DPT := {
  getPeer : bytes -> option Peer;
  getClosestPeers : bytes -> list Peer
}.

(** [./message], the packet codec, which is not among the sources. *)
Class Message := {
  (** [message.encode(typename, data, privateKey)] *)
  encode : Data -> bytes -> bytes;
  (** [message.decode(buffer)], which throws on a malformed packet *)
  decode : bytes -> Result Info
}.

Definition VERSION : Z := 4.

(** [ms('1s')], [ms('100ms')] and [ms('10s')] *)
Definition ms_1s : Z := 1000.
Definition ms_100ms : Z := 100.
Definition ms_10s : Z := 10000.

Definition DEFAULT_TIMEOUT : Z := ms_10s.

Definition DEFAULT_ENDPOINT : Endpoint :=
  {| e_address := "0.0.0.0"; e_udpPort := None; e_tcpPort := None |}.

(** A promise made by [createDeferred]. *)
Inductive Promise :=
| Pending
| Resolved (peer : Peer)
| Rejected (e : Error).

(** The callbacks the server hands to [setTimeout]. *)
Inductive Callback :=
| PingTimeout (peer : Peer) (rkey : string) (deferred : nat)
| EmitPeers (peers : list Endpoint).

Record Timer := {
  due : Z;
  callback : Callback
}.

Record Request := {
  peer : Peer;
  deferred : nat;
  timeoutId : nat
}.

Record Datagram := {
  d_msg : bytes;
  d_port : option Z;
  d_address : string
}.

(** The UDP socket the constructor creates. *)
Record Socket := {
  sent : list Datagram;
  bound : bool;
  closed : bool
}.

Inductive Emitted :=
| peers (l : list Endpoint)
| error (e : Error).

(** The server object, and the part of the runtime it acts on: the clock,
    the socket, the timers, the promises and the events it has emitted. *)
Record t := {
  _dpt : DPT;
  _privateKey : bytes;
  _timeout : Z;
  _endpoint : Endpoint;
  _requests : gmap string Request;
  _requestsCache : LRUCache.t nat;
  (** the reference to the socket, [null] once destroyed *)
  _socket : option unit;
  clock : Z;
  socket : Socket;
  timers : gmap nat Timer;
  nextTimer : nat;
  promises : list Promise;
  emitted : list Emitted
}.

Definition DEFAULT_CACHE_OPTS : LRUCache.t nat :=
  {| LRUCache.max := 1000; LRUCache.maxAge := ms_1s; LRUCache.stale := false;
     LRUCache.lruList := [] |}.

Definition set_requests (v : gmap string Request) (s : t) : t :=
  {| _dpt := _dpt s; _privateKey := _privateKey s; _timeout := _timeout s;
     _endpoint := _endpoint s; _requests := v;
     _requestsCache := _requestsCache s; _socket := _socket s;
     clock := clock s; socket := socket s; timers := timers s;
     nextTimer := nextTimer s; promises := promises s; emitted := emitted s |}.

Definition set_requestsCache (v : LRUCache.t nat) (s : t) : t :=
  {| _dpt := _dpt s; _privateKey := _privateKey s; _timeout := _timeout s;
     _endpoint := _endpoint s; _requests := _requests s;
     _requestsCache := v; _socket := _socket s;
     clock := clock s; socket := socket s; timers := timers s;
     nextTimer := nextTimer s; promises := promises s; emitted := emitted s |}.

Definition set_socket_ref (v : option unit) (s : t) : t :=
  {| _dpt := _dpt s; _privateKey := _privateKey s; _timeout := _timeout s;
     _endpoint := _endpoint s; _requests := _requests s;
     _requestsCache := _requestsCache s; _socket := v;
     clock := clock s; socket := socket s; timers := timers s;
     nextTimer := nextTimer s; promises := promises s; emitted := emitted s |}.

Definition set_clock (v : Z) (s : t) : t :=
  {| _dpt := _dpt s; _privateKey := _privateKey s; _timeout := _timeout s;
     _endpoint := _endpoint s; _requests := _requests s;
     _requestsCache := _requestsCache s; _socket := _socket s;
     clock := v; socket := socket s; timers := timers s;
     nextTimer := nextTimer s; promises := promises s; emitted := emitted s |}.

Definition set_socket (v : Socket) (s : t) : t :=
  {| _dpt := _dpt s; _privateKey := _privateKey s; _timeout := _timeout s;
     _endpoint := _endpoint s; _requests := _requests s;
     _requestsCache := _requestsCache s; _socket := _socket s;
     clock := clock s; socket := v; timers := timers s;
     nextTimer := nextTimer s; promises := promises s; emitted := emitted s |}.

Definition set_timers (v : gmap nat Timer) (n : nat) (s : t) : t :=
  {| _dpt := _dpt s; _privateKey := _privateKey s; _timeout := _timeout s;
     _endpoint := _endpoint s; _requests := _requests s;
     _requestsCache := _requestsCache s; _socket := _socket s;
     clock := clock s; socket := socket s; timers := v;
     nextTimer := n; promises := promises s; emitted := emitted s |}.

Definition set_promises (v : list Promise) (s : t) : t :=
  {| _dpt := _dpt s; _privateKey := _privateKey s; _timeout := _timeout s;
     _endpoint := _endpoint s; _requests := _requests s;
     _requestsCache := _requestsCache s; _socket := _socket s;
     clock := clock s; socket := socket s; timers := timers s;
     nextTimer := nextTimer s; promises := v; emitted := emitted s |}.

Definition set_emitted (v : list Emitted) (s : t) : t :=
  {| _dpt := _dpt s; _privateKey := _privateKey s; _timeout := _timeout s;
     _endpoint := _endpoint s; _requests := _requests s;
     _requestsCache := _requestsCache s; _socket := _socket s;
     clock := clock s; socket := socket s; timers := timers s;
     nextTimer := nextTimer s; promises := promises s; emitted := v |}.

Section Methods.
Context `{Message}.

(** [new Server(dpt, privateKey, options)] at time [time]; an option left
    out, or a zero timeout, gives the default. *)
Definition new (dpt : DPT) (privateKey : bytes) (timeout : option Z)
    (endpoint : option Endpoint) (time : Z) : t :=
  {| _dpt := dpt;
     _privateKey := privateKey;
     _timeout :=
       match timeout with
       | Some v => if v =? 0 then DEFAULT_TIMEOUT else v
       | None => DEFAULT_TIMEOUT
       end;
     _endpoint :=
       match endpoint with
       | Some v => v
       | None => DEFAULT_ENDPOINT
       end;
     _requests := ∅;
     _requestsCache := DEFAULT_CACHE_OPTS;
     _socket := Some tt;
     clock := time;
     socket := {| sent := []; bound := false; closed := false |};
     timers := ∅;
     nextTimer := 0;
     promises := [];
     emitted := [] |}.

(** The delay a timer really waits: Node's [setTimeout] replaces a delay
    below 1 or above [2^31 - 1] by 1. *)
Definition TIMEOUT_MAX : Z := 2147483647.

Definition timer_delay (delay : Z) : Z :=
  if (1 <=? delay) && (delay <=? TIMEOUT_MAX) then delay else 1.

(** [setTimeout(callback, delay)]: the callback may run once the clock has
    reached [due]; the timer's id is returned. *)
Definition setTimeout (cb : Callback) (delay : Z) : M t nat :=
  time <- gets clock ;;
  i <- gets nextTimer ;;
  tm <- gets timers ;;
  modify (set_timers
            (<[i := {| due := time + timer_delay delay; callback := cb |}]> tm)
            (S i)) ;;
  ret i.

(** Modelled from the spec: [util.createDeferred] of [src/es/util.js]: a
    fresh pending promise with its [resolve] and [reject]. *)
Definition createDeferred : M t nat :=
  ps <- gets promises ;;
  modify (set_promises (ps ++ [Pending])) ;;
  ret (length ps).

(** [deferred.resolve(v)] and [deferred.reject(e)]: only a pending promise
    changes. *)
Definition settle (d : nat) (p : Promise) : M t unit :=
  ps <- gets promises ;;
  match ps !! d with
  | Some Pending => modify (set_promises (<[d := p]> ps))
  | _ => ret tt
  end.

(** [this.emit(...)] *)
Definition emit (e : Emitted) : M t unit :=
  modify (fun s => set_emitted (emitted s ++ [e]) s).

Definition _isAliveCheck : M t unit :=
  sock <- gets _socket ;;
  match sock with
  | None => throw (Thrown "Server already destroyed")
  | Some _ => ret tt
  end.

Definition bind : M t unit :=
  _isAliveCheck ;;
  _ <- (sock <- gets _socket ;; need TypeError sock) ;;
  modify (fun s =>
    set_socket {| sent := sent (socket s); bound := true;
                  closed := closed (socket s) |} s).

Definition destroy : M t unit :=
  _isAliveCheck ;;
  _ <- (sock <- gets _socket ;; need TypeError sock) ;;
  modify (fun s =>
    set_socket {| sent := sent (socket s); bound := bound (socket s);
                  closed := true |} s) ;;
  modify (set_socket_ref None).

(** The ports that [socket.send] of Node's [dgram] accepts, 1 to 65535:
    given [null], 0 or any other number it throws, before anything is
    sent. *)
Definition valid_port (p : option Z) : bool :=
  match p with
  | Some n => (1 <=? n) && (n <=? 65535)
  | None => false
  end.

(** [this._socket.send(msg, 0, msg.length, port, address)]: the datagram
    is handed to the socket, or the port is refused. *)
Definition socket_send (msg : bytes) (port : option Z) (address : string)
    : M t unit :=
  _ <- (sock <- gets _socket ;; need TypeError sock) ;;
  if valid_port port
  then modify (fun s =>
         set_socket
           {| sent := sent (socket s)
                      ++ [ {| d_msg := msg; d_port := port;
                              d_address := address |} ];
              bound := bound (socket s); closed := closed (socket s) |} s)
  else throw RangeError.

Definition _send (peer : Peer) (data : Data) : M t bytes :=
  privateKey <- gets _privateKey ;;
  let msg := encode data privateKey in
  socket_send msg (udpPort peer) (address peer) ;;
  ret (Buffer.slice msg 0 32).

(** [`${peer.udpPort}`] *)
Definition show_port (p : option Z) : string :=
  match p with
  | Some n => pretty n
  | None => "null"
  end.

(** [`${peer.address}:${peer.udpPort}`] *)
Definition rckey_of (peer : Peer) : string :=
  address peer +:+ ":" +:+ show_port (udpPort peer).

Definition endpoint_of (peer : Peer) : Endpoint :=
  {| e_address := address peer; e_udpPort := udpPort peer;
     e_tcpPort := tcpPort peer |}.

(** [this._requestsCache.get(rckey)] and [.set(rckey, promise)] *)
Definition requestsCache_get (rckey : string) : M t (option nat) :=
  c <- gets _requestsCache ;;
  time <- gets clock ;;
  modify (set_requestsCache (fst (LRUCache.get c rckey time))) ;;
  ret (snd (LRUCache.get c rckey time)).

Definition requestsCache_set (rckey : string) (promise : nat) : M t unit :=
  c <- gets _requestsCache ;;
  time <- gets clock ;;
  modify (set_requestsCache (LRUCache.set c rckey promise time)).

(** [ping(peer)]; the value is the promise that the caller awaits, and an
    exception is the rejection of the promise the [async] method returns. *)
Definition ping (peer : Peer) : M t nat :=
  _isAliveCheck ;;
  let rckey := rckey_of peer in
  promise <- requestsCache_get rckey ;;
  match promise with
  | Some promise => ret promise
  | None =>
      endpoint <- gets _endpoint ;;
      hash <- _send peer (Ping VERSION endpoint (endpoint_of peer)) ;;
      deferred <- createDeferred ;;
      let rkey := Buffer.toHex hash in
      timeout <- gets _timeout ;;
      timeoutId <- setTimeout (PingTimeout peer rkey deferred) timeout ;;
      modify (fun s =>
        set_requests
          (<[rkey := {| peer := peer; deferred := deferred;
                        timeoutId := timeoutId |}]> (_requests s)) s) ;;
      requestsCache_set rckey deferred ;;
      ret deferred
  end.

Definition findneighbours (peer : Peer) (target : bytes) : M t unit :=
  _isAliveCheck ;;
  _ <- _send peer (FindNeighbours target) ;;
  ret tt.

(** [rinfo] after [Object.assign(rinfo, { id: peerId, udpPort: rinfo.port })] *)
Definition rinfo_peer (rinfo : RInfo) (peerId : bytes) : Peer :=
  {| id := Some peerId; address := r_address rinfo;
     udpPort := Some (r_port rinfo); tcpPort := None |}.

Definition _handler (msg : bytes) (rinfo : RInfo) : M t unit :=
  info <- (fun s => (s, decode msg)) ;;
  let peerId := util.pk2id (publicKey info) in
  dpt <- gets _dpt ;;
  let known := getPeer dpt peerId in
  match known, data info with
  | None, Ping _ from _ =>
      match e_udpPort from with
      | Some _ => _ <- setTimeout (EmitPeers [ from ]) ms_100ms ;; ret tt
      | None => ret tt
      end
  | _, _ => ret tt
  end ;;
  match data info with
  | Ping _ from _ =>
      _ <- _send (rinfo_peer rinfo peerId)
             (Pong {| e_address := r_address rinfo;
                      e_udpPort := Some (r_port rinfo);
                      e_tcpPort := e_tcpPort from |}
                   (Buffer.slice msg 0 32)) ;;
      ret tt
  | Pong _ hash =>
      let rkey := Buffer.toHex hash in
      request <- gets (fun s => _requests s !! rkey) ;;
      match request with
      | Some request =>
          modify (fun s => set_requests (delete rkey (_requests s)) s) ;;
          settle (deferred request)
            (Resolved {| id := Some peerId;
                         address := address (peer request);
                         udpPort := udpPort (peer request);
                         tcpPort := tcpPort (peer request) |})
      | None => ret tt
      end
  | FindNeighbours target =>
      _ <- _send (rinfo_peer rinfo peerId)
             (Neighbours (getClosestPeers dpt target)) ;;
      ret tt
  | Neighbours l => emit (peers (map endpoint_of l))
  end.

(** The socket's ['message'] listener: an exception of the handler becomes
    an ['error'] event. *)
Definition on_message (msg : bytes) (rinfo : RInfo) : M t unit :=
  fun s =>
    match _handler msg rinfo s with
    | (s', Throw err) => emit (error err) s'
    | r => r
    end.

(** The body of a timer's callback. *)
Definition run_callback (cb : Callback) : M t unit :=
  match cb with
  | PingTimeout peer rkey deferred =>
      modify (fun s => set_requests (delete rkey (_requests s)) s) ;;
      settle deferred
        (Rejected (Thrown ("Timeout error: ping " +:+ rckey_of peer)))
  | EmitPeers l => emit (peers l)
  end.

(** ** The event loop around the server *)

Inductive Action :=
| Elapse (dt : Z)                          (** time passes *)
| TimerFires (i : nat)                     (** a due timer runs, once *)
| Receive (msg : bytes) (rinfo : RInfo)    (** a datagram on the open socket *)
| CallBind
| CallDestroy
| CallPing (peer : Peer)
| CallFindneighbours (peer : Peer) (target : bytes).

(** One turn of the loop, when the action can happen. *)
Definition step (a : Action) (s : t) : option t :=
  match a with
  | Elapse dt =>
      if 0 <=? dt then Some (set_clock (clock s + dt) s) else None
  | TimerFires i =>
      match timers s !! i with
      | Some tm =>
          if due tm <=? clock s
          then Some (fst (run_callback (callback tm)
                            (set_timers (delete i (timers s)) (nextTimer s) s)))
          else None
      | None => None
      end
  | Receive msg rinfo =>
      if closed (socket s) then None else Some (fst (on_message msg rinfo s))
  | CallBind => Some (fst (bind s))
  | CallDestroy => Some (fst (destroy s))
  | CallPing p => Some (fst (ping p s))
  | CallFindneighbours p target => Some (fst (findneighbours p target s))
  end.

Fixpoint run (l : list Action) (s : t) : option t :=
  match l with
  | [] => Some s
  | a :: l' =>
      match step a s with
      | Some s' => run l' s'
      | None => None
      end
  end.

(** The states the server goes through: a new server, and what the event
    loop makes of it. *)
Inductive reachable : t -> Prop :=
| reachable_new dpt privateKey timeout endpoint time :
    reachable (new dpt privateKey timeout endpoint time)
| reachable_step a s s' :
    reachable s -> step a s = Some s' -> reachable s'.

(** No timer has an id that [setTimeout] has yet to give out. *)
Definition timers_fresh (s : t) : Prop :=
  forall i, (nextTimer s <= i)%nat -> timers s !! i = None.

(** Every pending request has a pending promise, and its timeout timer is
    scheduled. *)
Definition requests_wf (s : t) : Prop :=
  forall k r, _requests s !! k = Some r ->
    promises s !! deferred r = Some Pending
    /\ exists t, timers s !! timeoutId r
                 = Some {| due := t;
                           callback := PingTimeout (peer r) k (deferred r) |}.

(** The timeout timers reject promises that exist, each its own. *)
Definition timers_wf (s : t) : Prop :=
  (forall i tm p k d,
      timers s !! i = Some tm -> callback tm = PingTimeout p k d ->
      (d < length (promises s))%nat)
  /\ (forall i j tm tm' p k p' k' d,
        timers s !! i = Some tm -> timers s !! j = Some tm' ->
        callback tm = PingTimeout p k d -> callback tm' = PingTimeout p' k' d ->
        i = j).

(** The server keeps its reference to the socket exactly as long as the
    socket is open. *)
Definition socket_wf (s : t) : Prop :=
  _socket s = None <-> closed (socket s) = true.

(** The dedup cache keeps the options it was created with. *)
Definition cache_wf (s : t) : Prop :=
  LRUCache.max (_requestsCache s) = 1000
  /\ LRUCache.maxAge (_requestsCache s) = ms_1s
  /\ LRUCache.stale (_requestsCache s) = false.

Definition invariant (s : t) : Prop :=
  timers_fresh s /\ requests_wf s /\ timers_wf s /\ socket_wf s.

(** Calls of [ping] one after the other, each after a delay; the results
    are what the callers await. *)
Fixpoint pings (calls : list (Z * Peer)) (s : t) : t * list (Result nat) :=
  match calls with
  | [] => (s, [])
  | (dt, p) :: rest =>
      let (s1, r) := ping p (set_clock (clock s + dt) s) in
      let (s2, rs) := pings rest s1 in
      (s2, r :: rs)
  end.

End Methods.
End Server.

(** ** Small instances of the libraries

    Stand-ins for the cryptographic libraries and for the packet codec,
    simple enough to compute with: they have the shapes and the algebra of
    the real ones (digest lengths, key formats, the Diffie-Hellman law,
    signature recovery) and none of their strength.  The theorems do not
    depend on them; they serve to run the model on concrete inputs. *)

Module Toy.

(** [n] bytes of a buffer, zero-padded. *)
Definition fill (n : nat) (b : bytes) : bytes := firstn n (b ++ Buffer.zeros n).

Definition sha256 (m : bytes) : bytes := fill 32 (rev m).

Definition hmac_sha256 (key m : bytes) : bytes :=
  util.xor (fill 32 key) (fill 32 (rev m)).

Definition keccak (m : bytes) : bytes :=
  fill 32 (byte.of_Z (Z.of_nat (length m)) :: m).

Definition aes_ctr_keystream (key iv : bytes) (n : nat) : byte :=
  byte.of_Z (Z.of_nat n + bufferToInt (firstn 1 key) + bufferToInt (firstn 1 iv)).

Definition aes256_ecb (key block : bytes) : bytes :=
  util.xor (fill (length block) key) block.

Definition privateKeyVerify (k : bytes) : bool := Nat.eqb (length k) 32.

Definition publicKeyCreate (k : bytes) : option bytes :=
  if privateKeyVerify k then Some (Byte.x04 :: k ++ k) else None.

Definition ecdhUnsafe (pub k : bytes) : option bytes :=
  if Nat.eqb (length pub) 65 && privateKeyVerify k
  then Some (Byte.x02 :: util.xor (firstn 32 (skipn 1 pub)) k)
  else None.

Definition sign (msg k : bytes) : option (bytes * Z) :=
  if privateKeyVerify k then Some (k ++ fill 32 msg, 0) else None.

Definition recover (msg sig : bytes) (recovery : Z) : option bytes :=
  if Nat.eqb (length sig) 64
  then Some (Byte.x04 :: firstn 32 sig ++ firstn 32 sig)
  else None.

#[local] Instance primitives : Primitives :=
  Build_Primitives sha256 hmac_sha256 aes_ctr_keystream aes256_ecb keccak
    publicKeyCreate ecdhUnsafe sign recover privateKeyVerify
    [Byte.xc2; Byte.x80; Byte.x80].

(** The packet codec: a hash, a type byte and a body. *)
Definition from : Server.Endpoint :=
  {| Server.e_address := "10.0.0.2"; Server.e_udpPort := Some 30303;
     Server.e_tcpPort := Some 30303 |}.

Definition to : Server.Endpoint :=
  {| Server.e_address := "10.0.0.1"; Server.e_udpPort := Some 30303;
     Server.e_tcpPort := Some 30303 |}.

Definition senderKey : bytes := Byte.x04 :: repeat Byte.x07 64.

Definition payload (d : Server.Data) : bytes :=
  match d with
  | Server.Ping _ _ _ => [Byte.x01]
  | Server.Pong _ hash => Byte.x02 :: hash
  | Server.FindNeighbours target => Byte.x03 :: target
  | Server.Neighbours _ => [Byte.x04]
  end.

Definition encode (d : Server.Data) (privateKey : bytes) : bytes :=
  keccak (privateKey ++ payload d) ++ payload d.

Definition decode (msg : bytes) : Result Server.Info :=
  match skipn 32 msg with
  | Byte.x01 :: _ =>
      Return {| Server.data := Server.Ping Server.VERSION from to;
                Server.publicKey := senderKey |}
  | Byte.x02 :: hash =>
      Return {| Server.data := Server.Pong to hash; Server.publicKey := senderKey |}
  | Byte.x03 :: target =>
      Return {| Server.data := Server.FindNeighbours target;
                Server.publicKey := senderKey |}
  | Byte.x04 :: _ =>
      Return {| Server.data := Server.Neighbours []; Server.publicKey := senderKey |}
  | _ => Throw (Thrown "unknown packet type")
  end.

#[local] Instance message : Server.Message :=
  Server.Build_Message encode decode.

(** A routing table that knows nobody. *)
Definition dpt : Server.DPT :=
  {| Server.getPeer := fun _ => None; Server.getClosestPeers := fun _ => [] |}.

Definition peer : Server.Peer :=
  {| Server.id := None; Server.address := "127.0.0.1";
     Server.udpPort := Some 30303; Server.tcpPort := Some 30303 |}.

Definition rinfo : Server.RInfo :=
  {| Server.r_address := "127.0.0.1"; Server.r_port := 30303 |}.

(** A new server, and the server after one [ping]. *)
Definition server0 : Server.t :=
  Server.new dpt (repeat Byte.x01 32) None None 0.

Definition server1 : Server.t := fst (Server.ping peer server0).

(** The hash of that ping, the key of its request, the request, and the
    pong that answers it. *)
Definition hash1 : bytes :=
  Buffer.slice
    (encode (Server.Ping Server.VERSION Server.DEFAULT_ENDPOINT
               (Server.endpoint_of peer)) (repeat Byte.x01 32)) 0 32.

Definition rkey1 : string := Buffer.toHex hash1.

Definition request1 : Server.Request :=
  {| Server.peer := peer; Server.deferred := 0; Server.timeoutId := 0 |}.

Definition pong1 : bytes := encode (Server.Pong to hash1) (repeat Byte.x02 32).

(** A frame state that reads what it writes and addresses its envelopes to
    itself, with a pending body size or without. *)
Definition cipher : Cipher :=
  {| cipher_key := repeat Byte.x0a 32; cipher_iv := Buffer.zeros 16;
     cipher_pos := 0 |}.

Definition mac : MAC.t := MAC.new (repeat Byte.x0b 32).

Definition frame_state (bodySize : option Z) : ECIES.t :=
  {| ECIES._privateKey := repeat Byte.x01 32;
     ECIES._publicKey := Byte.x04 :: repeat Byte.x01 64;
     ECIES._remotePublicKey := Some (Byte.x04 :: repeat Byte.x01 64);
     ECIES._nonce := repeat Byte.x03 32;
     ECIES._remoteNonce := Some (repeat Byte.x04 32);
     ECIES._initMsg := Some [];
     ECIES._remoteInitMsg := Some [];
     ECIES._ingressAes := Some cipher;
     ECIES._egressAes := Some cipher;
     ECIES._ingressMac := Some mac;
     ECIES._egressMac := Some mac;
     ECIES._ephemeralPrivateKey := repeat Byte.x05 32;
     ECIES._ephemeralPublicKey := Byte.x04 :: repeat Byte.x05 64;
     ECIES._remoteEphemeralPublicKey := Some (Byte.x04 :: repeat Byte.x06 64);
     ECIES._ephemeralSharedSecret := Some (repeat Byte.x03 32);
     ECIES._bodySize := bodySize |}.

(** A body with a wrong tag, and the body with the right tag for the MAC
    state that the wrong one leaves behind. *)
Definition bad_body : bytes := repeat Byte.x00 32.

Definition next_body : bytes :=
  let m1 := MAC.updateBody mac (Buffer.slice bad_body 0 (-16)) in
  repeat Byte.xff 16 ++ MAC.digest (MAC.updateBody m1 (repeat Byte.xff 16)).

Definition hello : bytes := [Byte.x68; Byte.x65; Byte.x6c; Byte.x6c; Byte.x6f].

(** A routing table that knows everybody. *)
Definition dpt_full : Server.DPT :=
  {| Server.getPeer := fun _ => Some peer; Server.getClosestPeers := fun _ => [] |}.

(** The ping datagram of a remote node. *)
Definition ping1 : bytes :=
  encode (Server.Ping Server.VERSION from to) (repeat Byte.x02 32).

(** Key material of one repeated byte; an initiator and a responder as
    [new ECIES] makes them from it, and the packets and states of their
    handshake. *)
Definition key (b : byte) : bytes := repeat b 32.

Definition pub (b : byte) : bytes := Byte.x04 :: key b ++ key b.

Definition made (r : Result ECIES.t) : ECIES.t :=
  match r with
  | Return e => e
  | Throw _ => frame_state None
  end.

Definition packet (r : Result bytes) : bytes :=
  match r with
  | Return b => b
  | Throw _ => []
  end.

Definition initiator : ECIES.t :=
  made (ECIES.new (key Byte.x01) (util.pk2id (pub Byte.x01))
          (Some (util.pk2id (pub Byte.x02))) (key Byte.x03) (key Byte.x05)).

Definition responder : ECIES.t :=
  made (ECIES.new (key Byte.x02) (util.pk2id (pub Byte.x02)) None
          (key Byte.x04) (key Byte.x06)).

Definition auth : bytes :=
  packet (snd (ECIES.createAuth (key Byte.x07) (repeat Byte.x08 16) initiator)).

Definition initiator1 : ECIES.t :=
  fst (ECIES.createAuth (key Byte.x07) (repeat Byte.x08 16) initiator).

Definition responder1 : ECIES.t := fst (ECIES.parseAuth auth responder).

Definition ack : bytes :=
  packet (snd (ECIES.createAck (key Byte.x09) (repeat Byte.x0a 16) responder1)).

Definition responder2 : ECIES.t :=
  fst (ECIES.createAck (key Byte.x09) (repeat Byte.x0a 16) responder1).

Definition initiator2 : ECIES.t := fst (ECIES.parseAck ack initiator1).

(** A second server, with a key of its own. *)
Definition server_b : Server.t :=
  Server.new dpt (repeat Byte.x02 32) None None 0.

(** A peer without a UDP port, as [DEFAULT_ENDPOINT] is, and a datagram
    source with the port 0. *)
Definition nobody : Server.Peer :=
  {| Server.id := None; Server.address := "0.0.0.0";
     Server.udpPort := None; Server.tcpPort := None |}.

Definition rinfo0 : Server.RInfo :=
  {| Server.r_address := "127.0.0.1"; Server.r_port := 0 |}.

(** A codec whose packets carry the public key of the signer, as the
    signature of a real packet does: a hash, the key, a type byte and a
    body. *)
Definition signed_encode (d : Server.Data) (privateKey : bytes) : bytes :=
  keccak (privateKey ++ payload d)
  ++ (Byte.x04 :: privateKey ++ privateKey) ++ payload d.

Definition signed_decode (msg : bytes) : Result Server.Info :=
  let signer := firstn 65 (skipn 32 msg) in
  match skipn 65 (skipn 32 msg) with
  | Byte.x01 :: _ =>
      Return {| Server.data := Server.Ping Server.VERSION from to;
                Server.publicKey := signer |}
  | Byte.x02 :: hash =>
      Return {| Server.data := Server.Pong to hash; Server.publicKey := signer |}
  | Byte.x03 :: target =>
      Return {| Server.data := Server.FindNeighbours target;
                Server.publicKey := signer |}
  | Byte.x04 :: _ =>
      Return {| Server.data := Server.Neighbours []; Server.publicKey := signer |}
  | _ => Throw (Thrown "unknown packet type")
  end.

Definition signed : Server.Message :=
  Server.Build_Message signed_encode signed_decode.

End Toy.

(** * Properties *)

(** ** Buffers *)

Section BufferFacts.

Lemma lxor_byte_range (a b : Z) :
  0 <= a < 2 ^ 8 -> 0 <= b < 2 ^ 8 -> 0 <= Z.lxor a b < 2 ^ 8.
Proof.
  intros Ha Hb. split.
  - apply Z.lxor_nonneg. lia.
  - destruct (Z.eq_dec (Z.lxor a b) 0) as [->|Hne]; [lia|].
    apply Z.log2_lt_pow2.
    + assert (0 <= Z.lxor a b) by (apply Z.lxor_nonneg; lia). lia.
    + eapply Z.le_lt_trans; [apply Z.log2_lxor; lia|].
      destruct (Z.eq_dec a 0) as [->|]; destruct (Z.eq_dec b 0) as [->|];
        simpl; try lia.
      * rewrite Z.max_r by apply Z.log2_nonneg. apply Z.log2_lt_pow2; lia.
      * rewrite Z.max_l by apply Z.log2_nonneg. apply Z.log2_lt_pow2; lia.
      * apply Z.max_lub_lt; apply Z.log2_lt_pow2; lia.
Qed.

Lemma byte_xor_unsigned (a b : byte) :
  byte.unsigned (byte.xor a b) = Z.lxor (byte.unsigned a) (byte.unsigned b).
Proof.
  unfold byte.xor. rewrite byte.unsigned_of_Z. unfold byte.wrap.
  apply Z.mod_small. apply lxor_byte_range; apply byte.unsigned_range.
Qed.

Lemma byte_xor_cancel (a k : byte) : byte.xor (byte.xor a k) k = a.
Proof.
  apply byte.unsigned_inj. rewrite !byte_xor_unsigned.
  rewrite Z.lxor_assoc, Z.lxor_nilpotent, Z.lxor_0_r. reflexivity.
Qed.

Lemma byte_xor_comm (a b : byte) : byte.xor a b = byte.xor b a.
Proof.
  apply byte.unsigned_inj. rewrite !byte_xor_unsigned. apply Z.lxor_comm.
Qed.

Lemma xor_length (a b : bytes) :
  length (util.xor a b) = Nat.min (length a) (length b).
Proof.
  revert b. induction a as [|x a IH]; intros [|y b]; simpl; auto.
Qed.

Lemma xor_comm (a b : bytes) : util.xor a b = util.xor b a.
Proof.
  revert b. induction a as [|x a IH]; intros [|y b]; simpl; auto.
  rewrite byte_xor_comm, IH. reflexivity.
Qed.

(** XOR with the same key stream twice gives the data back. *)
Lemma zip_xor_cancel (data ks : bytes) :
  (length data <= length ks)%nat ->
  zip_with byte.xor (zip_with byte.xor data ks) ks = data.
Proof.
  revert ks. induction data as [|x data IH]; intros [|k ks] Hlen; simpl in *;
    try reflexivity; try lia.
  rewrite byte_xor_cancel, IH by lia. reflexivity.
Qed.

Lemma zeros_length (n : nat) : length (Buffer.zeros n) = n.
Proof. apply repeat_length. Qed.

(** Slices with indices inside the buffer. *)
Lemma slice_inside (b : bytes) (s e : Z) :
  0 <= s <= e -> e <= Z.of_nat (length b) ->
  Buffer.slice b s e = firstn (Z.to_nat e - Z.to_nat s) (skipn (Z.to_nat s) b).
Proof.
  intros Hs He. unfold Buffer.slice, Buffer.clamp_index.
  destruct (Z.ltb_spec s 0); [lia|]. destruct (Z.ltb_spec e 0); [lia|].
  rewrite !Z.min_l by lia. f_equal. lia.
Qed.

Lemma slice_all (b : bytes) (e : Z) :
  Z.of_nat (length b) <= e -> Buffer.slice b 0 e = b.
Proof.
  intros He. unfold Buffer.slice, Buffer.clamp_index.
  destruct (Z.ltb_spec e 0); [lia|]. simpl.
  rewrite Z.min_r by lia. rewrite Z.min_l by lia.
  rewrite Z.sub_0_r, Nat2Z.id. apply firstn_all.
Qed.

Lemma slice_app_l (a r : bytes) (e : Z) :
  e = Z.of_nat (length a) -> Buffer.slice (a ++ r) 0 e = a.
Proof.
  intros ->. rewrite slice_inside by (rewrite ?length_app; lia).
  change (Z.to_nat 0) with 0%nat. rewrite Nat2Z.id, Nat.sub_0_r.
  apply take_app_length.
Qed.

Lemma slice_app_mid (a b c : bytes) (s e : Z) :
  s = Z.of_nat (length a) -> e = Z.of_nat (length a + length b) ->
  Buffer.slice (a ++ b ++ c) s e = b.
Proof.
  intros -> ->. rewrite slice_inside by (rewrite ?length_app; lia).
  rewrite !Nat2Z.id, drop_app_length.
  replace (length a + length b - length a)%nat with (length b) by lia.
  apply take_app_length.
Qed.

Lemma slice_from_app (a r : bytes) (s : Z) :
  s = Z.of_nat (length a) -> Buffer.slice_from (a ++ r) s = r.
Proof.
  intros ->. unfold Buffer.slice_from.
  rewrite <- (app_nil_r r) at 1.
  rewrite slice_app_mid with (b := r) (c := []); auto.
  rewrite !length_app. simpl. lia.
Qed.

(** Slices counted from the end. *)
Lemma slice_neg_end (b : bytes) (s k : Z) :
  0 < k -> Buffer.slice b s (- k) = Buffer.slice b s (Z.max (Z.of_nat (length b) - k) 0).
Proof.
  intros Hk. unfold Buffer.slice.
  f_equal. f_equal. f_equal.
  unfold Buffer.clamp_index.
  destruct (Z.ltb_spec (- k) 0); [|lia].
  destruct (Z.ltb_spec (Z.max (Z.of_nat (length b) - k) 0) 0); lia.
Qed.

Lemma slice_app_drop_tail (a t : bytes) :
  (0 < length t)%nat ->
  Buffer.slice (a ++ t) 0 (- Z.of_nat (length t)) = a.
Proof.
  intros Ht. rewrite slice_neg_end by lia.
  apply slice_app_l. rewrite length_app. lia.
Qed.

Lemma slice_app_mid_neg (a b t : bytes) (s : Z) :
  (0 < length t)%nat -> s = Z.of_nat (length a) ->
  Buffer.slice (a ++ b ++ t) s (- Z.of_nat (length t)) = b.
Proof.
  intros Ht ->. rewrite slice_neg_end by lia.
  apply slice_app_mid; auto. rewrite !length_app. lia.
Qed.

Lemma slice_from_tail (a t : bytes) :
  (0 < length t)%nat ->
  Buffer.slice_from (a ++ t) (- Z.of_nat (length t)) = t.
Proof.
  intros Ht. unfold Buffer.slice_from, Buffer.slice, Buffer.clamp_index.
  destruct (Z.ltb_spec (- Z.of_nat (length t)) 0); [|lia].
  destruct (Z.ltb_spec (Z.of_nat (length (a ++ t))) 0); [lia|].
  rewrite length_app.
  rewrite Z.max_l by lia. rewrite Z.min_l by lia.
  replace (Z.to_nat (Z.of_nat (length a + length t) + - Z.of_nat (length t)))
    with (length a) by lia.
  rewrite drop_app_length. apply firstn_all2. lia.
Qed.

End BufferFacts.

(** ** Key derivation *)

Section KDFFacts.
Context `{Primitives}.

(** More fuel than the loop needs changes nothing. *)
Lemma concatKDF_loop_enough (fuel k : nat) (km : bytes) (r : Q) (counter : Z)
    (bufs : list bytes) :
  (r < inject_Z (counter + Z.of_nat fuel))%Q ->
  concatKDF_loop (fuel + k) km r counter bufs = concatKDF_loop fuel km r counter bufs.
Proof.
  revert counter bufs. induction fuel as [|fuel IH]; intros counter bufs Hr.
  - simpl. destruct k as [|k]; [reflexivity|]. simpl.
    destruct (Qle_bool (inject_Z counter) r) eqn:E; [|reflexivity].
    apply Qle_bool_iff in E. rewrite Z.add_0_r in Hr.
    exfalso. apply (Qlt_not_le _ _ Hr E).
  - simpl. destruct (Qle_bool (inject_Z counter) r); [|reflexivity].
    apply IH. replace (counter + 1 + Z.of_nat fuel) with (counter + Z.of_nat (S fuel)) by lia.
    exact Hr.
Qed.

Lemma reps_bound (keyLength : Z) :
  (reps keyLength < inject_Z (0 + Z.of_nat (Z.to_nat keyLength + 2)))%Q.
Proof.
  unfold reps, SHA256BlockSize, Qlt, Qdiv, Qmult, Qinv, inject_Z. simpl.
  lia.
Qed.

(** The fuel of [concatKDF_buffers] is never used up: the loop has left by
    itself, for every key length. *)
Lemma concatKDF_buffers_total (km : bytes) (keyLength : Z) (k : nat) :
  concatKDF_loop (Z.to_nat keyLength + 2 + k) km (reps keyLength) 0 []
  = concatKDF_buffers km keyLength.
Proof. apply concatKDF_loop_enough, reps_bound. Qed.

Lemma writeUInt32BE_1 :
  Buffer.writeUInt32BE 1 = [Byte.x00; Byte.x00; Byte.x00; Byte.x01].
Proof. reflexivity. Qed.

Lemma concatKDF_buffers_32 (keyMaterial : bytes) :
  concatKDF_buffers keyMaterial 32
  = [sha256 ([Byte.x00; Byte.x00; Byte.x00; Byte.x01] ++ keyMaterial)].
Proof.
  unfold concatKDF_buffers.
  change (Z.to_nat 32 + 2)%nat with 34%nat.
  cbn [concatKDF_loop].
  replace (Qle_bool (inject_Z 0) (reps 32)) with true by reflexivity.
  replace (Qle_bool (inject_Z (0 + 1)) (reps 32)) with false by reflexivity.
  reflexivity.
Qed.

Hypothesis sha256_length : forall m, length (sha256 m) = 32%nat.

Lemma concatKDF_32_sha256 (keyMaterial : bytes) :
  concatKDF keyMaterial 32 = sha256 ([Byte.x00; Byte.x00; Byte.x00; Byte.x01] ++ keyMaterial).
Proof.
  unfold concatKDF. rewrite concatKDF_buffers_32. simpl concat.
  rewrite app_nil_r. apply slice_all. rewrite sha256_length. lia.
Qed.

Lemma concatKDF_32_length (keyMaterial : bytes) : length (concatKDF keyMaterial 32) = 32%nat.
Proof. rewrite concatKDF_32_sha256. apply sha256_length. Qed.

(** C6: for every key material (of 32 bytes or of any other length),
    [concatKDF(Z, 32)] is [SHA256(0x00000001 || Z)]: the loop runs exactly
    one round, with the counter 1 written big-endian before the key
    material, and the truncation to 32 bytes keeps the whole digest. *)
Theorem concatKDF_one_round (keyMaterial : bytes) :
  length keyMaterial = 32%nat ->
  concatKDF_buffers keyMaterial 32 = [sha256 (Buffer.writeUInt32BE 1 ++ keyMaterial)]
  /\ length (concatKDF_buffers keyMaterial 32) = 1%nat
  /\ Buffer.writeUInt32BE 1 = [Byte.x00; Byte.x00; Byte.x00; Byte.x01]
  /\ concatKDF keyMaterial 32 = sha256 ([Byte.x00; Byte.x00; Byte.x00; Byte.x01] ++ keyMaterial).
Proof.
  intros _. rewrite concatKDF_buffers_32, writeUInt32BE_1.
  repeat split. apply concatKDF_32_sha256.
Qed.

End KDFFacts.

(** ** The frame codec *)

Section FrameFacts.
Context `{Primitives}.
Import ECIES.

(** Unfolding one method call down to its state transformer. *)
Ltac run_method :=
  unfold parseHeader, parseBody, createHeader, createBody,
    ingressAes_update, egressAes_update, on_ingressMac, on_egressMac,
    field, util.assertEq, bindM, gets, modify, need, ret, throw;
  cbn.

Lemma parseHeader_bad_mac (e : ECIES.t) (m : MAC.t) (data : bytes) :
  _ingressMac e = Some m ->
  MAC.digest (MAC.updateHeader m (Buffer.slice data 0 16)) <> Buffer.slice data 16 32 ->
  parseHeader data e
  = (set_ingressMac (Some (MAC.updateHeader m (Buffer.slice data 0 16))) e,
     Throw (Thrown "Invalid MAC")).
Proof.
  intros Hm Hne. run_method. rewrite Hm. cbn.
  destruct (decide _) as [Heq|_]; [contradiction|reflexivity].
Qed.

Lemma parseBody_bad_mac (e : ECIES.t) (m : MAC.t) (size : Z) (data : bytes) :
  _ingressMac e = Some m ->
  _bodySize e = Some size ->
  MAC.digest (MAC.updateBody m (Buffer.slice data 0 (-16))) <> Buffer.slice_from data (-16) ->
  parseBody data e
  = (set_ingressMac (Some (MAC.updateBody m (Buffer.slice data 0 (-16)))) e,
     Throw (Thrown "Invalid MAC")).
Proof.
  intros Hm Hsize Hne. run_method. rewrite Hsize. cbn. rewrite Hm. cbn.
  destruct (decide _) as [Heq|_]; [contradiction|reflexivity].
Qed.

Lemma parseBody_no_header (e : ECIES.t) (data : bytes) :
  _bodySize e = None ->
  parseBody data e = (e, Throw (Thrown "need to parse header first")).
Proof. intros Hsize. run_method. rewrite Hsize. reflexivity. Qed.

(** What a call of [parseBody] can do, by the state it starts in and the
    tag it finds. *)
Lemma parseBody_cases (e : ECIES.t) (data : bytes) :
  let body := Buffer.slice data 0 (-16) in
  let mac := Buffer.slice_from data (-16) in
  match _bodySize e with
  | None => parseBody data e = (e, Throw (Thrown "need to parse header first"))
  | Some size =>
      match _ingressMac e with
      | None => parseBody data e = (e, Throw TypeError)
      | Some m =>
          let m' := MAC.updateBody m body in
          if decide (MAC.digest m' = mac) then
            match _ingressAes e with
            | None =>
                parseBody data e
                = (set_bodySize None (set_ingressMac (Some m') e), Throw TypeError)
            | Some c =>
                parseBody data e
                = (set_ingressAes (Some (fst (cipher_update c body)))
                     (set_bodySize None (set_ingressMac (Some m') e)),
                   Return (Buffer.slice (snd (cipher_update c body)) 0 size))
            end
          else
            parseBody data e
            = (set_ingressMac (Some m') e, Throw (Thrown "Invalid MAC"))
      end
  end.
Proof.
  intros body mac. run_method.
  destruct (_bodySize e) as [size|]; [|reflexivity]. cbn.
  destruct (_ingressMac e) as [m|]; [|reflexivity]. cbn.
  fold body mac.
  destruct (decide _) as [Heq|Hne]; cbn; [|reflexivity].
  destruct (_ingressAes e) as [c|]; reflexivity.
Qed.

(** C10: when the MAC comparison of [parseHeader] or of [parseBody] fails,
    the call throws with only the ingress MAC changed: it has absorbed the
    offending ciphertext, while the ingress AES stream and the pending body
    size are what they were before the call. *)
Theorem mac_failure_keeps_aes_and_bodySize (e : ECIES.t) (m : MAC.t) (data : bytes) :
  _ingressMac e = Some m ->
  (MAC.digest (MAC.updateHeader m (Buffer.slice data 0 16)) <> Buffer.slice data 16 32 ->
   let e' := fst (parseHeader data e) in
   snd (parseHeader data e) = Throw (Thrown "Invalid MAC")
   /\ _ingressAes e' = _ingressAes e
   /\ _bodySize e' = _bodySize e
   /\ _ingressMac e' = Some (MAC.updateHeader m (Buffer.slice data 0 16))
   /\ e' = set_ingressMac (_ingressMac e') e)
  /\
  (_bodySize e <> None ->
   MAC.digest (MAC.updateBody m (Buffer.slice data 0 (-16))) <> Buffer.slice_from data (-16) ->
   let e' := fst (parseBody data e) in
   snd (parseBody data e) = Throw (Thrown "Invalid MAC")
   /\ _ingressAes e' = _ingressAes e
   /\ _bodySize e' = _bodySize e
   /\ _ingressMac e' = Some (MAC.updateBody m (Buffer.slice data 0 (-16)))
   /\ e' = set_ingressMac (_ingressMac e') e).
Proof.
  intros Hm. split.
  - intros Hne. rewrite (parseHeader_bad_mac e m data Hm Hne). cbn.
    repeat split.
  - intros Hsize Hne. destruct (_bodySize e) as [size|] eqn:Hs; [|congruence].
    rewrite (parseBody_bad_mac e m size data Hm Hs Hne). cbn.
    rewrite Hs. repeat split.
Qed.

(** A successful [parseBody] clears the pending body size. *)
Lemma parseBody_clears (e e' : ECIES.t) (data out : bytes) :
  parseBody data e = (e', Return out) -> _bodySize e' = None.
Proof.
  intros Hp. pose proof (parseBody_cases e data) as Hc. cbn zeta in Hc.
  destruct (_bodySize e); [|congruence].
  destruct (_ingressMac e); [|congruence].
  destruct (decide _); [|congruence].
  destruct (_ingressAes e); [|congruence].
  rewrite Hc in Hp. inversion Hp. reflexivity.
Qed.

(** C9, as amended: [parseBody] with no pending body size throws and
    leaves the state alone; a successful [parseBody] clears the pending
    body size; and after any [parseBody] that did not fail on its MAC
    comparison, the next [parseBody] throws, whatever it is given. *)
Theorem parseBody_twice (e : ECIES.t) (d1 d2 : bytes) :
  (_bodySize e = None ->
   parseBody d1 e = (e, Throw (Thrown "need to parse header first")))
  /\ (forall out, snd (parseBody d1 e) = Return out ->
      _bodySize (fst (parseBody d1 e)) = None)
  /\ (snd (parseBody d1 e) <> Throw (Thrown "Invalid MAC") ->
      exists err, snd (parseBody d2 (fst (parseBody d1 e))) = Throw err).
Proof.
  split; [apply parseBody_no_header|]. split.
  - intros out Hout. destruct (parseBody d1 e) as [e1 r1] eqn:Hp.
    cbn [fst snd] in *. subst r1. eapply parseBody_clears; eauto.
  - intros Hmac.
    pose proof (parseBody_cases e d1) as Hc. cbn zeta in Hc.
    destruct (_bodySize e) as [size|] eqn:Hs.
    + destruct (_ingressMac e) as [m|] eqn:Hm.
      * destruct (decide _) as [Heq|Hne].
        -- destruct (_ingressAes e) as [c|] eqn:Ha; rewrite Hc; cbn [fst snd];
             rewrite parseBody_no_header by reflexivity; eauto.
        -- rewrite Hc in Hmac. cbn [fst snd] in Hmac. congruence.
      * rewrite Hc. cbn [fst snd].
        pose proof (parseBody_cases e d2) as Hc2. cbn zeta in Hc2.
        rewrite Hs, Hm in Hc2. rewrite Hc2. eauto.
    + rewrite Hc. cbn [fst snd]. rewrite parseBody_no_header by assumption. eauto.
Qed.

End FrameFacts.

(** ** Frames between mirrored states *)

Section FrameRoundTrip.
Context `{Primitives}.
Import ECIES.

Lemma be_bytes_length (n : nat) (v : Z) : length (Buffer.be_bytes n v) = n.
Proof. induction n; simpl; auto. Qed.

Lemma fold_be_acc (b : bytes) (acc : Z) :
  fold_left (fun a x => a * 256 + byte.unsigned x) b acc
  = acc * 256 ^ Z.of_nat (length b)
    + fold_left (fun a x => a * 256 + byte.unsigned x) b 0.
Proof.
  revert acc. induction b as [|x b IH]; intros acc.
  - simpl. lia.
  - cbn [fold_left length]. rewrite IH. rewrite (IH (0 * 256 + byte.unsigned x)).
    rewrite Nat2Z.inj_succ, Z.pow_succ_r by lia. lia.
Qed.

Lemma bufferToInt_app (a b : bytes) :
  bufferToInt (a ++ b)
  = bufferToInt a * 256 ^ Z.of_nat (length b) + bufferToInt b.
Proof. unfold bufferToInt. rewrite fold_left_app. apply fold_be_acc. Qed.

Lemma bufferToInt_zeros (n : nat) : bufferToInt (Buffer.zeros n) = 0.
Proof.
  induction n as [|n IH]; [reflexivity|].
  change (Buffer.zeros (S n)) with ([Byte.x00] ++ Buffer.zeros n).
  rewrite bufferToInt_app, IH. reflexivity.
Qed.

Lemma bufferToInt_be_bytes (n : nat) (v : Z) :
  0 <= v -> bufferToInt (Buffer.be_bytes n v) = v mod 256 ^ Z.of_nat n.
Proof.
  intros Hv. induction n as [|n IH].
  - simpl. rewrite Z.mod_1_r. reflexivity.
  - cbn [Buffer.be_bytes].
    change (?x :: ?l) with ([x] ++ l).
    rewrite bufferToInt_app, IH, be_bytes_length.
    unfold bufferToInt at 1. cbn [fold_left].
    rewrite byte.unsigned_of_Z. unfold byte.wrap.
    rewrite Nat2Z.inj_succ, Z.pow_succ_r by lia.
    assert (0 < 256 ^ Z.of_nat n) by (apply Z.pow_pos_nonneg; lia).
    change (2 ^ 8) with 256.
    rewrite (Z.mul_comm 256), Z.rem_mul_r by lia. lia.
Qed.

Lemma intToBuffer_length (n : Z) :
  0 <= n < 2 ^ 24 -> (1 <= length (intToBuffer n) <= 3)%nat.
Proof.
  intros Hn. unfold intToBuffer. rewrite be_bytes_length.
  assert (0 <= Z.log2 n) by apply Z.log2_nonneg.
  assert (Z.log2 n < 24).
  { destruct (Z.eq_dec n 0) as [->|]; [simpl; lia|].
    apply Z.log2_lt_pow2; lia. }
  assert (0 <= Z.log2 n / 8) by (apply Z.div_pos; lia).
  assert (Z.log2 n / 8 < 3) by (apply Z.div_lt_upper_bound; lia).
  lia.
Qed.

Lemma bufferToInt_intToBuffer (n : Z) : 0 <= n -> bufferToInt (intToBuffer n) = n.
Proof.
  intros Hn. unfold intToBuffer. rewrite bufferToInt_be_bytes by lia.
  apply Z.mod_small. split; [lia|].
  assert (0 <= Z.log2 n) by apply Z.log2_nonneg.
  assert (0 <= Z.log2 n / 8) by (apply Z.div_pos; lia).
  rewrite Z2Nat.id by lia.
  change 256 with (2 ^ 8). rewrite <- Z.pow_mul_r by lia.
  destruct (Z.eq_dec n 0) as [->|Hne].
  - apply Z.pow_pos_nonneg; lia.
  - eapply Z.lt_le_trans; [apply (proj2 (Z.log2_spec n ltac:(lia)))|].
    apply Z.pow_le_mono_r; [lia|].
    pose proof (Z.mul_succ_div_gt (Z.log2 n) 8 ltac:(lia)). lia.
Qed.


Lemma keystream_length (c : Cipher) (n : nat) : length (keystream c n) = n.
Proof. unfold keystream. rewrite length_map. apply length_seq. Qed.

Lemma cipher_update_length (c : Cipher) (d : bytes) :
  length (snd (cipher_update c d)) = length d.
Proof.
  cbn. rewrite length_zip_with_l_eq; [reflexivity|].
  symmetry. apply keystream_length.
Qed.

(** Reading with the stream that wrote gives the plaintext back, and
    leaves both streams at the same position. *)
Lemma cipher_update_inverse (c : Cipher) (d : bytes) :
  cipher_update c (snd (cipher_update c d)) = (fst (cipher_update c d), d).
Proof.
  unfold cipher_update at 1. rewrite cipher_update_length. f_equal.
  cbn. apply zip_xor_cancel. rewrite keystream_length. lia.
Qed.


(** [Math.ceil(n / 16) * 16] in integers. *)
Lemma padded_length_spec (n : Z) : padded_length n = (n + 15) / 16 * 16.
Proof.
  unfold padded_length, Qceiling, Qfloor, Qdiv, Qmult, Qinv, Qopp, inject_Z.
  cbn. f_equal. rewrite Z.mul_1_r. change (Z.pos (1 * 16)) with 16.
  pose proof (Z.div_mod (- n) 16 ltac:(lia)).
  pose proof (Z.mod_pos_bound (- n) 16 ltac:(lia)).
  pose proof (Z.div_mod (n + 15) 16 ltac:(lia)).
  pose proof (Z.mod_pos_bound (n + 15) 16 ltac:(lia)).
  lia.
Qed.

Lemma padded_data (data : bytes) :
  exists k : nat,
    util.zfill data (padded_length (Z.of_nat (length data))) false
    = data ++ Buffer.zeros k
    /\ Z.of_nat (length data + k) = (Z.of_nat (length data) + 15) / 16 * 16.
Proof.
  rewrite padded_length_spec. unfold util.zfill.
  set (n := Z.of_nat (length data)).
  pose proof (Z.div_mod (n + 15) 16 ltac:(lia)).
  pose proof (Z.mod_pos_bound (n + 15) 16 ltac:(lia)).
  destruct (Z.leb_spec ((n + 15) / 16 * 16) n).
  - exists 0%nat. cbn. rewrite app_nil_r. split; [reflexivity|]. lia.
  - eexists. split; [reflexivity|]. lia.
Qed.

(** The four frame methods on states that hold their cipher and MAC. *)
Lemma createHeader_run (s : ECIES.t) (c : Cipher) (m : MAC.t) (n : Z) :
  _egressAes s = Some c -> _egressMac s = Some m ->
  let h := util.zfill (util.zfill (intToBuffer n) 3 true ++ rlp_encode_0_0) 16 false in
  let enc := snd (cipher_update c h) in
  let m' := MAC.updateHeader m enc in
  createHeader n s
  = (set_egressMac (Some m') (set_egressAes (Some (fst (cipher_update c h))) s),
     Return (enc ++ MAC.digest m')).
Proof.
  intros Hc Hm h enc m'.
  unfold createHeader, egressAes_update, on_egressMac, field, bindM, gets,
    modify, need, ret.
  rewrite Hc. cbn [fst snd]. cbn [_egressMac set_egressAes]. rewrite Hm.
  reflexivity.
Qed.

Lemma createBody_run (s : ECIES.t) (c : Cipher) (m : MAC.t) (data : bytes) :
  _egressAes s = Some c -> _egressMac s = Some m ->
  let p := util.zfill data (padded_length (Z.of_nat (length data))) false in
  let enc := snd (cipher_update c p) in
  let m' := MAC.updateBody m enc in
  createBody data s
  = (set_egressMac (Some m') (set_egressAes (Some (fst (cipher_update c p))) s),
     Return (enc ++ MAC.digest m')).
Proof.
  intros Hc Hm p enc m'.
  unfold createBody, egressAes_update, on_egressMac, field, bindM, gets,
    modify, need, ret.
  rewrite Hc. cbn [fst snd]. cbn [_egressMac set_egressAes]. rewrite Hm.
  reflexivity.
Qed.

Lemma parseHeader_run (s : ECIES.t) (c : Cipher) (m : MAC.t) (data : bytes) :
  _ingressAes s = Some c -> _ingressMac s = Some m ->
  let header := Buffer.slice data 0 16 in
  let m' := MAC.updateHeader m header in
  MAC.digest m' = Buffer.slice data 16 32 ->
  let size := bufferToInt (Buffer.slice (snd (cipher_update c header)) 0 3) in
  parseHeader data s
  = (set_bodySize (Some size)
       (set_ingressAes (Some (fst (cipher_update c header)))
          (set_ingressMac (Some m') s)),
     Return size).
Proof.
  intros Hc Hm header m' Hmac size.
  unfold parseHeader, ingressAes_update, on_ingressMac, field, util.assertEq, bindM,
    gets, modify, need, ret.
  rewrite Hm. cbn [fst snd]. cbn [_ingressMac set_ingressMac].
  fold header m'. rewrite Hmac.
  destruct (decide _) as [_|Hne]; [|congruence].
  cbn [_ingressAes set_ingressMac]. rewrite Hc. reflexivity.
Qed.

Lemma parseBody_run (s : ECIES.t) (c : Cipher) (m : MAC.t) (n : Z) (data : bytes) :
  _ingressAes s = Some c -> _ingressMac s = Some m -> _bodySize s = Some n ->
  let body := Buffer.slice data 0 (-16) in
  let m' := MAC.updateBody m body in
  MAC.digest m' = Buffer.slice_from data (-16) ->
  parseBody data s
  = (set_ingressAes (Some (fst (cipher_update c body)))
       (set_bodySize None (set_ingressMac (Some m') s)),
     Return (Buffer.slice (snd (cipher_update c body)) 0 n)).
Proof.
  intros Hc Hm Hn body m' Hmac.
  pose proof (parseBody_cases s data) as Hcases. cbn zeta in Hcases.
  rewrite Hn, Hm, Hc in Hcases. fold body m' in Hcases.
  destruct (decide _) as [_|Hne]; [exact Hcases|congruence].
Qed.

Lemma slice_app_r (a b : bytes) (s e : Z) :
  s = Z.of_nat (length a) -> e = Z.of_nat (length a + length b) ->
  Buffer.slice (a ++ b) s e = b.
Proof.
  intros Hs He. rewrite <- (app_nil_r b) at 1. apply slice_app_mid; assumption.
Qed.

Hypothesis keccak_length : forall m, length (keccak m) = 32%nat.
Hypothesis rlp_length : (length rlp_encode_0_0 <= 13)%nat.

(** The 16-byte header: the size on three bytes, big endian, then the
    reserved field, then zeros. *)
Lemma header_plain (n : Z) :
  0 <= n < 2 ^ 24 ->
  let h := util.zfill (util.zfill (intToBuffer n) 3 true ++ rlp_encode_0_0) 16 false in
  length h = 16%nat /\ bufferToInt (Buffer.slice h 0 3) = n.
Proof.
  intros Hn h. pose proof (intToBuffer_length n Hn) as Hl.
  assert (Hsz : exists sz, util.zfill (intToBuffer n) 3 true = sz
                /\ length sz = 3%nat /\ bufferToInt sz = n).
  { eexists. split; [reflexivity|]. unfold util.zfill.
    destruct (Z.leb_spec 3 (Z.of_nat (length (intToBuffer n)))).
    - split; [lia|]. apply bufferToInt_intToBuffer; lia.
    - rewrite length_app, zeros_length. split; [lia|].
      rewrite bufferToInt_app, bufferToInt_zeros, bufferToInt_intToBuffer; lia. }
  destruct Hsz as (sz & Hsz & Hlen & Hval). subst h. rewrite Hsz.
  unfold util.zfill.
  destruct (Z.leb_spec 16 (Z.of_nat (length (sz ++ rlp_encode_0_0)))) as [Hge|Hlt];
    rewrite length_app in *.
  - split; [lia|]. rewrite slice_app_l by lia. exact Hval.
  - split.
    + rewrite !length_app, zeros_length. lia.
    + rewrite <- app_assoc, slice_app_l by lia. exact Hval.
Qed.

Lemma digest_length (m : MAC.t) : length (MAC.digest m) = 16%nat.
Proof.
  unfold MAC.digest. rewrite slice_inside by (rewrite ?keccak_length; lia).
  rewrite length_take, length_drop, keccak_length. lia.
Qed.

(** A frame written on one state is read back on the mirrored one; the
    two states are mirrored again afterwards. *)
Lemma frames_between_mirrored (sender receiver : ECIES.t) (data : bytes) :
  mirrored sender receiver ->
  Z.of_nat (length data) <= 2 ^ 24 - 1 ->
  let n := Z.of_nat (length data) in
  exists sender1 sender2 receiver1 receiver2 header body,
    createHeader n sender = (sender1, Return header)
    /\ parseHeader header receiver = (receiver1, Return n)
    /\ createBody data sender1 = (sender2, Return body)
    /\ parseBody body receiver1 = (receiver2, Return data)
    /\ Z.of_nat (length header) = 32
    /\ Z.of_nat (length body) = (n + 15) / 16 * 16 + 16
    /\ (n mod 16 = 0 -> Z.of_nat (length body) = n + 16)
    /\ _bodySize receiver2 = None
    /\ mirrored sender2 receiver2
    /\ (mirrored receiver sender -> mirrored receiver2 sender2).
Proof.
  intros [(c & Hec & Hic) (m & Hem & Him)] Hlen n.
  assert (Hn : 0 <= n < 2 ^ 24) by (subst n; lia).
  pose proof (header_plain n Hn) as Hh. cbn zeta in Hh.
  set (h := util.zfill (util.zfill (intToBuffer n) 3 true ++ rlp_encode_0_0) 16 false) in *.
  destruct Hh as [Hhlen Hhval].
  set (enc := snd (cipher_update c h)).
  assert (Henc : length enc = 16%nat)
    by (subst enc; rewrite cipher_update_length; exact Hhlen).
  set (c1 := fst (cipher_update c h)).
  set (m1 := MAC.updateHeader m enc).
  set (sender1 := set_egressMac (Some m1) (set_egressAes (Some c1) sender)).
  set (receiver1 := set_bodySize (Some n)
                      (set_ingressAes (Some c1) (set_ingressMac (Some m1) receiver))).
  destruct (padded_data data) as (k & Hpad & Hk).
  set (p := data ++ Buffer.zeros k) in *.
  set (encb := snd (cipher_update c1 p)).
  set (c2 := fst (cipher_update c1 p)).
  set (m2 := MAC.updateBody m1 encb).
  set (sender2 := set_egressMac (Some m2) (set_egressAes (Some c2) sender1)).
  set (receiver2 := set_ingressAes (Some c2)
                      (set_bodySize None (set_ingressMac (Some m2) receiver1))).
  assert (Hencb : length encb = (length data + k)%nat).
  { subst encb. rewrite cipher_update_length. subst p.
    rewrite length_app, zeros_length. reflexivity. }
  exists sender1, sender2, receiver1, receiver2,
    (enc ++ MAC.digest m1), (encb ++ MAC.digest m2).
  assert (Hs0 : Buffer.slice (enc ++ MAC.digest m1) 0 16 = enc)
    by (apply slice_app_l; lia).
  assert (Hs1 : Buffer.slice (enc ++ MAC.digest m1) 16 32 = MAC.digest m1)
    by (apply slice_app_r; rewrite ?digest_length; lia).
  assert (Hb0 : Buffer.slice (encb ++ MAC.digest m2) 0 (-16) = encb).
  { replace (-16) with (- Z.of_nat (length (MAC.digest m2)))
      by (rewrite digest_length; reflexivity).
    apply slice_app_drop_tail. rewrite digest_length. lia. }
  assert (Hb1 : Buffer.slice_from (encb ++ MAC.digest m2) (-16) = MAC.digest m2).
  { replace (-16) with (- Z.of_nat (length (MAC.digest m2)))
      by (rewrite digest_length; reflexivity).
    apply slice_from_tail. rewrite digest_length. lia. }
  repeat apply conj.
  - apply createHeader_run; assumption.
  - rewrite (parseHeader_run receiver c m (enc ++ MAC.digest m1) Hic Him);
      rewrite Hs0; [|exact (eq_sym Hs1)].
    subst enc. rewrite cipher_update_inverse. cbn [fst snd]. rewrite Hhval.
    reflexivity.
  - rewrite (createBody_run sender1 c1 m1 data eq_refl eq_refl).
    rewrite Hpad. reflexivity.
  - rewrite (parseBody_run receiver1 c1 m1 n (encb ++ MAC.digest m2)
               eq_refl eq_refl eq_refl);
      rewrite Hb0; [|exact (eq_sym Hb1)].
    subst encb. rewrite cipher_update_inverse. cbn [fst snd].
    subst receiver2 c2. f_equal. f_equal.
    subst p. apply slice_app_l. reflexivity.
  - rewrite length_app, digest_length. lia.
  - rewrite length_app, digest_length, Hencb. fold n in Hk. lia.
  - intros Hmod. rewrite length_app, digest_length, Hencb. fold n in Hk.
    pose proof (Z.div_mod (n + 15) 16 ltac:(lia)) as Hdm.
    pose proof (Z.mod_pos_bound (n + 15) 16 ltac:(lia)) as Hb.
    pose proof (Z.div_mod n 16 ltac:(lia)) as Hdn.
    lia.
  - reflexivity.
  - exists c2. split; reflexivity.
  - exists m2. split; reflexivity.
  - intros [(c' & Hec' & Hic') (m' & Hem' & Him')].
    split; [exists c'|exists m']; split; assumption.
Qed.

(** Between two states mirrored in both directions, frames of at most
    2^24 - 1 bytes arrive as written, in any number and order. *)
Lemma session_between_mirrored (frames : list (bool * bytes)) (a b : ECIES.t) :
  mirrored a b -> mirrored b a ->
  Forall (fun f => Z.of_nat (length (snd f)) <= 2 ^ 24 - 1) frames ->
  session frames a b.
Proof.
  revert a b. induction frames as [|[dir data] rest IH]; intros a b Hab Hba Hall.
  - exact I.
  - inversion Hall as [|f l Hlen Hrest]; subst. cbn [snd] in Hlen.
    destruct dir; cbn [session].
    + destruct (frames_between_mirrored a b data Hab Hlen)
        as (s1 & s2 & r1 & r2 & header & body & H1 & H2 & H3 & H4 & _ & _ & _ & _ & Hm & Hm').
      exists s2, r2. split.
      * exists s1, r1, header, body. auto.
      * apply IH; auto.
    + destruct (frames_between_mirrored b a data Hba Hlen)
        as (s1 & s2 & r1 & r2 & header & body & H1 & H2 & H3 & H4 & _ & _ & _ & _ & Hm & Hm').
      exists r2, s2. split.
      * exists s1, r1, header, body. auto.
      * apply IH; auto.
Qed.

(** After a [parseBody] that failed on its MAC comparison the pending body
    size is still set and the MAC has absorbed the rejected body: a body
    that carries the tag of that MAC state is read without a new header. *)
Lemma parseBody_after_invalid_mac (e : ECIES.t) (c : Cipher) (m : MAC.t) (n : Z)
    (d1 body : bytes) :
  _ingressAes e = Some c -> _ingressMac e = Some m -> _bodySize e = Some n ->
  MAC.digest (MAC.updateBody m (Buffer.slice d1 0 (-16))) <> Buffer.slice_from d1 (-16) ->
  let m1 := MAC.updateBody m (Buffer.slice d1 0 (-16)) in
  let d2 := body ++ MAC.digest (MAC.updateBody m1 body) in
  snd (parseBody d1 e) = Throw (Thrown "Invalid MAC")
  /\ snd (parseBody d2 (fst (parseBody d1 e)))
     = Return (Buffer.slice (snd (cipher_update c body)) 0 n).
Proof.
  intros Hc Hm Hn Hne m1 d2.
  rewrite (parseBody_bad_mac e m n d1 Hm Hn Hne). cbn [fst snd].
  split; [reflexivity|]. fold m1.
  assert (Hb0 : Buffer.slice d2 0 (-16) = body).
  { subst d2.
    replace (-16) with (- Z.of_nat (length (MAC.digest (MAC.updateBody m1 body))))
      by (rewrite digest_length; reflexivity).
    apply slice_app_drop_tail. rewrite digest_length. lia. }
  assert (Hb1 : Buffer.slice_from d2 (-16) = MAC.digest (MAC.updateBody m1 body)).
  { subst d2.
    replace (-16) with (- Z.of_nat (length (MAC.digest (MAC.updateBody m1 body))))
      by (rewrite digest_length; reflexivity).
    apply slice_from_tail. rewrite digest_length. lia. }
  rewrite (parseBody_run (set_ingressMac (Some m1) e) c m1 n d2 Hc eq_refl Hn);
    rewrite Hb0; [reflexivity|exact (eq_sym Hb1)].
Qed.

(** C2: between mirrored frame states, for every [data] of at most
    2^24 - 1 bytes (the empty buffer and the lengths that are multiples of
    16 included), [parseHeader] of what [createHeader(data.length)] wrote
    returns [data.length], and [parseBody] of what [createBody(data)] wrote
    returns exactly [data]: the body on the wire is the data padded with
    zeros to the next multiple of 16 (no padding at a multiple of 16) and
    its 16-byte tag, and the padding is cut off at the size that the
    header carried.  The two states are mirrored again afterwards. *)
Theorem frame_roundtrip (sender receiver : ECIES.t) (data : bytes) :
  mirrored sender receiver ->
  Z.of_nat (length data) <= 2 ^ 24 - 1 ->
  let n := Z.of_nat (length data) in
  exists sender1 sender2 receiver1 receiver2 header body,
    createHeader n sender = (sender1, Return header)
    /\ parseHeader header receiver = (receiver1, Return n)
    /\ createBody data sender1 = (sender2, Return body)
    /\ parseBody body receiver1 = (receiver2, Return data)
    /\ Z.of_nat (length header) = 32
    /\ Z.of_nat (length body) = (n + 15) / 16 * 16 + 16
    /\ (n mod 16 = 0 -> Z.of_nat (length body) = n + 16)
    /\ _bodySize receiver2 = None
    /\ mirrored sender2 receiver2.
Proof.
  intros Hm Hlen n.
  destruct (frames_between_mirrored sender receiver data Hm Hlen)
    as (s1 & s2 & r1 & r2 & header & body & H1 & H2 & H3 & H4 & H5 & H6 & H7 & H8 & H9 & _).
  exists s1, s2, r1, r2, header, body.
  split; [exact H1|]. split; [exact H2|]. split; [exact H3|].
  split; [exact H4|]. split; [exact H5|]. split; [exact H6|].
  split; [exact H7|]. split; [exact H8|exact H9].
Qed.

End FrameRoundTrip.

(** ** The ECIES message codec *)

Section MessageCodec.
Context `{Primitives}.
Import ECIES.

Hypothesis sha256_length : forall m, length (sha256 m) = 32%nat.
Hypothesis hmac_length : forall k m, length (hmac_sha256 k m) = 32%nat.
Hypothesis publicKey_length :
  forall k pk, key_pair k pk -> length pk = 65%nat.
Hypothesis ecdh_agree :
  forall a pa b pb, key_pair a pa -> key_pair b pb ->
    exists z, ecdhUnsafe pb a = Some z /\ ecdhUnsafe pa b = Some z.

Lemma ecdhX_agree (a pa b pb : bytes) :
  key_pair a pa -> key_pair b pb ->
  exists x, ecdhX pb a = Some x /\ ecdhX pa b = Some x.
Proof.
  intros Ha Hb. destruct (ecdh_agree a pa b pb Ha Hb) as (z & Hz1 & Hz2).
  exists (Buffer.slice_from z 1). unfold ecdhX. rewrite Hz1, Hz2. auto.
Qed.

Lemma ekey_cipher (x IV : bytes) :
  length IV = 16%nat ->
  createCipheriv 128 (Buffer.slice (concatKDF x 32) 0 16) IV
  = Some {| cipher_key := Buffer.slice (concatKDF x 32) 0 16;
            cipher_iv := IV; cipher_pos := 0 |}.
Proof.
  intros HIV. unfold createCipheriv.
  rewrite slice_inside by (rewrite ?concatKDF_32_length; auto; lia).
  rewrite length_take, length_drop, concatKDF_32_length, HIV by auto.
  reflexivity.
Qed.

(** [_encryptMessage] to the holder of [priv], with the ephemeral key
    [r] and the IV drawn at random, and [_decryptMessage] by that holder. *)
Lemma encrypt_decrypt (sender : ECIES.t) (priv pub r R IV data : bytes) :
  key_pair priv pub -> key_pair r R -> length IV = 16%nat ->
  _remotePublicKey sender = Some pub ->
  exists C tag,
    _encryptMessage r IV data sender = (sender, Return (R ++ (IV ++ C) ++ tag))
    /\ length C = length data
    /\ length tag = 32%nat
    /\ forall receiver, _privateKey receiver = priv ->
         _decryptMessage (R ++ (IV ++ C) ++ tag) receiver = (receiver, Return data).
Proof.
  intros Hk Hr HIV Hrem.
  destruct (ecdhX_agree r R priv pub Hr Hk) as (x & Hx1 & Hx2).
  pose proof (publicKey_length r R Hr) as HR.
  set (key := concatKDF x 32).
  set (ekey := Buffer.slice key 0 16).
  set (mkey := sha256 (Buffer.slice key 16 32)).
  set (cipher := {| cipher_key := ekey; cipher_iv := IV; cipher_pos := 0 |}).
  set (C := snd (cipher_update cipher data)).
  set (tag := hmac_sha256 mkey (IV ++ C)).
  assert (HC : length C = length data) by apply cipher_update_length.
  assert (Htag : length tag = 32%nat) by apply hmac_length.
  exists C, tag. split; [|split; [exact HC|split; [exact Htag|]]].
  - unfold _encryptMessage, field, bindM, gets, need, ret.
    rewrite Hrem. cbn [fst snd]. rewrite Hx1. fold key ekey mkey.
    unfold ekey, key. rewrite (ekey_cipher x IV HIV). fold key ekey cipher C mkey tag.
    destruct Hr as [_ Hr]. rewrite Hr. reflexivity.
  - intros receiver Hpriv.
    unfold _decryptMessage, util.assertEq, bindM, gets, need, ret.
    assert (S0 : Buffer.slice (R ++ (IV ++ C) ++ tag) 0 65 = R)
      by (apply slice_app_l; lia).
    assert (S1 : Buffer.slice (R ++ (IV ++ C) ++ tag) 65 (-32) = IV ++ C).
    { replace (-32) with (- Z.of_nat (length tag)) by lia.
      apply slice_app_mid_neg; lia. }
    assert (S2 : Buffer.slice_from (R ++ (IV ++ C) ++ tag) (-32) = tag).
    { replace (-32) with (- Z.of_nat (length tag)) by lia.
      rewrite app_assoc. apply slice_from_tail. lia. }
    rewrite S0, S1, S2, Hpriv. cbn [fst snd]. rewrite Hx2.
    fold key ekey mkey tag.
    destruct (decide (tag = tag)) as [_|Hne]; [|congruence].
    rewrite slice_app_l by lia. rewrite slice_from_app by lia.
    unfold createDecipheriv, ekey, key. rewrite (ekey_cipher x IV HIV).
    fold key ekey cipher. unfold C. rewrite cipher_update_inverse. reflexivity.
Qed.

(** C5: for every plaintext and every key pair [(priv, pub)], the envelope
    that [_encryptMessage] addresses to [pub] is
    [R(65) || IV(16) || C || tag(32)], with [C] as long as the plaintext,
    and [_decryptMessage] with [priv] returns exactly the plaintext from
    the unmodified envelope. *)
Theorem decryptMessage_inverts_encryptMessage (sender receiver : ECIES.t)
    (priv pub r R IV data : bytes) :
  key_pair priv pub -> key_pair r R -> length IV = 16%nat ->
  _remotePublicKey sender = Some pub ->
  _privateKey receiver = priv ->
  exists C tag envelope,
    _encryptMessage r IV data sender = (sender, Return envelope)
    /\ envelope = R ++ IV ++ C ++ tag
    /\ length R = 65%nat /\ length IV = 16%nat
    /\ length C = length data /\ length tag = 32%nat
    /\ _decryptMessage envelope receiver = (receiver, Return data).
Proof.
  intros Hk Hr HIV Hrem Hpriv.
  destruct (encrypt_decrypt sender priv pub r R IV data Hk Hr HIV Hrem)
    as (C & tag & He & HC & Htag & Hd).
  exists C, tag, (R ++ (IV ++ C) ++ tag).
  repeat split; auto.
  - rewrite <- app_assoc. reflexivity.
  - eapply publicKey_length; eauto.
Qed.

End MessageCodec.

(** ** The handshake *)

Section HandshakePayloads.

Lemma pk2id_id2pk (id : bytes) : util.pk2id (util.id2pk id) = id.
Proof.
  unfold util.pk2id, util.id2pk.
  change (Byte.x04 :: id) with ([Byte.x04] ++ id).
  apply slice_from_app. reflexivity.
Qed.

(** The fields of the auth plaintext, at the offsets where [parseAuth]
    reads them. *)
Lemma auth_fields (sg heid id nonce : bytes) (rc : byte) :
  length sg = 64%nat -> length heid = 32%nat -> length id = 64%nat ->
  length nonce = 32%nat ->
  let d := concat [sg; [rc]; heid; id; nonce; [Byte.x00]] in
  Z.of_nat (length d) = 194
  /\ Buffer.slice d 0 64 = sg
  /\ d !! 64%nat = Some rc
  /\ Buffer.slice d 65 97 = heid
  /\ Buffer.slice d 97 161 = id
  /\ Buffer.slice d 161 193 = nonce
  /\ d !! 193%nat = Some Byte.x00.
Proof.
  intros Hsg Hheid Hid Hnonce d. subst d. cbn [concat]. rewrite app_nil_r.
  repeat apply conj.
  - rewrite !length_app. cbn [length]. lia.
  - apply slice_app_l. lia.
  - apply list_lookup_middle. auto.
  - rewrite (app_assoc sg). apply slice_app_mid; rewrite length_app; cbn [length]; lia.
  - rewrite (app_assoc sg), (app_assoc (sg ++ [rc])).
    apply slice_app_mid; rewrite !length_app; cbn [length]; lia.
  - rewrite (app_assoc sg), (app_assoc (sg ++ [rc])), (app_assoc ((sg ++ [rc]) ++ heid)).
    apply slice_app_mid; rewrite !length_app; cbn [length]; lia.
  - rewrite (app_assoc sg), (app_assoc (sg ++ [rc])), (app_assoc ((sg ++ [rc]) ++ heid)),
      (app_assoc (((sg ++ [rc]) ++ heid) ++ id)).
    apply list_lookup_middle. rewrite !length_app. cbn [length]. lia.
Qed.

(** The fields of the ack plaintext, at the offsets where [parseAck] reads
    them. *)
Lemma ack_fields (id nonce : bytes) :
  length id = 64%nat -> length nonce = 32%nat ->
  let d := concat [id; nonce; [Byte.x00]] in
  Z.of_nat (length d) = 97
  /\ Buffer.slice d 0 64 = id
  /\ Buffer.slice d 64 96 = nonce
  /\ d !! 96%nat = Some Byte.x00.
Proof.
  intros Hid Hnonce d. subst d. cbn [concat]. rewrite app_nil_r.
  repeat apply conj.
  - rewrite !length_app. cbn [length]. lia.
  - apply slice_app_l. lia.
  - apply slice_app_mid; lia.
  - rewrite app_assoc. apply list_lookup_middle. rewrite length_app. lia.
Qed.

End HandshakePayloads.

Section Handshake.
Context `{Primitives}.
Import ECIES.

(** Reduce the state passing of a method, leaving the calls alone. *)
Ltac step :=
  cbn -[_encryptMessage _decryptMessage _setupFrame ecdhX util.xor
        util.keccak256 util.pk2id util.id2pk concat app Buffer.slice
        Buffer.slice_from length decide byte.of_Z byte.unsigned Z.of_nat
        concatKDF].

Lemma setupFrame_run (s : ECIES.t) (remoteNonce ess initMsg remoteData : bytes)
    (incoming : bool) :
  (forall m, length (keccak m) = 32%nat) ->
  _remoteNonce s = Some remoteNonce ->
  _ephemeralSharedSecret s = Some ess ->
  _initMsg s = Some initMsg ->
  let nonceMaterial :=
    if incoming then _nonce s ++ remoteNonce else remoteNonce ++ _nonce s in
  let hNonce := util.keccak256 [nonceMaterial] in
  let sharedSecret := util.keccak256 [ess; hNonce] in
  let aesSecret := util.keccak256 [ess; sharedSecret] in
  let macSecret := util.keccak256 [ess; aesSecret] in
  let aes := {| cipher_key := aesSecret; cipher_iv := Buffer.zeros 16;
                cipher_pos := 0 |} in
  _setupFrame (Some remoteData) incoming s
  = (set_egressMac
       (Some (MAC.update (MAC.new macSecret)
                (util.xor macSecret remoteNonce ++ initMsg)))
       (set_ingressMac
          (Some (MAC.update (MAC.new macSecret)
                   (util.xor macSecret (_nonce s) ++ remoteData)))
          (set_egressAes (Some aes) (set_ingressAes (Some aes) s))),
     Return tt).
Proof.
  intros Hk Hrn Hess Hinit nonceMaterial hNonce sharedSecret aesSecret macSecret aes.
  unfold _setupFrame, on_ingressMac, on_egressMac, field, bindM, gets, modify,
    need, ret.
  rewrite Hrn. cbn [fst snd]. rewrite Hess. cbn [fst snd].
  fold nonceMaterial hNonce sharedSecret aesSecret macSecret.
  assert (Hc : createDecipheriv 256 aesSecret (Buffer.zeros 16) = Some aes).
  { unfold createDecipheriv, createCipheriv, aesSecret, util.keccak256.
    rewrite Hk, zeros_length. reflexivity. }
  rewrite Hc. cbn. rewrite Hinit. reflexivity.
Qed.

(** [_setupFrame] installs what [frame_secrets] names: both ciphers on
    [aesSecret] with a zero IV, both MACs on [macSecret], seeded with the
    nonces and the two handshake messages. *)
Lemma setupFrame_secrets (s s' : ECIES.t) (remoteData : bytes) (incoming : bool)
    (sharedSecret aesSecret macSecret : bytes) :
  (forall m, length (keccak m) = 32%nat) ->
  frame_secrets s incoming = Some (sharedSecret, aesSecret, macSecret) ->
  is_Some (_initMsg s) ->
  _setupFrame (Some remoteData) incoming s = (s', Return tt) ->
  frame_secrets s' incoming = Some (sharedSecret, aesSecret, macSecret)
  /\ (cipher_key <$> _ingressAes s') = Some aesSecret
  /\ (cipher_key <$> _egressAes s') = Some aesSecret
  /\ (MAC._secret <$> _ingressMac s') = Some macSecret
  /\ (MAC._secret <$> _egressMac s') = Some macSecret.
Proof.
  intros Hk Hsec [initMsg Hinit] Hrun. unfold frame_secrets in Hsec.
  destruct (_remoteNonce s) as [remoteNonce|] eqn:Hrn; [|discriminate].
  destruct (_ephemeralSharedSecret s) as [ess|] eqn:Hess; [|discriminate].
  rewrite (setupFrame_run s remoteNonce ess initMsg remoteData incoming
             Hk Hrn Hess Hinit) in Hrun.
  cbn zeta in Hsec. inversion Hsec; subst. clear Hsec.
  inversion Hrun; subst. clear Hrun.
  unfold frame_secrets. cbn. rewrite Hrn, Hess. repeat split.
Qed.

Hypothesis sha256_length : forall m, length (sha256 m) = 32%nat.
Hypothesis hmac_length : forall k m, length (hmac_sha256 k m) = 32%nat.
Hypothesis keccak_length : forall m, length (keccak m) = 32%nat.
Hypothesis rlp_length : (length rlp_encode_0_0 <= 13)%nat.
Hypothesis publicKey_format :
  forall k pk, key_pair k pk ->
    exists id, pk = Byte.x04 :: id /\ length id = 64%nat.
Hypothesis ecdh_agree :
  forall a pa b pb, key_pair a pa -> key_pair b pb ->
    exists z, ecdhUnsafe pb a = Some z /\ ecdhUnsafe pa b = Some z
              /\ length z = 33%nat.
Hypothesis sign_recover :
  forall msg k pk, length msg = 32%nat -> key_pair k pk ->
    exists sig rec, sign msg k = Some (sig, rec) /\ length sig = 64%nat
                    /\ 0 <= rec < 256 /\ recover msg sig rec = Some pk.

Lemma publicKey_65 (k pk : bytes) : key_pair k pk -> length pk = 65%nat.
Proof.
  intros Hk. destruct (publicKey_format k pk Hk) as (id & -> & Hid).
  cbn [length]. lia.
Qed.

Lemma ecdh_agree_weak (a pa b pb : bytes) :
  key_pair a pa -> key_pair b pb ->
  exists z, ecdhUnsafe pb a = Some z /\ ecdhUnsafe pa b = Some z.
Proof.
  intros Ha Hb. destruct (ecdh_agree a pa b pb Ha Hb) as (z & H1 & H2 & _).
  eauto.
Qed.

Lemma ecdhX_agree_32 (a pa b pb : bytes) :
  key_pair a pa -> key_pair b pb ->
  exists x, ecdhX pb a = Some x /\ ecdhX pa b = Some x /\ length x = 32%nat.
Proof.
  intros Ha Hb. destruct (ecdh_agree a pa b pb Ha Hb) as (z & Hz1 & Hz2 & Hz).
  exists (Buffer.slice_from z 1). unfold ecdhX. rewrite Hz1, Hz2.
  repeat split. unfold Buffer.slice_from.
  rewrite slice_inside by lia. rewrite length_take, length_drop. lia.
Qed.

Lemma id2pk_pk2id (k pk : bytes) :
  key_pair k pk -> util.id2pk (util.pk2id pk) = pk /\ length (util.pk2id pk) = 64%nat.
Proof.
  intros Hk. destruct (publicKey_format k pk Hk) as (id & -> & Hid).
  change (Byte.x04 :: id) with (util.id2pk id). rewrite pk2id_id2pk. auto.
Qed.

(** The four handshake calls between an initiator and a responder, and
    what they leave in the two objects. *)
Lemma handshake_run
    (privI pubI privR pubR ephI EphI ephR EphR nI nR rA RA ivA rK RK ivK : bytes) :
  key_pair privI pubI -> key_pair privR pubR ->
  key_pair ephI EphI -> key_pair ephR EphR ->
  length nI = 32%nat -> length nR = 32%nat ->
  key_pair rA RA -> length ivA = 16%nat ->
  key_pair rK RK -> length ivK = 16%nat ->
  exists initiator responder auth ack initiator1 initiator2 responder1 responder2 ess,
    ECIES.new privI (util.pk2id pubI) (Some (util.pk2id pubR)) nI ephI
    = Return initiator
    /\ ECIES.new privR (util.pk2id pubR) None nR ephR = Return responder
    /\ createAuth rA ivA initiator = (initiator1, Return auth)
    /\ parseAuth auth responder = (responder1, Return tt)
    /\ createAck rK ivK responder1 = (responder2, Return ack)
    /\ parseAck ack initiator1 = (initiator2, Return tt)
    /\ ecdhX EphR ephI = Some ess /\ ecdhX EphI ephR = Some ess
    /\ _ephemeralSharedSecret initiator2 = Some ess
    /\ _ephemeralSharedSecret responder2 = Some ess
    /\ (_nonce initiator2 = nI /\ _remoteNonce initiator2 = Some nR)
    /\ (_nonce responder2 = nR /\ _remoteNonce responder2 = Some nI)
    /\ let hNonce := util.keccak256 [nR ++ nI] in
       let sharedSecret := util.keccak256 [ess; hNonce] in
       let aesSecret := util.keccak256 [ess; sharedSecret] in
       let macSecret := util.keccak256 [ess; aesSecret] in
       let aes := {| cipher_key := aesSecret; cipher_iv := Buffer.zeros 16;
                     cipher_pos := 0 |} in
       let macIR := MAC.update (MAC.new macSecret) (util.xor macSecret nR ++ auth) in
       let macRI := MAC.update (MAC.new macSecret) (util.xor macSecret nI ++ ack) in
       (_egressAes initiator2 = Some aes /\ _ingressAes initiator2 = Some aes
        /\ _egressAes responder2 = Some aes /\ _ingressAes responder2 = Some aes)
       /\ (_egressMac initiator2 = Some macIR /\ _ingressMac responder2 = Some macIR)
       /\ (_egressMac responder2 = Some macRI /\ _ingressMac initiator2 = Some macRI).
Proof.
  intros HkI HkR HeI HeR HnI HnR HrA HivA HrK HivK.
  destruct (id2pk_pk2id privI pubI HkI) as [HidI HlenI].
  destruct (id2pk_pk2id privR pubR HkR) as [HidR HlenR].
  destruct (id2pk_pk2id ephI EphI HeI) as [HidEI HlenEI].
  destruct (id2pk_pk2id ephR EphR HeR) as [HidER HlenER].
  destruct (ecdhX_agree_32 privI pubI privR pubR HkI HkR) as (xs & Hxs1 & Hxs2 & Hxs).
  destruct (ecdhX_agree_32 ephI EphI ephR EphR HeI HeR) as (ess & Hes1 & Hes2 & _).
  assert (Hmsg : length (util.xor xs nI) = 32%nat) by (rewrite xor_length; lia).
  destruct (sign_recover (util.xor xs nI) ephI EphI Hmsg HeI)
    as (sg & rc & Hsign & Hsg & Hrc & Hrec).
  unfold ECIES.new.
  rewrite (proj2 HeI), (proj2 HeR), HidI, HidR.
  set (initiator := {| _privateKey := privI |}).
  set (responder := {| _privateKey := privR |}).
  (* auth *)
  set (dataA := concat [sg; [byte.of_Z rc]; util.keccak256 [util.pk2id EphI];
                        util.pk2id pubI; nI; [Byte.x00]]).
  destruct (encrypt_decrypt sha256_length hmac_length publicKey_65
              ecdh_agree_weak initiator privR pubR rA RA ivA dataA HkR HrA HivA eq_refl)
    as (CA & tagA & HencA & _ & _ & HdecA).
  set (auth := RA ++ (ivA ++ CA) ++ tagA) in *.
  set (initiator1 := set_initMsg (Some auth) initiator).
  assert (HcreateAuth : createAuth rA ivA initiator = (initiator1, Return auth)).
  { unfold createAuth, field, bindM, gets, need, ret, modify.
    step.
    rewrite Hxs1. step. rewrite Hsign. step.
    fold dataA. fold initiator. rewrite HencA. reflexivity. }
  (* the responder reads it *)
  destruct (auth_fields sg (util.keccak256 [util.pk2id EphI]) (util.pk2id pubI) nI
              (byte.of_Z rc) Hsg (keccak_length _) HlenI HnI)
    as (HlA & HA0 & HA64 & HA65 & HA97 & HA161 & HA193).
  fold dataA in HlA, HA0, HA64, HA65, HA97, HA161, HA193.
  set (responder1 :=
         set_ephemeralSharedSecret (Some ess)
           (set_remoteEphemeralPublicKey (Some EphI)
              (set_remoteNonce (Some nI)
                 (set_remotePublicKey (Some pubI)
                    (set_remoteInitMsg (Some auth) responder))))).
  assert (HparseAuth : parseAuth auth responder = (responder1, Return tt)).
  { unfold parseAuth, field, bindM, gets, need, ret, modify, util.assertEq.
    rewrite (HdecA (set_remoteInitMsg (Some auth) responder) eq_refl).
    rewrite HlA, HA0, HA64, HA65, HA97, HA161, HA193, HidI.
    step.
    rewrite byte.unsigned_of_Z. unfold byte.wrap.
    rewrite (Z.mod_small rc) by (change (2 ^ 8) with 256; lia).
    destruct (decide (194 = 194)) as [_|]; [|congruence].
    change (byte.unsigned Byte.x00) with 0.
    destruct (decide (Some 0 = Some 0)) as [_|]; [|congruence].
    step.
    rewrite Hxs2. step. rewrite Hrec. step.
    rewrite Hes2.
    destruct (decide _) as [_|]; [|congruence]. reflexivity. }
  (* ack *)
  set (dataK := concat [util.pk2id EphR; nR; [Byte.x00]]).
  destruct (encrypt_decrypt sha256_length hmac_length publicKey_65
              ecdh_agree_weak responder1 privI pubI rK RK ivK dataK HkI HrK HivK eq_refl)
    as (CK & tagK & HencK & _ & _ & HdecK).
  set (ack := RK ++ (ivK ++ CK) ++ tagK) in *.
  pose proof (setupFrame_run (set_initMsg (Some ack) responder1) nI ess ack auth true
                keccak_length eq_refl eq_refl eq_refl) as HsetupR.
  cbn zeta in HsetupR.
  match type of HsetupR with _ = (?s, _) => set (responder2 := s) in * end.
  assert (HcreateAck : createAck rK ivK responder1 = (responder2, Return ack)).
  { unfold createAck, field, bindM, gets, need, ret, modify.
    step.
    fold dataK. fold responder. fold responder1. rewrite HencK.
    step.
    fold responder. fold responder1. rewrite HsetupR. reflexivity. }
  (* the initiator reads it *)
  destruct (ack_fields (util.pk2id EphR) nR HlenER HnR) as (HlK & HK0 & HK64 & HK96).
  fold dataK in HlK, HK0, HK64, HK96.
  pose proof (setupFrame_run
                (set_ephemeralSharedSecret (Some ess)
                   (set_remoteNonce (Some nR)
                      (set_remoteEphemeralPublicKey (Some EphR) initiator1)))
                nR ess auth ack false keccak_length eq_refl eq_refl eq_refl) as HsetupI.
  cbn zeta in HsetupI.
  match type of HsetupI with _ = (?s, _) => set (initiator2 := s) in * end.
  assert (HparseAck : parseAck ack initiator1 = (initiator2, Return tt)).
  { unfold parseAck, field, bindM, gets, need, ret, modify, util.assertEq.
    rewrite (HdecK initiator1 eq_refl).
    rewrite HlK, HK0, HK64, HK96, HidER.
    step.
    destruct (decide (97 = 97)) as [_|]; [|congruence].
    change (byte.unsigned Byte.x00) with 0.
    destruct (decide (Some 0 = Some 0)) as [_|]; [|congruence].
    step.
    rewrite Hes1. step. fold initiator. fold initiator1.
    rewrite HsetupI. reflexivity. }
  exists initiator, responder, auth, ack, initiator1, initiator2, responder1,
    responder2, ess.
  repeat split; assumption || reflexivity.
Qed.

(** C1, as amended: for all static key pairs, ephemeral key pairs and
    32-byte nonces (and whatever the two ECIES envelopes draw at random),
    the initiator's [createAuth] and [parseAck] and the responder's
    [parseAuth] and [createAck] all return, and leave the two sides with
    the same [ephemeralSharedSecret], the same [sharedSecret], [aesSecret]
    and [macSecret], and mirrored frame states: what each side writes with
    is what the other reads with.  Hence every frame of at most 2^24 - 1
    bytes written by one side, in any number and order, is parsed by the
    other to the identical plaintext.  The bound is needed: the header has
    three bytes for the size. *)
Theorem handshake_agreement
    (privI pubI privR pubR ephI EphI ephR EphR nI nR rA RA ivA rK RK ivK : bytes) :
  key_pair privI pubI -> key_pair privR pubR ->
  key_pair ephI EphI -> key_pair ephR EphR ->
  length nI = 32%nat -> length nR = 32%nat ->
  key_pair rA RA -> length ivA = 16%nat ->
  key_pair rK RK -> length ivK = 16%nat ->
  exists initiator responder auth ack initiator1 initiator2 responder1 responder2,
    ECIES.new privI (util.pk2id pubI) (Some (util.pk2id pubR)) nI ephI
    = Return initiator
    /\ ECIES.new privR (util.pk2id pubR) None nR ephR = Return responder
    /\ createAuth rA ivA initiator = (initiator1, Return auth)
    /\ parseAuth auth responder = (responder1, Return tt)
    /\ createAck rK ivK responder1 = (responder2, Return ack)
    /\ parseAck ack initiator1 = (initiator2, Return tt)
    /\ (exists ess,
          _ephemeralSharedSecret initiator2 = Some ess
          /\ _ephemeralSharedSecret responder2 = Some ess)
    /\ (exists sharedSecret aesSecret macSecret,
          frame_secrets initiator2 false = Some (sharedSecret, aesSecret, macSecret)
          /\ frame_secrets responder2 true = Some (sharedSecret, aesSecret, macSecret)
          /\ (cipher_key <$> _egressAes initiator2) = Some aesSecret
          /\ (cipher_key <$> _egressAes responder2) = Some aesSecret
          /\ (MAC._secret <$> _egressMac initiator2) = Some macSecret
          /\ (MAC._secret <$> _egressMac responder2) = Some macSecret)
    /\ (is_Some (_egressAes initiator2)
        /\ _egressAes initiator2 = _ingressAes responder2
        /\ is_Some (_egressMac initiator2)
        /\ _egressMac initiator2 = _ingressMac responder2)
    /\ (is_Some (_egressAes responder2)
        /\ _egressAes responder2 = _ingressAes initiator2
        /\ is_Some (_egressMac responder2)
        /\ _egressMac responder2 = _ingressMac initiator2)
    /\ mirrored initiator2 responder2
    /\ mirrored responder2 initiator2
    /\ forall frames : list (bool * bytes),
         Forall (fun f => Z.of_nat (length (snd f)) <= 2 ^ 24 - 1) frames ->
         session frames initiator2 responder2.
Proof.
  intros HkI HkR HeI HeR HnI HnR HrA HivA HrK HivK.
  destruct (handshake_run privI pubI privR pubR ephI EphI ephR EphR nI nR
              rA RA ivA rK RK ivK HkI HkR HeI HeR HnI HnR HrA HivA HrK HivK)
    as (initiator & responder & auth & ack & initiator1 & initiator2 & responder1
        & responder2 & ess & Hnew1 & Hnew2 & H1 & H2 & H3 & H4 & _ & _
        & HessI & HessR & [HnonI HrnI] & [HnonR HrnR] & Hframe).
  cbn zeta in Hframe.
  destruct Hframe as ((HeaI & HiaI & HeaR & HiaR) & (HemI & HimR) & (HemR & HimI)).
  assert (Hab : mirrored initiator2 responder2).
  { split; eexists; split; eassumption. }
  assert (Hba : mirrored responder2 initiator2).
  { split; eexists; split; eassumption. }
  exists initiator, responder, auth, ack, initiator1, initiator2, responder1,
    responder2.
  split; [exact Hnew1|]. split; [exact Hnew2|]. split; [exact H1|].
  split; [exact H2|]. split; [exact H3|]. split; [exact H4|].
  split; [exists ess; split; assumption|].
  split.
  { eexists _, _, _. unfold frame_secrets.
    rewrite HrnI, HrnR, HessI, HessR, HnonI, HnonR.
    rewrite HeaI, HeaR, HemI, HemR. cbn. repeat split. }
  split; [rewrite HeaI, HiaR, HemI, HimR; repeat split; eauto|].
  split; [rewrite HeaR, HiaI, HemR, HimI; repeat split; eauto|].
  split; [exact Hab|]. split; [exact Hba|].
  intros frames Hall.
  apply (session_between_mirrored keccak_length rlp_length); assumption.
Qed.

End Handshake.

(** ** The discovery server *)

Section ServerFacts.
Context `{Server.Message}.
Import Server.

(** Reduce the state passing of a method, leaving the calls alone. *)
Ltac srv_step :=
  cbn -[LRUCache.get LRUCache.set Buffer.toHex Buffer.slice util.pk2id
        insert delete lookup pretty String.append rckey_of Z.add length app
        valid_port timer_delay].

(** The fields that [settle] leaves alone. *)
Lemma settle_run (d : nat) (p : Promise) (s : Server.t) :
  settle d p s
  = (match promises s !! d with
     | Some Pending => set_promises (<[d := p]> (promises s)) s
     | _ => s
     end, Return tt).
Proof.
  unfold settle, bindM, gets, modify, ret.
  destruct (promises s !! d) as [[| |]|]; reflexivity.
Qed.

Lemma settle_pending (d : nat) (p : Promise) (s : Server.t) :
  promises s !! d = Some Pending ->
  promises (fst (settle d p s)) !! d = Some p.
Proof.
  intros Hp. rewrite settle_run, Hp. cbn.
  apply list_lookup_insert_eq. eapply lookup_lt_Some; eauto.
Qed.

Lemma settle_settled (d d' : nat) (p : Promise) (s : Server.t) :
  promises s !! d' <> Some Pending ->
  promises (fst (settle d p s)) !! d' = promises s !! d'.
Proof.
  intros Hp. rewrite settle_run.
  destruct (promises s !! d) as [[| |]|] eqn:Hd; cbn; try reflexivity.
  destruct (decide (d = d')) as [->|Hne]; [congruence|].
  apply list_lookup_insert_ne; auto.
Qed.

Lemma settle_other (d d' : nat) (p : Promise) (s : Server.t) :
  d <> d' -> promises (fst (settle d p s)) !! d' = promises s !! d'.
Proof.
  intros Hne. rewrite settle_run.
  destruct (promises s !! d) as [[| |]|] eqn:Hd; cbn; try reflexivity.
  apply list_lookup_insert_ne; auto.
Qed.

(** A pong whose hash is the key of a pending request. *)
Lemma handler_pong_matched (s : Server.t) (msg : bytes) (rinfo : RInfo)
    (to : Endpoint) (hash pk : bytes) (request : Request) :
  decode msg = Return {| data := Pong to hash; publicKey := pk |} ->
  _requests s !! Buffer.toHex hash = Some request ->
  _handler msg rinfo s
  = settle (deferred request)
      (Resolved {| id := Some (util.pk2id pk);
                   address := address (peer request);
                   udpPort := udpPort (peer request);
                   tcpPort := tcpPort (peer request) |})
      (set_requests (delete (Buffer.toHex hash) (_requests s)) s).
Proof.
  intros Hd Hr. unfold _handler, bindM, gets, modify, ret.
  rewrite Hd. srv_step.
  assert (Hpre : forall k : option Peer,
    match k with
    | Some _ | _ => fun s0 : Server.t => (s0, Return tt)
    end s = (s, Return tt)) by (intros [p|]; reflexivity).
  rewrite Hpre. srv_step. rewrite Hr. reflexivity.
Qed.

(** A pong whose hash matches no pending request changes nothing. *)
Lemma handler_pong_unmatched (s : Server.t) (msg : bytes) (rinfo : RInfo)
    (to : Endpoint) (hash pk : bytes) :
  decode msg = Return {| data := Pong to hash; publicKey := pk |} ->
  _requests s !! Buffer.toHex hash = None ->
  _handler msg rinfo s = (s, Return tt).
Proof.
  intros Hd Hr. unfold _handler, bindM, gets, modify, ret.
  rewrite Hd. srv_step.
  assert (Hpre : forall k : option Peer,
    match k with
    | Some _ | _ => fun s0 : Server.t => (s0, Return tt)
    end s = (s, Return tt)) by (intros [p|]; reflexivity).
  rewrite Hpre. srv_step. rewrite Hr. reflexivity.
Qed.

(** The handler, message by message. *)
Lemma handler_ping (s : Server.t) (msg : bytes) (rinfo : RInfo)
    (version : Z) (from to : Endpoint) (pk : bytes) :
  decode msg = Return {| data := Ping version from to; publicKey := pk |} ->
  let s1 :=
    match getPeer (_dpt s) (util.pk2id pk), e_udpPort from with
    | None, Some _ =>
        set_timers
          (<[nextTimer s := {| due := clock s + ms_100ms;
                               callback := EmitPeers [from] |}]> (timers s))
          (S (nextTimer s)) s
    | _, _ => s
    end in
  _handler msg rinfo s
  = match _socket s with
    | Some _ =>
        if valid_port (Some (r_port rinfo))
        then
          (set_socket
             {| sent := sent (socket s)
                        ++ [ {| d_msg :=
                                  encode
                                    (Pong {| e_address := r_address rinfo;
                                             e_udpPort := Some (r_port rinfo);
                                             e_tcpPort := e_tcpPort from |}
                                          (Buffer.slice msg 0 32))
                                    (_privateKey s);
                                d_port := Some (r_port rinfo);
                                d_address := r_address rinfo |} ];
                bound := bound (socket s); closed := closed (socket s) |} s1,
           Return tt)
        else (s1, Throw RangeError)
    | None => (s1, Throw TypeError)
    end.
Proof.
  intros Hd s1. subst s1.
  unfold _handler, _send, socket_send, setTimeout, bindM, gets, modify, need,
    ret, throw.
  rewrite Hd. srv_step. change (timer_delay ms_100ms) with ms_100ms.
  destruct (getPeer (_dpt s) (util.pk2id pk)) as [known|];
    [|destruct (e_udpPort from) as [port|]];
    srv_step; destruct (_socket s); try reflexivity;
    destruct (valid_port (Some (r_port rinfo))); reflexivity.
Qed.

Lemma handler_findneighbours (s : Server.t) (msg : bytes) (rinfo : RInfo)
    (target pk : bytes) :
  decode msg = Return {| data := FindNeighbours target; publicKey := pk |} ->
  _handler msg rinfo s
  = match _socket s with
    | Some _ =>
        if valid_port (Some (r_port rinfo))
        then
          (set_socket
             {| sent := sent (socket s)
                        ++ [ {| d_msg :=
                                  encode
                                    (Neighbours (getClosestPeers (_dpt s) target))
                                    (_privateKey s);
                                d_port := Some (r_port rinfo);
                                d_address := r_address rinfo |} ];
                bound := bound (socket s); closed := closed (socket s) |} s,
           Return tt)
        else (s, Throw RangeError)
    | None => (s, Throw TypeError)
    end.
Proof.
  intros Hd.
  unfold _handler, _send, socket_send, bindM, gets, modify, need, ret, throw.
  rewrite Hd. srv_step.
  destruct (getPeer (_dpt s) (util.pk2id pk)) as [known|];
    srv_step; destruct (_socket s); try reflexivity;
    destruct (valid_port (Some (r_port rinfo))); reflexivity.
Qed.

Lemma handler_neighbours (s : Server.t) (msg : bytes) (rinfo : RInfo)
    (l : list Peer) (pk : bytes) :
  decode msg = Return {| data := Neighbours l; publicKey := pk |} ->
  _handler msg rinfo s
  = (set_emitted (emitted s ++ [peers (map endpoint_of l)]) s, Return tt).
Proof.
  intros Hd. unfold _handler, emit, bindM, gets, modify, need, ret, throw.
  rewrite Hd. srv_step.
  destruct (getPeer (_dpt s) (util.pk2id pk)) as [known|]; reflexivity.
Qed.

Lemma handler_malformed (s : Server.t) (msg : bytes) (rinfo : RInfo) (e : Error) :
  decode msg = Throw e -> _handler msg rinfo s = (s, Throw e).
Proof.
  intros Hd. unfold _handler, bindM. rewrite Hd. reflexivity.
Qed.

(** [ping] when the cache holds the key, and when it does not. *)
Lemma ping_destroyed (peer : Peer) (s : Server.t) :
  _socket s = None -> ping peer s = (s, Throw (Thrown "Server already destroyed")).
Proof.
  intros Hs. unfold ping, _isAliveCheck, bindM, gets. rewrite Hs. reflexivity.
Qed.

Lemma ping_hit (peer : Peer) (s : Server.t) (promise : nat) :
  _socket s = Some tt ->
  snd (LRUCache.get (_requestsCache s) (rckey_of peer) (clock s)) = Some promise ->
  ping peer s
  = (set_requestsCache
       (fst (LRUCache.get (_requestsCache s) (rckey_of peer) (clock s))) s,
     Return promise).
Proof.
  intros Hs Hget.
  unfold ping, _isAliveCheck, requestsCache_get, bindM, gets, modify, ret.
  rewrite Hs. srv_step. rewrite Hget. reflexivity.
Qed.

Lemma ping_miss (peer : Peer) (s : Server.t) :
  _socket s = Some tt ->
  snd (LRUCache.get (_requestsCache s) (rckey_of peer) (clock s)) = None ->
  valid_port (udpPort peer) = true ->
  let msg := encode (Ping VERSION (_endpoint s) (endpoint_of peer)) (_privateKey s) in
  let rkey := Buffer.toHex (Buffer.slice msg 0 32) in
  let deferred := length (promises s) in
  let timeoutId := nextTimer s in
  ping peer s
  = ({| _dpt := _dpt s; _privateKey := _privateKey s; _timeout := _timeout s;
        _endpoint := _endpoint s;
        _requests :=
          <[rkey := {| Server.peer := peer; Server.deferred := deferred;
                       Server.timeoutId := timeoutId |}]> (_requests s);
        _requestsCache :=
          LRUCache.set
            (fst (LRUCache.get (_requestsCache s) (rckey_of peer) (clock s)))
            (rckey_of peer) deferred (clock s);
        _socket := _socket s;
        clock := clock s;
        socket :=
          {| sent := sent (socket s)
                     ++ [ {| d_msg := msg; d_port := udpPort peer;
                             d_address := address peer |} ];
             bound := bound (socket s); closed := closed (socket s) |};
        timers :=
          <[timeoutId := {| due := clock s + timer_delay (_timeout s);
                            callback := PingTimeout peer rkey deferred |}]>
            (timers s);
        nextTimer := S timeoutId;
        promises := promises s ++ [Pending];
        emitted := emitted s |},
     Return deferred).
Proof.
  intros Hs Hget Hport msg rkey deferred timeoutId.
  unfold ping, _isAliveCheck, requestsCache_get, requestsCache_set, _send,
    socket_send, createDeferred, setTimeout, bindM, gets, modify, need, ret.
  rewrite Hs. srv_step. rewrite Hget. srv_step. rewrite Hs, Hport. srv_step.
  unfold set_requestsCache, set_requests, set_timers, set_promises, set_socket.
  srv_step. rewrite ?Hs. reflexivity.
Qed.

(** [ping] when the socket does not accept the peer's port: the exception of
    [socket.send] leaves the method before a promise, a request or a timer
    is made, and before the cache is written. *)
Lemma ping_unsendable (peer : Peer) (s : Server.t) :
  _socket s = Some tt ->
  snd (LRUCache.get (_requestsCache s) (rckey_of peer) (clock s)) = None ->
  valid_port (udpPort peer) = false ->
  ping peer s
  = (set_requestsCache
       (fst (LRUCache.get (_requestsCache s) (rckey_of peer) (clock s))) s,
     Throw RangeError).
Proof.
  intros Hs Hget Hport.
  unfold ping, _isAliveCheck, requestsCache_get, _send, socket_send, bindM,
    gets, modify, need, ret, throw.
  rewrite Hs. srv_step. rewrite Hget. srv_step. rewrite Hs, Hport. reflexivity.
Qed.

(** [destroy] closes the socket and forgets it, and does nothing else. *)
Lemma destroy_alive (s : Server.t) :
  _socket s = Some tt ->
  destroy s
  = (set_socket_ref None
       (set_socket {| sent := sent (socket s); bound := bound (socket s);
                      closed := true |} s),
     Return tt).
Proof.
  intros Hs. unfold destroy, _isAliveCheck, bindM, gets, modify, need, ret.
  rewrite Hs. srv_step. rewrite Hs. reflexivity.
Qed.

Lemma destroy_destroyed (s : Server.t) :
  _socket s = None -> destroy s = (s, Throw (Thrown "Server already destroyed")).
Proof.
  intros Hs. unfold destroy, _isAliveCheck, bindM, gets. rewrite Hs. reflexivity.
Qed.

Lemma bind_destroyed (s : Server.t) :
  _socket s = None -> Server.bind s = (s, Throw (Thrown "Server already destroyed")).
Proof.
  intros Hs. unfold Server.bind, _isAliveCheck, bindM, gets. rewrite Hs. reflexivity.
Qed.

Lemma bind_alive (s : Server.t) :
  _socket s = Some tt ->
  Server.bind s
  = (set_socket {| sent := sent (socket s); bound := true;
                   closed := closed (socket s) |} s, Return tt).
Proof.
  intros Hs. unfold Server.bind, _isAliveCheck, bindM, gets, modify, need, ret.
  rewrite Hs. srv_step. rewrite Hs. reflexivity.
Qed.

Lemma findneighbours_destroyed (peer : Peer) (target : bytes) (s : Server.t) :
  _socket s = None ->
  findneighbours peer target s = (s, Throw (Thrown "Server already destroyed")).
Proof.
  intros Hs. unfold findneighbours, _isAliveCheck, bindM, gets. rewrite Hs.
  reflexivity.
Qed.

Lemma findneighbours_alive (peer : Peer) (target : bytes) (s : Server.t) :
  _socket s = Some tt ->
  valid_port (udpPort peer) = true ->
  findneighbours peer target s
  = (set_socket
       {| sent := sent (socket s)
                  ++ [ {| d_msg := encode (FindNeighbours target) (_privateKey s);
                          d_port := udpPort peer; d_address := address peer |} ];
          bound := bound (socket s); closed := closed (socket s) |} s,
     Return tt).
Proof.
  intros Hs Hport.
  unfold findneighbours, _isAliveCheck, _send, socket_send, bindM, gets,
    modify, need, ret.
  rewrite Hs. srv_step. rewrite Hs, Hport. reflexivity.
Qed.

Lemma findneighbours_unsendable (peer : Peer) (target : bytes) (s : Server.t) :
  _socket s = Some tt ->
  valid_port (udpPort peer) = false ->
  findneighbours peer target s = (s, Throw RangeError).
Proof.
  intros Hs Hport.
  unfold findneighbours, _isAliveCheck, _send, socket_send, bindM, gets,
    modify, need, ret, throw.
  rewrite Hs. srv_step. rewrite Hs, Hport. reflexivity.
Qed.


(** *** The invariant of the reachable states *)

Lemma settle_frame (d : nat) (p : Promise) (s : Server.t) :
  let s' := fst (settle d p s) in
  timers s' = timers s /\ nextTimer s' = nextTimer s
  /\ _requests s' = _requests s /\ _socket s' = _socket s
  /\ socket s' = socket s /\ emitted s' = emitted s /\ clock s' = clock s
  /\ _requestsCache s' = _requestsCache s
  /\ length (promises s') = length (promises s).
Proof.
  rewrite settle_run.
  destruct (promises s !! d) as [[| |]|]; cbn; repeat split.
  apply length_insert.
Qed.

Lemma invariant_ext (s s' : Server.t) :
  timers s' = timers s -> nextTimer s' = nextTimer s ->
  _requests s' = _requests s -> promises s' = promises s ->
  _socket s' = _socket s -> closed (socket s') = closed (socket s) ->
  invariant s -> invariant s'.
Proof.
  intros Ht Hn Hr Hp Hs Hc (Hf & Hrw & [Htb Hti] & Hsw).
  unfold invariant, timers_fresh, requests_wf, timers_wf, socket_wf.
  rewrite Ht, Hn, Hr, Hp, Hs, Hc. auto.
Qed.

Lemma invariant_new (dpt : DPT) (pk : bytes) (timeout : option Z)
    (endpoint : option Endpoint) (time : Z) :
  invariant (new dpt pk timeout endpoint time).
Proof.
  split; [|split; [|split; [split|]]].
  - intros i _. apply lookup_empty.
  - intros k r Hk. cbn in Hk. rewrite lookup_empty in Hk. discriminate.
  - intros i tm p k d Hi. cbn in Hi. rewrite lookup_empty in Hi. discriminate.
  - intros i j tm tm' p k p' k' d Hi. cbn in Hi. rewrite lookup_empty in Hi.
    discriminate.
  - split; discriminate.
Qed.

(** A request's timer is not the next one to be given out. *)
Lemma request_timer_old (s : Server.t) (k : string) (r : Request) :
  timers_fresh s -> requests_wf s -> _requests s !! k = Some r ->
  timeoutId r <> nextTimer s.
Proof.
  intros Hf Hrw Hk Heq. destruct (Hrw k r Hk) as (_ & t & Ht).
  rewrite Heq, Hf in Ht by lia. discriminate.
Qed.

(** Two requests with the same promise are under the same key. *)
Lemma request_promise_key (s : Server.t) (k k' : string) (r r' : Request) :
  requests_wf s -> timers_wf s ->
  _requests s !! k = Some r -> _requests s !! k' = Some r' ->
  deferred r = deferred r' -> k = k'.
Proof.
  intros Hrw [_ Hti] Hk Hk' Hd.
  destruct (Hrw k r Hk) as (_ & t & Ht).
  destruct (Hrw k' r' Hk') as (_ & t' & Ht').
  assert (Hij : timeoutId r = timeoutId r').
  { eapply (Hti _ _ _ _ (peer r) k (peer r') k' (deferred r)); eauto.
    cbn. rewrite Hd. reflexivity. }
  rewrite Hij, Ht' in Ht. inversion Ht. reflexivity.
Qed.

(** The timer that rejects a request's promise is the request's own. *)
Lemma request_timer_key (s : Server.t) (i : nat) (tm : Timer) (p : Peer)
    (k k' : string) (d : nat) (r' : Request) :
  requests_wf s -> timers_wf s ->
  timers s !! i = Some tm -> callback tm = PingTimeout p k d ->
  _requests s !! k' = Some r' ->
  deferred r' = d \/ timeoutId r' = i -> k' = k.
Proof.
  intros Hrw [_ Hti] Hi Hcb Hk' Hor.
  destruct (Hrw k' r' Hk') as (_ & t & Ht).
  assert (Hij : timeoutId r' = i).
  { destruct Hor as [Hd|Hid]; [|exact Hid].
    eapply (Hti _ _ _ _ (peer r') k' p k d); eauto. cbn. rewrite Hd. reflexivity. }
  rewrite Hij, Hi in Ht. inversion Ht; subst. cbn in Hcb. congruence.
Qed.

(** States with fewer timers and requests, and the promises of the
    remaining requests still pending. *)
Lemma invariant_shrink (s u : Server.t) :
  invariant s ->
  nextTimer u = nextTimer s ->
  (forall i tm, timers u !! i = Some tm -> timers s !! i = Some tm) ->
  (forall k r, _requests u !! k = Some r ->
     _requests s !! k = Some r
     /\ promises u !! deferred r = Some Pending
     /\ is_Some (timers u !! timeoutId r)) ->
  length (promises u) = length (promises s) ->
  _socket u = _socket s -> closed (socket u) = closed (socket s) ->
  invariant u.
Proof.
  intros (Hf & Hrw & [Htb Hti] & Hsw) Hn Ht Hr Hl Hs Hc.
  split; [|split; [|split; [split|]]].
  - intros i Hi. destruct (timers u !! i) as [tm|] eqn:Hu; [|reflexivity].
    apply Ht in Hu. rewrite Hf in Hu by lia. discriminate.
  - intros k r Hk. destruct (Hr k r Hk) as (Hks & Hp & [tm Htm]).
    split; [exact Hp|]. destruct (Hrw k r Hks) as (_ & t & Hts).
    exists t. rewrite Htm. apply Ht in Htm. congruence.
  - intros i tm p k d Hi Hcb. rewrite Hl. eapply Htb; eauto.
  - intros i j tm tm' p k p' k' d Hi Hj Hcb Hcb'. eapply Hti; eauto.
  - unfold socket_wf. rewrite Hs, Hc. exact Hsw.
Qed.

Lemma invariant_pong (s : Server.t) (k : string) (r : Request) (p : Promise) :
  _requests s !! k = Some r -> invariant s ->
  invariant (fst (settle (deferred r) p (set_requests (delete k (_requests s)) s))).
Proof.
  intros Hk Hinv.
  destruct (settle_frame (deferred r) p (set_requests (delete k (_requests s)) s))
    as (Ht & Hn & Hr & Hs & Hso & _ & _ & _ & Hl).
  cbn zeta in *.
  apply (invariant_shrink s); auto.
  - intros i tm. rewrite Ht. auto.
  - intros k' r'. rewrite Hr. cbn [_requests set_requests]. intros Hk'.
    destruct (decide (k = k')) as [->|Hne];
      [rewrite lookup_delete_eq in Hk'; discriminate|].
    rewrite lookup_delete_ne in Hk' by auto.
    destruct Hinv as (Hf & Hrw & Htw & Hsw).
    destruct (Hrw k' r' Hk') as (Hp & t & Htm).
    split; [exact Hk'|]. split.
    + rewrite settle_other; [exact Hp|].
      intros Hd. apply Hne. eapply (request_promise_key s k k' r r'); eauto.
    + rewrite Ht. cbn. eauto.
  - rewrite Hso. reflexivity.
Qed.

Lemma invariant_fire (s : Server.t) (i : nat) (tm : Timer) :
  timers s !! i = Some tm -> invariant s ->
  invariant (fst (run_callback (callback tm)
                    (set_timers (delete i (timers s)) (nextTimer s) s))).
Proof.
  intros Hi Hinv. pose proof Hinv as (Hf & Hrw & Htw & Hsw).
  destruct (callback tm) as [p k d|l] eqn:Hcb; cbn [run_callback].
  - unfold bindM, modify.
    match goal with |- invariant (fst (settle ?dd ?pp ?uu)) =>
      destruct (settle_frame dd pp uu) as (Ht & Hn & Hr & Hs & Hso & _ & _ & _ & Hl)
    end.
    cbn zeta in *. cbn [timers nextTimer _requests _socket socket promises
                       set_requests set_timers] in *.
    apply (invariant_shrink s); auto.
    + intros j tmj. rewrite Ht. intros Hj.
      destruct (decide (i = j)) as [->|Hne];
        [rewrite lookup_delete_eq in Hj; discriminate|].
      rewrite lookup_delete_ne in Hj by auto. exact Hj.
    + intros k' r'. rewrite Hr. intros Hk'.
      destruct (decide (k = k')) as [->|Hne];
        [rewrite lookup_delete_eq in Hk'; discriminate|].
      rewrite lookup_delete_ne in Hk' by auto.
      destruct (Hrw k' r' Hk') as (Hp & t & Htm).
      split; [exact Hk'|]. split.
      * rewrite settle_other; [exact Hp|].
        intros Hd. apply Hne. symmetry.
        eapply (request_timer_key s i tm p k k' d r'); eauto.
      * rewrite Ht, lookup_delete_ne; [eauto|].
        intros Hid. apply Hne. symmetry.
        eapply (request_timer_key s i tm p k k' d r'); eauto.
    + rewrite Hso. reflexivity.
  - cbn. apply (invariant_shrink s); auto; cbn.
    + intros j tmj Hj.
      destruct (decide (i = j)) as [->|Hne];
        [rewrite lookup_delete_eq in Hj; discriminate|].
      rewrite lookup_delete_ne in Hj by auto. exact Hj.
    + intros k' r' Hk'. destruct (Hrw k' r' Hk') as (Hp & t & Htm).
      split; [exact Hk'|]. split; [exact Hp|].
      rewrite lookup_delete_ne; [eauto|].
      intros Hid. subst i. rewrite Hi in Htm. inversion Htm; subst.
      cbn in Hcb. discriminate.
Qed.

(** One more timer that announces peers. *)
Lemma invariant_announce (s u : Server.t) (t : Z) (l : list Endpoint) :
  invariant s ->
  timers u = <[nextTimer s := {| due := t; callback := EmitPeers l |}]> (timers s) ->
  nextTimer u = S (nextTimer s) ->
  _requests u = _requests s -> promises u = promises s ->
  _socket u = _socket s -> closed (socket u) = closed (socket s) ->
  invariant u.
Proof.
  intros (Hf & Hrw & [Htb Hti] & Hsw) Ht Hn Hr Hp Hs Hc.
  split; [|split; [|split; [split|]]].
  - intros i Hi. rewrite Ht, lookup_insert_ne by lia. apply Hf. lia.
  - intros k r Hk. rewrite Hr in Hk. destruct (Hrw k r Hk) as (Hpend & t' & Ht').
    rewrite Hp. split; [exact Hpend|].
    exists t'. rewrite Ht, lookup_insert_ne; [exact Ht'|].
    intros Heq. eapply request_timer_old; eauto.
  - intros i tm p k d Hi Hcb. rewrite Ht in Hi. rewrite Hp.
    destruct (decide (nextTimer s = i)) as [<-|Hne].
    + rewrite lookup_insert_eq in Hi. inversion Hi; subst. discriminate.
    + rewrite lookup_insert_ne in Hi by auto. eapply Htb; eauto.
  - intros i j tm tm' p k p' k' d Hi Hj Hcb Hcb'. rewrite Ht in Hi, Hj.
    destruct (decide (nextTimer s = i)) as [<-|Hni].
    { rewrite lookup_insert_eq in Hi. inversion Hi; subst. discriminate. }
    destruct (decide (nextTimer s = j)) as [<-|Hnj].
    { rewrite lookup_insert_eq in Hj. inversion Hj; subst. discriminate. }
    rewrite lookup_insert_ne in Hi, Hj by auto. eapply Hti; eauto.
  - unfold socket_wf. rewrite Hs, Hc. exact Hsw.
Qed.

(** One more request, with its new promise and its new timer. *)
Lemma invariant_request (s u : Server.t) (t : Z) (rkey : string) (p : Peer) :
  invariant s ->
  timers u = <[nextTimer s := {| due := t;
                                 callback := PingTimeout p rkey (length (promises s)) |}]>
               (timers s) ->
  nextTimer u = S (nextTimer s) ->
  _requests u = <[rkey := {| peer := p; deferred := length (promises s);
                             timeoutId := nextTimer s |}]> (_requests s) ->
  promises u = promises s ++ [Pending] ->
  _socket u = _socket s -> closed (socket u) = closed (socket s) ->
  invariant u.
Proof.
  intros (Hf & Hrw & [Htb Hti] & Hsw) Ht Hn Hr Hp Hs Hc.
  split; [|split; [|split; [split|]]].
  - intros i Hi. rewrite Ht, lookup_insert_ne by lia. apply Hf. lia.
  - intros k r Hk. rewrite Hr in Hk. rewrite Hp, Ht.
    destruct (decide (rkey = k)) as [<-|Hne].
    + rewrite lookup_insert_eq in Hk. inversion Hk; subst. cbn. split.
      * apply list_lookup_middle. reflexivity.
      * exists t. apply lookup_insert_eq.
    + rewrite lookup_insert_ne in Hk by auto.
      destruct (Hrw k r Hk) as (Hpend & t' & Ht'). split.
      * rewrite lookup_app_l; [exact Hpend|]. eapply lookup_lt_Some; eauto.
      * exists t'. rewrite lookup_insert_ne; [exact Ht'|].
        intros Heq. eapply request_timer_old; eauto.
  - intros i tm p' k d Hi Hcb. rewrite Ht in Hi. rewrite Hp, length_app. cbn.
    destruct (decide (nextTimer s = i)) as [<-|Hne].
    + rewrite lookup_insert_eq in Hi. inversion Hi; subst. cbn in Hcb.
      inversion Hcb; subst. lia.
    + rewrite lookup_insert_ne in Hi by auto.
      pose proof (Htb i tm p' k d Hi Hcb). lia.
  - intros i j tm tm' p1 k p2 k' d Hi Hj Hcb Hcb'. rewrite Ht in Hi, Hj.
    destruct (decide (nextTimer s = i)) as [<-|Hni];
      destruct (decide (nextTimer s = j)) as [<-|Hnj]; auto.
    + rewrite lookup_insert_eq in Hi. rewrite lookup_insert_ne in Hj by auto.
      inversion Hi; subst. cbn in Hcb. inversion Hcb; subst.
      pose proof (Htb j tm' p2 k' _ Hj Hcb'). lia.
    + rewrite lookup_insert_eq in Hj. rewrite lookup_insert_ne in Hi by auto.
      inversion Hj; subst. cbn in Hcb'. inversion Hcb'; subst.
      pose proof (Htb i tm p1 k _ Hi Hcb). lia.
    + rewrite lookup_insert_ne in Hi, Hj by auto. eapply Hti; eauto.
  - unfold socket_wf. rewrite Hs, Hc. exact Hsw.
Qed.

Lemma handler_invariant (msg : bytes) (rinfo : RInfo) (s : Server.t) :
  invariant s -> invariant (fst (_handler msg rinfo s)).
Proof.
  intros Hinv.
  destruct (decode msg) as [[[version from to|to hash|target|l] pk]|e] eqn:Hd.
  - rewrite (handler_ping s msg rinfo version from to pk Hd). cbn zeta.
    destruct (getPeer (_dpt s) (util.pk2id pk)) as [known|];
      [|destruct (e_udpPort from) as [port|]];
      destruct (_socket s) eqn:Hs;
      try destruct (valid_port (Some (r_port rinfo))); cbn [fst];
      solve [ eapply invariant_ext; [..|exact Hinv]; cbn; auto
            | eapply invariant_announce; [exact Hinv|..]; cbn; auto ].
  - destruct (_requests s !! Buffer.toHex hash) as [request|] eqn:Hr.
    + rewrite (handler_pong_matched s msg rinfo to hash pk request Hd Hr).
      apply invariant_pong; assumption.
    + rewrite (handler_pong_unmatched s msg rinfo to hash pk Hd Hr). exact Hinv.
  - rewrite (handler_findneighbours s msg rinfo target pk Hd).
    destruct (_socket s); [|exact Hinv].
    destruct (valid_port (Some (r_port rinfo))); cbn [fst]; [|exact Hinv].
    eapply invariant_ext; [..|exact Hinv]; reflexivity.
  - rewrite (handler_neighbours s msg rinfo l pk Hd). cbn [fst].
    eapply invariant_ext; [..|exact Hinv]; reflexivity.
  - rewrite (handler_malformed s msg rinfo e Hd). exact Hinv.
Qed.

Lemma step_invariant (a : Action) (s s' : Server.t) :
  step a s = Some s' -> invariant s -> invariant s'.
Proof.
  intros Hstep Hinv.
  destruct a as [dt|i|msg rinfo| | |p|p target]; cbn [step] in Hstep.
  - destruct (0 <=? dt); inversion Hstep; subst.
    eapply invariant_ext; [..|exact Hinv]; reflexivity.
  - destruct (timers s !! i) as [tm|] eqn:Htm; [|discriminate].
    destruct (due tm <=? clock s); inversion Hstep; subst.
    apply invariant_fire; assumption.
  - destruct (closed (socket s)); inversion Hstep; subst. clear Hstep.
    unfold on_message. pose proof (handler_invariant msg rinfo s Hinv) as Hh.
    destruct (_handler msg rinfo s) as [u [[]|e]]; cbn [fst] in *; exact Hh.
  - inversion Hstep; subst. destruct (_socket s) as [[]|] eqn:Hs.
    + rewrite (bind_alive s Hs). cbn [fst].
      eapply invariant_ext; [..|exact Hinv]; reflexivity.
    + rewrite (bind_destroyed s Hs). exact Hinv.
  - inversion Hstep; subst. destruct (_socket s) as [[]|] eqn:Hs.
    + rewrite (destroy_alive s Hs). cbn [fst].
      destruct Hinv as (Hf & Hrw & Htw & Hsw).
      split; [exact Hf|]. split; [exact Hrw|]. split; [exact Htw|].
      split; reflexivity.
    + rewrite (destroy_destroyed s Hs). exact Hinv.
  - inversion Hstep; subst. destruct (_socket s) as [[]|] eqn:Hs.
    + destruct (snd (LRUCache.get (_requestsCache s) (rckey_of p) (clock s)))
        as [promise|] eqn:Hget.
      * rewrite (ping_hit p s promise Hs Hget). cbn [fst].
        eapply invariant_ext; [..|exact Hinv]; reflexivity.
      * destruct (valid_port (udpPort p)) eqn:Hport.
        -- rewrite (ping_miss p s Hs Hget Hport). cbn [fst].
           eapply invariant_request; [exact Hinv|..]; cbn; reflexivity.
        -- rewrite (ping_unsendable p s Hs Hget Hport). cbn [fst].
           eapply invariant_ext; [..|exact Hinv]; reflexivity.
    + rewrite (ping_destroyed p s Hs). exact Hinv.
  - inversion Hstep; subst. destruct (_socket s) as [[]|] eqn:Hs.
    + destruct (valid_port (udpPort p)) eqn:Hport.
      * rewrite (findneighbours_alive p target s Hs Hport). cbn [fst].
        eapply invariant_ext; [..|exact Hinv]; reflexivity.
      * rewrite (findneighbours_unsendable p target s Hs Hport). exact Hinv.
    + rewrite (findneighbours_destroyed p target s Hs). exact Hinv.
Qed.

Lemma reachable_invariant (s : Server.t) : reachable s -> invariant s.
Proof.
  induction 1 as [dpt pk timeout endpoint time|a s s' Hr IH Hstep].
  - apply invariant_new.
  - eapply step_invariant; eauto.
Qed.

Lemma run_reachable (l : list Action) (s s' : Server.t) :
  reachable s -> run l s = Some s' -> reachable s'.
Proof.
  revert s. induction l as [|a l IH]; intros s Hr Hrun; cbn [run] in Hrun.
  - inversion Hrun; subst. exact Hr.
  - destruct (step a s) as [u|] eqn:Hstep; [|discriminate].
    eapply IH; [|exact Hrun]. eapply reachable_step; eauto.
Qed.


(** *** Datagrams *)

(** A datagram is handled only by a server that still has its socket. *)
Lemma receive_alive (s s' : Server.t) (msg : bytes) (rinfo : RInfo) :
  reachable s -> step (Receive msg rinfo) s = Some s' ->
  _socket s = Some tt /\ s' = fst (on_message msg rinfo s).
Proof.
  intros Hr Hstep. cbn [step] in Hstep.
  destruct (closed (socket s)) eqn:Hc; [discriminate|].
  inversion Hstep; subst. split; [|reflexivity].
  destruct (reachable_invariant s Hr) as (_ & _ & _ & Hsw).
  destruct (_socket s) as [[]|] eqn:Hs; [reflexivity|].
  rewrite (proj1 Hsw Hs) in Hc. discriminate.
Qed.

(** A timer that announces peers, when it fires. *)
Lemma fire_announce (u : Server.t) (i : nat) (t : Z) (l : list Endpoint) :
  timers u !! i = Some {| due := t; callback := EmitPeers l |} ->
  (clock u < t -> step (TimerFires i) u = None)
  /\ (t <= clock u ->
      exists u', step (TimerFires i) u = Some u'
                 /\ emitted u' = emitted u ++ [peers l]
                 /\ timers u' = delete i (timers u)).
Proof.
  intros Hi. cbn [step]. rewrite Hi. cbn [due callback]. split; intros Ht.
  - destruct (Z.leb_spec t (clock u)); [lia|reflexivity].
  - destruct (Z.leb_spec t (clock u)); [|lia].
    eexists. split; [reflexivity|]. split; reflexivity.
Qed.

(** C8: a ping from a sender that the routing table does not know, with a
    non-null [from.udpPort], schedules exactly one timer, 100 ms from now,
    and emits no ['peers'] event yet; that timer cannot fire before the
    100 ms are over, and when it fires it emits exactly one ['peers'] event,
    holding exactly the [from] endpoint, and is gone.  A ping from a known
    sender, or with a null [from.udpPort], schedules no timer and emits no
    ['peers'] event.  In both cases the handler emits nothing at all, unless
    the datagram came from a port that [socket.send] does not accept: then
    the exception of the pong's [send] is emitted as one ['error']. *)
Theorem unknown_ping_announces_sender (s s' : Server.t) (msg : bytes)
    (rinfo : RInfo) (version : Z) (from to : Endpoint) (pk : bytes) :
  reachable s ->
  decode msg = Return {| data := Ping version from to; publicKey := pk |} ->
  step (Receive msg rinfo) s = Some s' ->
  let i := nextTimer s in
  let tm := {| due := clock s + 100; callback := EmitPeers [from] |} in
  let refused :=
    if valid_port (Some (r_port rinfo)) then [] else [error RangeError] in
  (getPeer (_dpt s) (util.pk2id pk) = None -> e_udpPort from <> None ->
     timers s !! i = None
     /\ timers s' = <[i := tm]> (timers s)
     /\ emitted s' = emitted s ++ refused
     /\ forall u, timers u !! i = Some tm ->
          (clock u < clock s + 100 -> step (TimerFires i) u = None)
          /\ (clock s + 100 <= clock u ->
              exists u', step (TimerFires i) u = Some u'
                         /\ emitted u' = emitted u ++ [peers [from]]
                         /\ timers u' = delete i (timers u)))
  /\ (getPeer (_dpt s) (util.pk2id pk) <> None \/ e_udpPort from = None ->
      timers s' = timers s /\ emitted s' = emitted s ++ refused).
Proof.
  intros Hr Hd Hstep i tm refused. subst refused.
  destruct (receive_alive s s' msg rinfo Hr Hstep) as [Hs ->].
  destruct (reachable_invariant s Hr) as (Hf & _).
  unfold on_message. rewrite (handler_ping s msg rinfo version from to pk Hd).
  cbn zeta. rewrite Hs. split.
  - intros Hknown Hport. rewrite Hknown.
    destruct (e_udpPort from) as [port|]; [|congruence].
    destruct (valid_port (Some (r_port rinfo))); cbn;
      rewrite ?app_nil_r;
      (split; [apply Hf; lia|]); (split; [reflexivity|]);
      (split; [reflexivity|]);
      intros u Hu; apply (fire_announce u i (clock s + 100) [from] Hu).
  - intros Hor.
    destruct (getPeer (_dpt s) (util.pk2id pk)) as [known|].
    + destruct (valid_port (Some (r_port rinfo))); cbn; rewrite ?app_nil_r; auto.
    + destruct Hor as [Hk|Hp]; [congruence|]. rewrite Hp.
      destruct (valid_port (Some (r_port rinfo))); cbn; rewrite ?app_nil_r; auto.
Qed.

(** What a pong does.  One whose hash is the key of a pending request
    removes the request from the pending map and resolves its promise,
    which was pending, with the node id of the pong's sender and the
    address and ports of the peer that [ping] was given; it sends and emits
    nothing.  The request's [timeoutId] is not read: the timer stays
    scheduled, and when it fires the promise stays resolved.  A pong whose
    hash matches no pending request changes nothing. *)
Lemma pong_resolves_request (s s' : Server.t) (msg : bytes)
    (rinfo : RInfo) (to : Endpoint) (hash pk : bytes) :
  reachable s ->
  decode msg = Return {| data := Pong to hash; publicKey := pk |} ->
  step (Receive msg rinfo) s = Some s' ->
  let rkey := Buffer.toHex hash in
  (forall request, _requests s !! rkey = Some request ->
     let descriptor :=
       {| id := Some (util.pk2id pk);
          address := address (peer request);
          udpPort := udpPort (peer request);
          tcpPort := tcpPort (peer request) |} in
     _requests s' = delete rkey (_requests s)
     /\ promises s !! deferred request = Some Pending
     /\ promises s' !! deferred request = Some (Resolved descriptor)
     /\ (forall d, d <> deferred request -> promises s' !! d = promises s !! d)
     /\ socket s' = socket s /\ emitted s' = emitted s
     /\ timers s' = timers s
     /\ (exists t, timers s' !! timeoutId request
                   = Some {| due := t;
                             callback := PingTimeout (peer request) rkey
                                           (deferred request) |})
     /\ (forall u u', promises u !! deferred request = Some (Resolved descriptor) ->
           step (TimerFires (timeoutId request)) u = Some u' ->
           promises u' !! deferred request = Some (Resolved descriptor)))
  /\ (_requests s !! rkey = None -> s' = s).
Proof.
  intros Hr Hd Hstep rkey.
  destruct (receive_alive s s' msg rinfo Hr Hstep) as [Hs ->].
  destruct (reachable_invariant s Hr) as (Hf & Hrw & Htw & Hsw).
  split.
  - intros request Hreq descriptor. unfold on_message.
    rewrite (handler_pong_matched s msg rinfo to hash pk request Hd Hreq).
    fold rkey. fold descriptor.
    destruct (Hrw rkey request Hreq) as (Hpend & t & Ht).
    destruct (settle_frame (deferred request) (Resolved descriptor)
                (set_requests (delete rkey (_requests s)) s))
      as (Htm & Hn & Hrq & Hsk & Hso & Hem & _ & _ & _).
    cbn zeta in *.
    rewrite (surjective_pairing (settle _ _ _)).
    assert (Hret : snd (settle (deferred request) (Resolved descriptor)
                          (set_requests (delete rkey (_requests s)) s)) = Return tt)
      by (rewrite settle_run; reflexivity).
    rewrite Hret. cbn [fst].
    split; [exact Hrq|]. split; [exact Hpend|].
    split; [apply settle_pending; exact Hpend|].
    split; [intros d Hne; rewrite settle_other by auto; reflexivity|].
    split; [exact Hso|]. split; [exact Hem|]. split; [exact Htm|].
    split; [exists t; rewrite Htm; exact Ht|].
    intros u u' Hu Hfire. cbn [step] in Hfire.
    destruct (timers u !! timeoutId request) as [tm|]; [|discriminate].
    destruct (due tm <=? clock u); inversion Hfire; subst. clear Hfire.
    destruct (callback tm) as [p k d|l]; cbn [run_callback].
    + unfold bindM, modify. cbn [fst].
      rewrite settle_settled; cbn [promises set_requests set_timers];
        rewrite Hu; [reflexivity|discriminate].
    + exact Hu.
  - intros Hnone. unfold on_message.
    rewrite (handler_pong_unmatched s msg rinfo to hash pk Hd Hnone). reflexivity.
Qed.


(** *** After [destroy] *)

(** Once the socket is gone, the loop has only the clock and the timers
    left: no datagram arrives, and every call throws. *)
Lemma step_destroyed (a : Action) (u u' : Server.t) (d i : nat) (tm : Timer)
    (p : Peer) (k : string) :
  reachable u -> _socket u = None ->
  callback tm = PingTimeout p k d ->
  step a u = Some u' ->
  let failed := Rejected (Thrown ("Timeout error: ping " +:+ rckey_of p)) in
  _socket u' = None
  /\ ((promises u !! d = Some Pending /\ timers u !! i = Some tm)
      \/ promises u !! d = Some failed ->
      (promises u' !! d = Some Pending /\ timers u' !! i = Some tm)
      \/ promises u' !! d = Some failed).
Proof.
  intros Hr Hs Hcb Hstep failed.
  destruct (reachable_invariant u Hr) as (Hf & Hrw & [Htb Hti] & Hsw).
  destruct a as [dt|j|msg rinfo| | |q|q target]; cbn [step] in Hstep.
  - destruct (0 <=? dt); inversion Hstep; subst. auto.
  - destruct (timers u !! j) as [tmj|] eqn:Hj; [|discriminate].
    destruct (due tmj <=? clock u); inversion Hstep; subst. clear Hstep.
    destruct (callback tmj) as [p' k' d'|l] eqn:Hcbj; cbn [run_callback].
    + unfold bindM, modify. cbn [fst].
      match goal with |- context [settle ?dd ?pp ?uu] =>
        destruct (settle_frame dd pp uu) as (Ht & _ & _ & Hsk & _)
      end.
      cbn zeta in *. split; [rewrite Hsk; exact Hs|].
      intros [[Hpend Hi]|Hfail].
      * destruct (decide (j = i)) as [->|Hne].
        -- right. rewrite Hi in Hj. inversion Hj; subst. rewrite Hcb in Hcbj.
           inversion Hcbj; subst. apply settle_pending. exact Hpend.
        -- left. split.
           ++ rewrite settle_other; [exact Hpend|].
              intros ->. apply Hne. eapply Hti; eauto.
           ++ rewrite Ht. cbn. rewrite lookup_delete_ne by auto. exact Hi.
      * right. rewrite settle_settled; cbn; rewrite Hfail;
          [reflexivity|discriminate].
    + cbn. split; [exact Hs|]. intros [[Hpend Hi]|Hfail]; [left|right; exact Hfail].
      split; [exact Hpend|]. rewrite lookup_delete_ne; [exact Hi|].
      intros ->. rewrite Hi in Hj. inversion Hj; subst. congruence.
  - rewrite (proj1 Hsw Hs) in Hstep. discriminate.
  - inversion Hstep; subst. rewrite (bind_destroyed u Hs). auto.
  - inversion Hstep; subst. rewrite (destroy_destroyed u Hs). auto.
  - inversion Hstep; subst. rewrite (ping_destroyed q u Hs). auto.
  - inversion Hstep; subst. rewrite (findneighbours_destroyed q target u Hs). auto.
Qed.

Lemma run_destroyed (l : list Action) (u u' : Server.t) (d i : nat) (tm : Timer)
    (p : Peer) (k : string) :
  reachable u -> _socket u = None ->
  callback tm = PingTimeout p k d ->
  run l u = Some u' ->
  let failed := Rejected (Thrown ("Timeout error: ping " +:+ rckey_of p)) in
  (promises u !! d = Some Pending /\ timers u !! i = Some tm)
  \/ promises u !! d = Some failed ->
  (promises u' !! d = Some Pending /\ timers u' !! i = Some tm)
  \/ promises u' !! d = Some failed.
Proof.
  revert u. induction l as [|a l IH]; intros u Hr Hs Hcb Hrun failed Hor;
    cbn [run] in Hrun.
  - inversion Hrun; subst. exact Hor.
  - destruct (step a u) as [v|] eqn:Hstep; [|discriminate].
    destruct (step_destroyed a u v d i tm p k Hr Hs Hcb Hstep) as [Hsv Hv].
    apply (IH v); auto. eapply reachable_step; eauto.
Qed.

(** A timeout timer, when it fires on a pending promise. *)
Lemma fire_timeout (u : Server.t) (i d : nat) (t : Z) (p : Peer) (k : string) :
  timers u !! i = Some {| due := t; callback := PingTimeout p k d |} ->
  promises u !! d = Some Pending ->
  (clock u < t -> step (TimerFires i) u = None)
  /\ (t <= clock u ->
      exists u', step (TimerFires i) u = Some u'
                 /\ promises u' !! d
                    = Some (Rejected (Thrown ("Timeout error: ping " +:+ rckey_of p)))
                 /\ _requests u' = delete k (_requests u)
                 /\ timers u' = delete i (timers u)).
Proof.
  intros Hi Hp. cbn [step]. rewrite Hi. cbn [due callback]. split; intros Ht.
  - destruct (Z.leb_spec t (clock u)); [lia|reflexivity].
  - destruct (Z.leb_spec t (clock u)); [|lia].
    eexists. split; [reflexivity|]. cbn [run_callback]. unfold bindM, modify.
    cbn [fst].
    match goal with |- context [settle ?dd ?pp ?uu] =>
      destruct (settle_frame dd pp uu) as (Htm & _ & Hrq & _)
    end.
    cbn zeta in *. split; [|split; [exact Hrq|exact Htm]].
    apply settle_pending. exact Hp.
Qed.

(** C7, as amended: [destroy] closes the socket and drops the server's
    reference to it, and leaves the pending requests, their timers and
    their promises as they are: the timers are not cancelled.  A ping
    outstanding at that moment is never resolved afterwards; its promise
    stays pending with its timer scheduled, until that timer fires and
    rejects it with the timeout error. *)
Theorem destroy_leaves_timeouts (s s' : Server.t) (k : string) (r : Request) :
  reachable s -> _socket s = Some tt ->
  _requests s !! k = Some r ->
  step CallDestroy s = Some s' ->
  let failed :=
    Rejected (Thrown ("Timeout error: ping " +:+ rckey_of (peer r))) in
  exists t,
    let tm := {| due := t; callback := PingTimeout (peer r) k (deferred r) |} in
    (_socket s' = None /\ closed (socket s') = true
     /\ timers s' = timers s /\ promises s' = promises s
     /\ _requests s' = _requests s)
    /\ (promises s' !! deferred r = Some Pending
        /\ timers s' !! timeoutId r = Some tm)
    /\ (forall l u, run l s' = Some u ->
          (promises u !! deferred r = Some Pending
           /\ timers u !! timeoutId r = Some tm)
          \/ promises u !! deferred r = Some failed)
    /\ (forall u, promises u !! deferred r = Some Pending ->
          timers u !! timeoutId r = Some tm ->
          (clock u < t -> step (TimerFires (timeoutId r)) u = None)
          /\ (t <= clock u ->
              exists u', step (TimerFires (timeoutId r)) u = Some u'
                         /\ promises u' !! deferred r = Some failed)).
Proof.
  intros Hr Hs Hk Hstep failed.
  destruct (reachable_invariant s Hr) as (Hf & Hrw & Htw & Hsw).
  destruct (Hrw k r Hk) as (Hpend & t & Ht).
  assert (Hr' : reachable s') by (eapply reachable_step; eauto).
  cbn [step] in Hstep. rewrite (destroy_alive s Hs) in Hstep.
  inversion Hstep; subst. clear Hstep.
  exists t. cbn zeta.
  split; [repeat split|]. split; [split; assumption|]. split.
  - intros l u Hrun.
    eapply (run_destroyed l _ u (deferred r) (timeoutId r) _ (peer r) k Hr');
      [reflexivity|reflexivity|exact Hrun|].
    left. split; assumption.
  - intros u Hp Hi.
    destruct (fire_timeout u (timeoutId r) (deferred r) t (peer r) k Hi Hp)
      as [Hearly Hlate].
    split; [exact Hearly|]. intros Hle.
    destruct (Hlate Hle) as (u' & H1 & H2 & _). eauto.
Qed.


(** *** The dedup cache *)


Lemma lru_get_opts {V : Type} (c : LRUCache.t V) (k : string) (t : Z) :
  LRUCache.max (fst (LRUCache.get c k t)) = LRUCache.max c
  /\ LRUCache.maxAge (fst (LRUCache.get c k t)) = LRUCache.maxAge c
  /\ LRUCache.stale (fst (LRUCache.get c k t)) = LRUCache.stale c.
Proof.
  unfold LRUCache.get. destruct (LRUCache.find k (LRUCache.lruList c)) as [hit|];
    [destruct (LRUCache.isStale c hit t)|]; cbn; auto.
Qed.

Lemma lru_set_opts {V : Type} (c : LRUCache.t V) (k : string) (v : V) (t : Z) :
  LRUCache.max (LRUCache.set c k v t) = LRUCache.max c
  /\ LRUCache.maxAge (LRUCache.set c k v t) = LRUCache.maxAge c
  /\ LRUCache.stale (LRUCache.set c k v t) = LRUCache.stale c.
Proof.
  unfold LRUCache.set. destruct (LRUCache.max c <? 1); cbn; auto.
Qed.

(** After [set], the entry is the most recently used one. *)
Lemma lru_set_head {V : Type} (c : LRUCache.t V) (k : string) (v : V) (t : Z) :
  1 <= LRUCache.max c -> LRUCache.maxAge c <> 0 ->
  exists rest,
    LRUCache.lruList (LRUCache.set c k v t)
    = {| LRUCache.key := k; LRUCache.value := v; LRUCache.now := t |} :: rest.
Proof.
  intros Hmax Hage. unfold LRUCache.set, LRUCache.trim.
  destruct (Z.ltb_spec (LRUCache.max c) 1); [lia|]. cbn.
  destruct (Z.eqb_spec (LRUCache.maxAge c) 0); [contradiction|].
  destruct (Z.to_nat (LRUCache.max c)) as [|m] eqn:Hm; [lia|].
  cbn. eauto.
Qed.


Lemma handler_cache (msg : bytes) (rinfo : RInfo) (s : Server.t) :
  _requestsCache (fst (_handler msg rinfo s)) = _requestsCache s.
Proof.
  destruct (decode msg) as [[[version from to|to hash|target|l] pk]|e] eqn:Hd.
  - rewrite (handler_ping s msg rinfo version from to pk Hd). cbn zeta.
    destruct (getPeer (_dpt s) (util.pk2id pk)) as [known|];
      [|destruct (e_udpPort from) as [port|]];
      destruct (_socket s); try reflexivity;
      destruct (valid_port (Some (r_port rinfo))); reflexivity.
  - destruct (_requests s !! Buffer.toHex hash) as [request|] eqn:Hr.
    + rewrite (handler_pong_matched s msg rinfo to hash pk request Hd Hr).
      match goal with |- context [settle ?dd ?pp ?uu] =>
        destruct (settle_frame dd pp uu) as (_ & _ & _ & _ & _ & _ & _ & Hc & _)
      end.
      exact Hc.
    + rewrite (handler_pong_unmatched s msg rinfo to hash pk Hd Hr). reflexivity.
  - rewrite (handler_findneighbours s msg rinfo target pk Hd).
    destruct (_socket s); try reflexivity;
      destruct (valid_port (Some (r_port rinfo))); reflexivity.
  - rewrite (handler_neighbours s msg rinfo l pk Hd). reflexivity.
  - rewrite (handler_malformed s msg rinfo e Hd). reflexivity.
Qed.

Lemma step_cache_wf (a : Action) (s s' : Server.t) :
  step a s = Some s' -> cache_wf s -> cache_wf s'.
Proof.
  intros Hstep Hc.
  destruct a as [dt|i|msg rinfo| | |p|p target]; cbn [step] in Hstep.
  - destruct (0 <=? dt); inversion Hstep; subst. exact Hc.
  - destruct (timers s !! i) as [tm|]; [|discriminate].
    destruct (due tm <=? clock s); inversion Hstep; subst. clear Hstep.
    destruct (callback tm) as [q k d|l]; cbn [run_callback]; [|exact Hc].
    unfold bindM, modify. cbn [fst].
    match goal with |- context [settle ?dd ?pp ?uu] =>
      destruct (settle_frame dd pp uu) as (_ & _ & _ & _ & _ & _ & _ & Hq & _)
    end.
    unfold cache_wf. cbn zeta in Hq. rewrite Hq. exact Hc.
  - destruct (closed (socket s)); inversion Hstep; subst. clear Hstep.
    unfold on_message. pose proof (handler_cache msg rinfo s) as Hh.
    unfold cache_wf.
    destruct (_handler msg rinfo s) as [u [[]|e]]; cbn [fst] in *;
      cbn; rewrite Hh; exact Hc.
  - inversion Hstep; subst. destruct (_socket s) as [[]|] eqn:Hs.
    + rewrite (bind_alive s Hs). exact Hc.
    + rewrite (bind_destroyed s Hs). exact Hc.
  - inversion Hstep; subst. destruct (_socket s) as [[]|] eqn:Hs.
    + rewrite (destroy_alive s Hs). exact Hc.
    + rewrite (destroy_destroyed s Hs). exact Hc.
  - inversion Hstep; subst. destruct (_socket s) as [[]|] eqn:Hs.
    + destruct (snd (LRUCache.get (_requestsCache s) (rckey_of p) (clock s)))
        as [promise|] eqn:Hget.
      * rewrite (ping_hit p s promise Hs Hget). unfold cache_wf. cbn.
        destruct (lru_get_opts (_requestsCache s) (rckey_of p) (clock s))
          as (-> & -> & ->). exact Hc.
      * destruct (valid_port (udpPort p)) eqn:Hport.
        -- rewrite (ping_miss p s Hs Hget Hport). unfold cache_wf. cbn.
           match goal with |- context [LRUCache.set ?c ?k ?v ?t] =>
             destruct (lru_set_opts c k v t) as (-> & -> & ->)
           end.
           destruct (lru_get_opts (_requestsCache s) (rckey_of p) (clock s))
             as (-> & -> & ->). exact Hc.
        -- rewrite (ping_unsendable p s Hs Hget Hport). unfold cache_wf. cbn.
           destruct (lru_get_opts (_requestsCache s) (rckey_of p) (clock s))
             as (-> & -> & ->). exact Hc.
    + rewrite (ping_destroyed p s Hs). exact Hc.
  - inversion Hstep; subst. destruct (_socket s) as [[]|] eqn:Hs.
    + destruct (valid_port (udpPort p)) eqn:Hport.
      * rewrite (findneighbours_alive p target s Hs Hport). exact Hc.
      * rewrite (findneighbours_unsendable p target s Hs Hport). exact Hc.
    + rewrite (findneighbours_destroyed p target s Hs). exact Hc.
Qed.

Lemma reachable_cache_wf (s : Server.t) : reachable s -> cache_wf s.
Proof.
  induction 1 as [dpt pk timeout endpoint time|a s s' Hr IH Hstep].
  - repeat split.
  - eapply step_cache_wf; eauto.
Qed.

Lemma rckey_same (p q : Peer) :
  address p = address q -> udpPort p = udpPort q -> rckey_of p = rckey_of q.
Proof. intros Ha Hu. unfold rckey_of. rewrite Ha, Hu. reflexivity. Qed.


(** After a [get] that found nothing fresh, the key has no entry. *)
Lemma lru_find_removed {V : Type} (k : string) (l : list (LRUCache.Entry V)) :
  LRUCache.find k (LRUCache.remove k l) = None.
Proof.
  unfold LRUCache.find, LRUCache.remove. induction l as [|e l IH]; cbn; [reflexivity|].
  destruct (String.eqb (LRUCache.key e) k) eqn:He; cbn; [exact IH|].
  rewrite He. exact IH.
Qed.

Lemma lru_get_absent {V : Type} (c : LRUCache.t V) (k : string) (t : Z) :
  LRUCache.find k (LRUCache.lruList c) = None -> LRUCache.get c k t = (c, None).
Proof. intros Hf. unfold LRUCache.get. rewrite Hf. reflexivity. Qed.

Lemma lru_get_miss {V : Type} (c : LRUCache.t V) (k : string) (t : Z) :
  snd (LRUCache.get c k t) = None ->
  LRUCache.find k (LRUCache.lruList (fst (LRUCache.get c k t))) = None.
Proof.
  unfold LRUCache.get.
  destruct (LRUCache.find k (LRUCache.lruList c)) as [hit|] eqn:Hf; [|auto].
  destruct (LRUCache.isStale c hit t); cbn; [|discriminate].
  intros _. apply lru_find_removed.
Qed.

(** Pings of a key without a cache entry, to a port that the socket does
    not accept: each of them throws, and nothing is sent, cached or
    registered. *)
Lemma pings_unsendable (calls : list (Z * Peer)) (u : Server.t) (k : string) :
  _socket u = Some tt ->
  LRUCache.find k (LRUCache.lruList (_requestsCache u)) = None ->
  Forall (fun c => rckey_of (snd c) = k /\ valid_port (udpPort (snd c)) = false)
    calls ->
  snd (pings calls u) = repeat (Throw RangeError) (length calls)
  /\ socket (fst (pings calls u)) = socket u
  /\ _requests (fst (pings calls u)) = _requests u
  /\ timers (fst (pings calls u)) = timers u
  /\ promises (fst (pings calls u)) = promises u
  /\ _requestsCache (fst (pings calls u)) = _requestsCache u.
Proof.
  revert u. induction calls as [|[dt p] calls IH]; intros u Hs Hfind Hall.
  - cbn. auto 6.
  - inversion Hall as [|c cs [Hkey Hport] Hrest]; subst. cbn [fst snd] in Hport.
    set (u1 := set_clock (clock u + dt) u).
    assert (Hget : LRUCache.get (_requestsCache u1) (rckey_of p) (clock u1)
                   = (_requestsCache u1, None))
      by (apply lru_get_absent; exact Hfind).
    assert (Hping : ping p u1
                    = (set_requestsCache (_requestsCache u1) u1, Throw RangeError)).
    { rewrite (ping_unsendable p u1 Hs); [|rewrite Hget; reflexivity|exact Hport].
      rewrite Hget. reflexivity. }
    cbn [pings]. fold u1. rewrite Hping.
    set (u2 := set_requestsCache _ u1).
    destruct (IH u2 Hs Hfind Hrest) as (Hres & Hso & Hrq & Htm & Hpr & Hca).
    rewrite (surjective_pairing (pings calls u2)). cbn [fst snd length repeat].
    rewrite Hres, Hso, Hrq, Htm, Hpr, Hca. repeat split.
Qed.


End ServerFacts.

(** ** Key derivation, for any key length *)

Section KDFRounds.
Context `{Primitives}.

(** The loop test [counter <= reps], in integers. *)
Lemma reps_le (counter keyLength : Z) :
  Qle_bool (inject_Z counter) (reps keyLength) = (counter <=? (keyLength + 7) / 64).
Proof.
  unfold reps, SHA256BlockSize, Qle_bool, Qdiv, Qmult, Qinv, inject_Z. simpl.
  pose proof (Z.div_mod (keyLength + 7) 64 ltac:(lia)) as Hdm.
  pose proof (Z.mod_pos_bound (keyLength + 7) 64 ltac:(lia)) as Hb.
  destruct (Z.leb_spec counter ((keyLength + 7) / 64));
    [apply Z.leb_le|apply Z.leb_gt]; lia.
Qed.

(** The loop from [counter] on, with [n] rounds left. *)
Lemma concatKDF_loop_rounds (n fuel : nat) (km : bytes) (keyLength counter : Z)
    (bufs : list bytes) :
  counter + Z.of_nat n = (keyLength + 7) / 64 + 1 ->
  (n <= fuel)%nat ->
  concatKDF_loop fuel km (reps keyLength) counter bufs
  = bufs ++ map (fun i => sha256 (Buffer.writeUInt32BE (counter + Z.of_nat i + 1) ++ km))
              (seq 0 n).
Proof.
  revert fuel counter bufs. induction n as [|n IH]; intros fuel counter bufs Hc Hf.
  - cbn [seq map]. rewrite app_nil_r. destruct fuel as [|fuel]; [reflexivity|].
    cbn [concatKDF_loop]. rewrite reps_le.
    destruct (Z.leb_spec counter ((keyLength + 7) / 64)); [lia|reflexivity].
  - destruct fuel as [|fuel]; [lia|]. cbn [concatKDF_loop]. rewrite reps_le.
    destruct (Z.leb_spec counter ((keyLength + 7) / 64)); [|lia].
    rewrite (IH fuel (counter + 1)) by lia.
    cbn [seq map]. rewrite <- app_assoc. cbn [app]. f_equal.
    rewrite Z.add_0_r. f_equal.
    rewrite <- seq_shift, map_map. apply map_ext. intros i.
    do 3 f_equal. lia.
Qed.

(** The buffers that the loop has pushed when it leaves. *)
Lemma concatKDF_buffers_rounds (keyMaterial : bytes) (keyLength : Z) :
  0 <= keyLength < 2 ^ 32 ->
  concatKDF_buffers keyMaterial keyLength
  = map (fun i => sha256 (Buffer.writeUInt32BE (Z.of_nat i + 1) ++ keyMaterial))
      (seq 0 (Z.to_nat ((keyLength + 7) / 64 + 1))).
Proof.
  intros Hl. unfold concatKDF_buffers.
  pose proof (Z.div_pos (keyLength + 7) 64 ltac:(lia) ltac:(lia)) as Hq.
  assert (Hub : (keyLength + 7) / 64 <= keyLength).
  { pose proof (Z.div_mod (keyLength + 7) 64 ltac:(lia)).
    pose proof (Z.mod_pos_bound (keyLength + 7) 64 ltac:(lia)). lia. }
  rewrite (concatKDF_loop_rounds (Z.to_nat ((keyLength + 7) / 64 + 1))) by lia.
  reflexivity.
Qed.

(** X1: [concatKDF] runs [(keyLength + 7) / 64 + 1] rounds of SHA-256 (the
    quotient rounded down), round [i] hashing the counter [i], from 1 on,
    written on four bytes before the key material; the key is what
    [slice(0, keyLength)] keeps of the digests in a row. *)
Theorem concatKDF_rounds (keyMaterial : bytes) (keyLength : Z) :
  0 <= keyLength < 2 ^ 32 ->
  let rounds := Z.to_nat ((keyLength + 7) / 64 + 1) in
  let digest i := sha256 (Buffer.writeUInt32BE (Z.of_nat i + 1) ++ keyMaterial) in
  concatKDF_buffers keyMaterial keyLength = map digest (seq 0 rounds)
  /\ length (concatKDF_buffers keyMaterial keyLength) = rounds
  /\ concatKDF keyMaterial keyLength
     = Buffer.slice (concat (map digest (seq 0 rounds))) 0 keyLength.
Proof.
  intros Hl rounds digest. unfold concatKDF.
  rewrite (concatKDF_buffers_rounds keyMaterial keyLength Hl).
  split; [reflexivity|]. split; [|reflexivity].
  rewrite length_map, length_seq. reflexivity.
Qed.

Hypothesis sha256_length : forall m, length (sha256 m) = 32%nat.

Lemma concat_digests_length (f : nat -> bytes) (l : list nat) :
  (forall i, length (f i) = 32%nat) ->
  length (concat (map f l)) = (32 * length l)%nat.
Proof.
  intros Hf. induction l as [|x l IH]; [reflexivity|].
  cbn [map concat]. rewrite length_app, Hf, IH. cbn [length]. lia.
Qed.

(** X2: The derived key has [keyLength] bytes only if the rounds produce as
    many: the round count follows the 64-byte block size while a round
    gives 32 bytes, so the key comes out short for the lengths 33 to 56
    (and again from 65 on).  Up to 32 bytes it is a prefix of the first
    digest. *)
Theorem concatKDF_length (keyMaterial : bytes) (keyLength : Z) :
  0 <= keyLength < 2 ^ 32 ->
  Z.of_nat (length (concatKDF keyMaterial keyLength))
  = Z.min keyLength (32 * ((keyLength + 7) / 64 + 1))
  /\ (keyLength <= 32 ->
      concatKDF keyMaterial keyLength
      = Buffer.slice (sha256 (Buffer.writeUInt32BE 1 ++ keyMaterial)) 0 keyLength
      /\ Z.of_nat (length (concatKDF keyMaterial keyLength)) = keyLength)
  /\ (32 < keyLength < 57 ->
      concatKDF keyMaterial keyLength = sha256 (Buffer.writeUInt32BE 1 ++ keyMaterial)
      /\ Z.of_nat (length (concatKDF keyMaterial keyLength)) = 32)
  /\ (64 < keyLength ->
      Z.of_nat (length (concatKDF keyMaterial keyLength)) < keyLength).
Proof.
  intros Hl. unfold concatKDF.
  rewrite (concatKDF_buffers_rounds keyMaterial keyLength Hl).
  pose proof (Z.div_pos (keyLength + 7) 64 ltac:(lia) ltac:(lia)) as Hq.
  assert (Hlen : Z.of_nat (length (concat (map
             (fun i => sha256 (Buffer.writeUInt32BE (Z.of_nat i + 1) ++ keyMaterial))
             (seq 0 (Z.to_nat ((keyLength + 7) / 64 + 1))))))
           = 32 * ((keyLength + 7) / 64 + 1)).
  { rewrite concat_digests_length by (intros i; apply sha256_length).
    rewrite length_seq. lia. }
  assert (Hslice : forall b : bytes,
            Z.of_nat (length (Buffer.slice b 0 keyLength))
            = Z.min keyLength (Z.of_nat (length b))).
  { intros b. unfold Buffer.slice, Buffer.clamp_index.
    destruct (Z.ltb_spec 0 0); [lia|]. destruct (Z.ltb_spec keyLength 0); [lia|].
    rewrite length_take, length_drop. lia. }
  split; [rewrite Hslice, Hlen; reflexivity|]. split; [|split].
  - intros H32.
    assert (Hone : (keyLength + 7) / 64 = 0) by (apply Z.div_small; lia).
    rewrite Hone. change (Z.to_nat (0 + 1)) with 1%nat. cbn [seq map concat].
    rewrite app_nil_r. change (Z.of_nat 0 + 1) with 1.
    split; [reflexivity|]. rewrite Hslice, sha256_length. lia.
  - intros H57.
    assert (Hone : (keyLength + 7) / 64 = 0) by (apply Z.div_small; lia).
    rewrite Hone. change (Z.to_nat (0 + 1)) with 1%nat. cbn [seq map concat].
    rewrite app_nil_r. change (Z.of_nat 0 + 1) with 1.
    rewrite slice_all by (rewrite sha256_length; lia).
    split; [reflexivity|]. rewrite sha256_length. reflexivity.
  - intros H64. rewrite Hslice, Hlen.
    pose proof (Z.div_mod (keyLength + 7) 64 ltac:(lia)).
    pose proof (Z.mod_pos_bound (keyLength + 7) 64 ltac:(lia)). lia.
Qed.

End KDFRounds.

(** ** Frames: what the methods touch, and what they do not check *)

Section FrameEffects.
Context `{Primitives}.
Import ECIES.

Ltac frame_run :=
  unfold parseHeader, parseBody, createHeader, createBody,
    ingressAes_update, egressAes_update, on_ingressMac, on_egressMac,
    field, util.assertEq, bindM, gets, modify, need, ret, throw;
  cbn.

(** X3: Writing a frame works on the egress half of the object and reading on
    the ingress half, whatever the input and whether the call returns or
    throws: the two directions of a connection do not disturb each
    other. *)
Theorem frame_methods_keep_other_direction (e : ECIES.t) (size : Z) (data : bytes) :
  (let e' := fst (createHeader size e) in
   e' = set_egressMac (_egressMac e') (set_egressAes (_egressAes e') e))
  /\ (let e' := fst (createBody data e) in
      e' = set_egressMac (_egressMac e') (set_egressAes (_egressAes e') e))
  /\ (let e' := fst (parseHeader data e) in
      e' = set_bodySize (_bodySize e')
             (set_ingressMac (_ingressMac e') (set_ingressAes (_ingressAes e') e)))
  /\ (let e' := fst (parseBody data e) in
      e' = set_bodySize (_bodySize e')
             (set_ingressMac (_ingressMac e') (set_ingressAes (_ingressAes e') e))).
Proof.
  destruct e as [pk pub rpk n rn im rim ia ea imac emac epk epub repk ess bs].
  repeat apply conj; frame_run.
  - destruct ea as [c|]; [|reflexivity]. cbn. destruct emac as [m|]; reflexivity.
  - destruct ea as [c|]; [|reflexivity]. cbn. destruct emac as [m|]; reflexivity.
  - destruct imac as [m|]; [|reflexivity]. cbn.
    destruct (decide _); [|reflexivity]. cbn. destruct ia as [c|]; reflexivity.
  - destruct bs as [size'|]; [|reflexivity]. cbn.
    destruct imac as [m|]; [|reflexivity]. cbn.
    destruct (decide _); [|reflexivity]. cbn. destruct ia as [c|]; reflexivity.
Qed.

(** X4: An object that has not been through the handshake has no frame state:
    its frame methods throw and leave it as it is, and so do [createAuth]
    and [createAck] when it was made without a remote id. *)
Theorem frame_methods_need_handshake (privateKey id : bytes) (remoteId : option bytes)
    (nonce ephemeralPrivateKey : bytes) (e : ECIES.t) (size : Z) (data : bytes) :
  ECIES.new privateKey id remoteId nonce ephemeralPrivateKey = Return e ->
  createHeader size e = (e, Throw TypeError)
  /\ createBody data e = (e, Throw TypeError)
  /\ parseHeader data e = (e, Throw TypeError)
  /\ parseBody data e = (e, Throw (Thrown "need to parse header first"))
  /\ (remoteId = None ->
      forall r IV, createAuth r IV e = (e, Throw TypeError)
                   /\ createAck r IV e = (e, Throw TypeError)).
Proof.
  unfold ECIES.new. destruct (publicKeyCreate ephemeralPrivateKey) as [epub|];
    [|discriminate].
  intros He. inversion He; subst. clear He.
  repeat apply conj; try reflexivity.
  intros -> r IV. split; reflexivity.
Qed.

Lemma slice_0_firstn (b : bytes) (n : Z) :
  0 <= n -> Buffer.slice b 0 n = firstn (Z.to_nat n) b.
Proof.
  intros Hn. unfold Buffer.slice, Buffer.clamp_index.
  change (0 <? 0) with false. cbv iota.
  replace (n <? 0) with false by (symmetry; apply Z.ltb_ge; lia).
  rewrite (Z.min_l 0) by lia. change (Z.to_nat 0) with 0%nat. rewrite drop_0.
  rewrite Z.sub_0_r.
  destruct (Z.le_ge_cases n (Z.of_nat (length b))).
  - rewrite Z.min_l by lia. reflexivity.
  - rewrite Z.min_r by lia. rewrite Nat2Z.id.
    rewrite !firstn_all2 by lia. reflexivity.
Qed.

(** X5: [parseBody] cuts the decrypted body at the size the header gave and
    compares the two nowhere: a body shorter than announced is returned as
    it is, one longer is cut, and neither throws. *)
Theorem parseBody_ignores_body_length (e : ECIES.t) (c : Cipher) (m : MAC.t)
    (size : Z) (data : bytes) :
  _ingressAes e = Some c -> _ingressMac e = Some m -> _bodySize e = Some size ->
  0 <= size ->
  let body := Buffer.slice data 0 (-16) in
  MAC.digest (MAC.updateBody m body) = Buffer.slice_from data (-16) ->
  exists e' out,
    parseBody data e = (e', Return out)
    /\ out = firstn (Z.to_nat size) (snd (cipher_update c body))
    /\ Z.of_nat (length body) = Z.max 0 (Z.of_nat (length data) - 16)
    /\ Z.of_nat (length out) = Z.min size (Z.of_nat (length body))
    /\ _bodySize e' = None
    /\ (cipher_pos <$> _ingressAes e') = Some (cipher_pos c + length body)%nat.
Proof.
  intros Hc Hm Hs Hsize body Hmac.
  rewrite (parseBody_run e c m size data Hc Hm Hs Hmac). fold body.
  eexists _, _. split; [reflexivity|].
  assert (Hout : Buffer.slice (snd (cipher_update c body)) 0 size
                 = firstn (Z.to_nat size) (snd (cipher_update c body)))
    by (apply slice_0_firstn; exact Hsize).
  assert (Hbody : Z.of_nat (length body) = Z.max 0 (Z.of_nat (length data) - 16)).
  { subst body. unfold Buffer.slice, Buffer.clamp_index.
    destruct (Z.ltb_spec 0 0); [lia|]. destruct (Z.ltb_spec (-16) 0); [|lia].
    rewrite length_take, length_drop. lia. }
  split; [exact Hout|]. split; [exact Hbody|]. split.
  - rewrite Hout, length_take, cipher_update_length. lia.
  - split; reflexivity.
Qed.

(** ** Sizes that do not fit the header *)

Lemma be_bytes_4 (n : Z) :
  Buffer.be_bytes 4 n = Buffer.be_bytes 3 (n / 256) ++ [byte.of_Z n].
Proof.
  cbn [Buffer.be_bytes app]. change (Z.of_nat 3) with 3. change (Z.of_nat 2) with 2.
  change (Z.of_nat 1) with 1. change (Z.of_nat 0) with 0.
  rewrite !Z.div_div by lia. rewrite Z.div_1_r. reflexivity.
Qed.

Lemma intToBuffer_4 (n : Z) :
  2 ^ 24 <= n < 2 ^ 32 -> intToBuffer n = Buffer.be_bytes 4 n.
Proof.
  intros Hn. unfold intToBuffer.
  assert (Hlog : 24 <= Z.log2 n < 32).
  { split; [apply Z.log2_le_pow2; lia|apply Z.log2_lt_pow2; lia]. }
  replace (Z.log2 n / 8) with 3; [reflexivity|].
  apply (Z.div_unique _ 8 3 (Z.log2 n - 24)); lia.
Qed.

Hypothesis keccak_length : forall m, length (keccak m) = 32%nat.
Hypothesis rlp_length : (length rlp_encode_0_0 <= 12)%nat.

Lemma mac_digest_16 (m : MAC.t) : length (MAC.digest m) = 16%nat.
Proof.
  clear rlp_length. unfold MAC.digest.
  rewrite slice_inside by (rewrite ?keccak_length; lia).
  rewrite length_take, length_drop, keccak_length. lia.
Qed.

(** The header of a size of four bytes, written and read. *)
Lemma oversized_header_run (sender receiver : ECIES.t) (c : Cipher) (m : MAC.t)
    (size : Z) :
  _egressAes sender = Some c -> _ingressAes receiver = Some c ->
  _egressMac sender = Some m -> _ingressMac receiver = Some m ->
  2 ^ 24 <= size < 2 ^ 32 ->
  exists sender1 header,
    createHeader size sender = (sender1, Return header)
    /\ length header = 32%nat
    /\ exists receiver1,
         parseHeader header receiver = (receiver1, Return (size / 256))
         /\ _bodySize receiver1 = Some (size / 256).
Proof.
  intros Hec Hic Hem Him Hn.
  set (h := util.zfill (util.zfill (intToBuffer size) 3 true ++ rlp_encode_0_0)
              16 false).
  set (enc := snd (cipher_update c h)).
  set (m1 := MAC.updateHeader m enc).
  assert (Hh : length h = 16%nat /\ bufferToInt (Buffer.slice h 0 3) = size / 256).
  { subst h. rewrite (intToBuffer_4 size Hn).
    assert (Hz : util.zfill (Buffer.be_bytes 4 size) 3 true = Buffer.be_bytes 4 size).
    { unfold util.zfill. rewrite be_bytes_length. reflexivity. }
    rewrite Hz, be_bytes_4. unfold util.zfill.
    rewrite !length_app, be_bytes_length. cbn [length].
    destruct (Z.leb_spec 16 (Z.of_nat (3 + 1 + length rlp_encode_0_0))) as [Hge|Hlt].
    - split; [rewrite !length_app, be_bytes_length; cbn [length]; lia|].
      rewrite <- !app_assoc. rewrite slice_app_l by (rewrite be_bytes_length; lia).
      rewrite bufferToInt_be_bytes by (apply Z.div_pos; lia). change (256 ^ Z.of_nat 3) with (2 ^ 24).
      apply Z.mod_small. split; [apply Z.div_pos; lia|].
      apply Z.div_lt_upper_bound; lia.
    - split; [rewrite !length_app, be_bytes_length, zeros_length; cbn [length]; lia|].
      rewrite <- !app_assoc. rewrite slice_app_l by (rewrite be_bytes_length; lia).
      rewrite bufferToInt_be_bytes by (apply Z.div_pos; lia). change (256 ^ Z.of_nat 3) with (2 ^ 24).
      apply Z.mod_small. split; [apply Z.div_pos; lia|].
      apply Z.div_lt_upper_bound; lia. }
  destruct Hh as [Hhlen Hhval].
  assert (Henc : length enc = 16%nat)
    by (subst enc; rewrite cipher_update_length; exact Hhlen).
  pose proof (mac_digest_16 m1) as Hdig.
  assert (Hs0 : Buffer.slice (enc ++ MAC.digest m1) 0 16 = enc)
    by (apply slice_app_l; lia).
  assert (Hs1 : Buffer.slice (enc ++ MAC.digest m1) 16 32 = MAC.digest m1)
    by (apply slice_app_r; rewrite ?Hdig; lia).
  exists (set_egressMac (Some m1)
            (set_egressAes (Some (fst (cipher_update c h))) sender)).
  exists (enc ++ MAC.digest m1).
  split; [apply createHeader_run; assumption|].
  split; [rewrite length_app, Hdig; lia|].
  eexists.
  rewrite (parseHeader_run receiver c m (enc ++ MAC.digest m1) Hic Him);
    rewrite Hs0; [|exact (eq_sym Hs1)].
  subst enc. rewrite cipher_update_inverse. cbn [fst snd]. rewrite Hhval.
  split; reflexivity.
Qed.

(** X6: [createHeader] does not bound the size it is given: a size of four
    bytes is written whole, and [parseHeader], which reads three, returns
    the size without its lowest byte. *)
Theorem oversized_header_is_misread (sender receiver : ECIES.t) (size : Z) :
  mirrored sender receiver ->
  2 ^ 24 <= size < 2 ^ 32 ->
  exists sender1 receiver1 header,
    createHeader size sender = (sender1, Return header)
    /\ length header = 32%nat
    /\ parseHeader header receiver = (receiver1, Return (size / 256))
    /\ _bodySize receiver1 = Some (size / 256)
    /\ size / 256 < size.
Proof.
  intros [(c & Hec & Hic) (m & Hem & Him)] Hn.
  destruct (oversized_header_run sender receiver c m size Hec Hic Hem Him Hn)
    as (sender1 & header & Hcreate & Hlen & receiver1 & Hparse & Hsize).
  exists sender1, receiver1, header. split; [exact Hcreate|].
  split; [exact Hlen|]. split; [exact Hparse|]. split; [exact Hsize|].
  apply Z.div_lt; lia.
Qed.

(** A frame of [2^24] bytes or more does not arrive, even between mirrored
    states: the size that the receiver reads from the header is not the
    frame's. *)
Lemma oversized_frame_is_lost (sender receiver sender' receiver' : ECIES.t)
    (data : bytes) :
  mirrored sender receiver ->
  2 ^ 24 <= Z.of_nat (length data) < 2 ^ 32 ->
  ~ frame_transfer sender receiver data sender' receiver'.
Proof.
  intros [(c & Hec & Hic) (m & Hem & Him)] Hn
    (s1 & r1 & header & body & Hc & Hp & _).
  destruct (oversized_header_run sender receiver c m (Z.of_nat (length data))
              Hec Hic Hem Him Hn)
    as (s1' & header' & Hcreate & _ & receiver1 & Hparse & _).
  rewrite Hc in Hcreate. injection Hcreate as _ <-.
  rewrite Hp in Hparse. injection Hparse as _ Hsize.
  assert (Z.of_nat (length data) / 256 < Z.of_nat (length data))
    by (apply Z.div_lt; lia).
  lia.
Qed.

End FrameEffects.

(** ** The envelope and the handshake packets: what is checked *)

Section EnvelopeChecks.
Context `{Primitives}.
Import ECIES.

Ltac hs_step :=
  cbn -[_encryptMessage _decryptMessage _setupFrame ecdhX util.xor
        util.keccak256 util.pk2id util.id2pk concat app Buffer.slice
        Buffer.slice_from length decide byte.of_Z byte.unsigned Z.of_nat
        concatKDF].

Ltac hs_step_in Hp :=
  cbn -[_encryptMessage _decryptMessage _setupFrame ecdhX util.xor
        util.keccak256 util.pk2id util.id2pk concat app Buffer.slice
        Buffer.slice_from length decide byte.of_Z byte.unsigned Z.of_nat
        concatKDF] in Hp.

(** The envelope codec reads the object and never writes it. *)
Lemma encryptMessage_reads (r IV data : bytes) (e : ECIES.t) :
  fst (_encryptMessage r IV data e) = e.
Proof.
  unfold _encryptMessage, field, bindM, gets, need, ret, throw. cbn.
  destruct (_remotePublicKey e) as [pk|]; [|reflexivity]. cbn.
  destruct (ecdhX pk r) as [x|]; [|reflexivity]. cbn.
  destruct (createCipheriv 128 _ IV) as [c|]; [|reflexivity]. cbn.
  destruct (publicKeyCreate r); reflexivity.
Qed.

Lemma decryptMessage_reads (data : bytes) (e : ECIES.t) :
  fst (_decryptMessage data e) = e.
Proof.
  unfold _decryptMessage, util.assertEq, bindM, gets, need, ret, throw. cbn.
  destruct (ecdhX _ (_privateKey e)) as [x|]; [|reflexivity]. cbn.
  destruct (decide _); [|reflexivity]. cbn.
  destruct (createDecipheriv 128 _ _); reflexivity.
Qed.

Lemma decryptMessage_result (data : bytes) (e : ECIES.t) :
  _decryptMessage data e = (e, snd (_decryptMessage data e)).
Proof.
  rewrite <- (decryptMessage_reads data e) at 2. apply surjective_pairing.
Qed.

(** X7: An envelope whose last 32 bytes are not the HMAC of the bytes between
    the sender's key and the tag is refused before anything is decrypted;
    [_decryptMessage] never changes the object, [parseAck] leaves it as it
    was, and [parseAuth] has only stored the packet. *)
Theorem decryptMessage_rejects_bad_tag (e : ECIES.t) (data x : bytes) :
  ecdhX (Buffer.slice data 0 65) (_privateKey e) = Some x ->
  hmac_sha256 (sha256 (Buffer.slice (concatKDF x 32) 16 32)) (Buffer.slice data 65 (-32))
  <> Buffer.slice_from data (-32) ->
  _decryptMessage data e = (e, Throw (Thrown "should have valid tag"))
  /\ parseAck data e = (e, Throw (Thrown "should have valid tag"))
  /\ parseAuth data e
     = (set_remoteInitMsg (Some data) e, Throw (Thrown "should have valid tag")).
Proof.
  intros Hx Htag.
  assert (Hdec : forall e', _privateKey e' = _privateKey e ->
            _decryptMessage data e' = (e', Throw (Thrown "should have valid tag"))).
  { intros e' Hpk.
    unfold _decryptMessage, util.assertEq, bindM, gets, need, ret, throw. cbn.
    rewrite Hpk, Hx. cbn. destruct (decide _) as [Heq|_]; [contradiction|reflexivity]. }
  split; [apply Hdec; reflexivity|]. split.
  - unfold parseAck, bindM. rewrite Hdec by reflexivity. reflexivity.
  - unfold parseAuth, bindM, modify. rewrite Hdec by reflexivity. reflexivity.
Qed.

(** X8: What [parseAuth] has checked when it returns: the plaintext has 194
    bytes and ends in a zero byte, a public key is recovered from the
    signature over the static shared secret XOR the sender's nonce, and the
    Keccak hash of that key is the one in the packet.  The object then
    holds the packet, the sender's key and nonce, the recovered ephemeral
    key and the ephemeral shared secret, and nothing else has changed. *)
Theorem parseAuth_accepts (e e' : ECIES.t) (data : bytes) :
  parseAuth data e = (e', Return tt) ->
  exists decypted x recoveryId rpk ess,
    snd (_decryptMessage data (set_remoteInitMsg (Some data) e)) = Return decypted
    /\ Z.of_nat (length decypted) = 194
    /\ (byte.unsigned <$> decypted !! 193%nat) = Some 0
    /\ (byte.unsigned <$> decypted !! 64%nat) = Some recoveryId
    /\ ecdhX (util.id2pk (Buffer.slice decypted 97 161)) (_privateKey e) = Some x
    /\ recover (util.xor x (Buffer.slice decypted 161 193))
         (Buffer.slice decypted 0 64) recoveryId = Some rpk
    /\ ecdhX rpk (_ephemeralPrivateKey e) = Some ess
    /\ util.keccak256 [util.pk2id rpk] = Buffer.slice decypted 65 97
    /\ e' = set_ephemeralSharedSecret (Some ess)
              (set_remoteEphemeralPublicKey (Some rpk)
                 (set_remoteNonce (Some (Buffer.slice decypted 161 193))
                    (set_remotePublicKey
                       (Some (util.id2pk (Buffer.slice decypted 97 161)))
                       (set_remoteInitMsg (Some data) e)))).
Proof.
  intros Hp.
  unfold parseAuth, field, bindM, gets, need, ret, throw, modify, util.assertEq in Hp.
  rewrite (decryptMessage_result data (set_remoteInitMsg (Some data) e)) in Hp.
  destruct (snd (_decryptMessage data (set_remoteInitMsg (Some data) e)))
    as [decypted|err] eqn:Hdec; [|discriminate].
  hs_step_in Hp.
  destruct (decide (Z.of_nat (length decypted) = 194)) as [Hlen|]; [|discriminate].
  hs_step_in Hp.
  destruct (decide ((byte.unsigned <$> decypted !! 193%nat) = Some 0)) as [Hpost|];
    [|discriminate].
  hs_step_in Hp.
  destruct (ecdhX (util.id2pk (Buffer.slice decypted 97 161)) (_privateKey e))
    as [x|] eqn:Hx; [|discriminate].
  hs_step_in Hp.
  destruct (byte.unsigned <$> decypted !! 64%nat) as [recoveryId|] eqn:Hrec;
    [|discriminate].
  hs_step_in Hp.
  destruct (recover (util.xor x (Buffer.slice decypted 161 193))
              (Buffer.slice decypted 0 64) recoveryId) as [rpk|] eqn:Hrpk;
    [|discriminate].
  hs_step_in Hp.
  destruct (ecdhX rpk (_ephemeralPrivateKey e)) as [ess|] eqn:Hess; [|discriminate].
  hs_step_in Hp.
  destruct (decide (util.keccak256 [util.pk2id rpk] = Buffer.slice decypted 65 97))
    as [Hheid|]; [|discriminate].
  inversion Hp; subst. clear Hp.
  exists decypted, x, recoveryId, rpk, ess. repeat split; assumption.
Qed.

(** [_setupFrame] returns only when the nonces, the ephemeral shared
    secret and the two handshake packets are there and the AES secret is
    a key of 32 bytes, and then it has set the four frame fields and
    nothing else. *)
Lemma setupFrame_accepts (s s' : ECIES.t) (remoteData : option bytes) (incoming : bool) :
  _setupFrame remoteData incoming s = (s', Return tt) ->
  exists remoteNonce ess initMsg data,
    _remoteNonce s = Some remoteNonce /\ _ephemeralSharedSecret s = Some ess
    /\ _initMsg s = Some initMsg /\ remoteData = Some data
    /\ let nonceMaterial :=
         if incoming then _nonce s ++ remoteNonce else remoteNonce ++ _nonce s in
       let hNonce := util.keccak256 [nonceMaterial] in
       let sharedSecret := util.keccak256 [ess; hNonce] in
       let aesSecret := util.keccak256 [ess; sharedSecret] in
       let macSecret := util.keccak256 [ess; aesSecret] in
       let aes := {| cipher_key := aesSecret; cipher_iv := Buffer.zeros 16;
                     cipher_pos := 0 |} in
       length aesSecret = 32%nat
       /\ s' = set_egressMac
                 (Some (MAC.update (MAC.new macSecret)
                          (util.xor macSecret remoteNonce ++ initMsg)))
                 (set_ingressMac
                    (Some (MAC.update (MAC.new macSecret)
                             (util.xor macSecret (_nonce s) ++ data)))
                    (set_egressAes (Some aes) (set_ingressAes (Some aes) s))).
Proof.
  intros Hp.
  unfold _setupFrame, on_ingressMac, on_egressMac, field, bindM, gets, modify,
    need, ret, throw in Hp.
  destruct (_remoteNonce s) as [remoteNonce|] eqn:Hrn; [|discriminate].
  cbn [fst snd] in Hp.
  destruct (_ephemeralSharedSecret s) as [ess|] eqn:Hess; [|discriminate].
  cbn [fst snd] in Hp.
  unfold createDecipheriv, createCipheriv in Hp.
  match type of Hp with context [Z.of_nat (length ?k) =? 256 / 8] =>
    destruct (Z.eqb_spec (Z.of_nat (length k)) (256 / 8)) as [Hk|]; [|discriminate]
  end.
  rewrite zeros_length in Hp. change (Z.of_nat 16 =? 16) with true in Hp. cbn in Hp.
  destruct remoteData as [data|]; [|discriminate]. cbn in Hp.
  destruct (_initMsg s) as [initMsg|] eqn:Hinit; [|discriminate]. cbn in Hp.
  inversion Hp; subst. clear Hp.
  exists remoteNonce, ess, initMsg, data.
  split; [reflexivity|]. split; [reflexivity|]. split; [reflexivity|].
  split; [reflexivity|]. cbv zeta. split; [|reflexivity].
  change (256 / 8) with 32 in Hk. lia.
Qed.

(** X9: What [parseAck] has checked when it returns: the plaintext has 97
    bytes and ends in a zero byte, and the first 64 are the id of a public
    key with which the ephemeral shared secret can be computed; nothing in
    the packet is signed.  The object then holds that key, the responder's
    nonce and the shared secret, and its frame state is set up. *)
Theorem parseAck_accepts (e e' : ECIES.t) (data : bytes) :
  parseAck data e = (e', Return tt) ->
  exists decypted ess initMsg,
    snd (_decryptMessage data e) = Return decypted
    /\ Z.of_nat (length decypted) = 97
    /\ (byte.unsigned <$> decypted !! 96%nat) = Some 0
    /\ ecdhX (util.id2pk (Buffer.slice decypted 0 64)) (_ephemeralPrivateKey e) = Some ess
    /\ _initMsg e = Some initMsg
    /\ _remoteEphemeralPublicKey e' = Some (util.id2pk (Buffer.slice decypted 0 64))
    /\ _remoteNonce e' = Some (Buffer.slice decypted 64 96)
    /\ _ephemeralSharedSecret e' = Some ess
    /\ _setupFrame (Some data) false
         (set_ephemeralSharedSecret (Some ess)
            (set_remoteNonce (Some (Buffer.slice decypted 64 96))
               (set_remoteEphemeralPublicKey
                  (Some (util.id2pk (Buffer.slice decypted 0 64))) e)))
       = (e', Return tt)
    /\ is_Some (_ingressAes e') /\ is_Some (_egressAes e')
    /\ is_Some (_ingressMac e') /\ is_Some (_egressMac e').
Proof.
  intros Hp.
  unfold parseAck, field, bindM, gets, need, ret, throw, modify, util.assertEq in Hp.
  rewrite (decryptMessage_result data e) in Hp.
  destruct (snd (_decryptMessage data e)) as [decypted|err] eqn:Hdec; [|discriminate].
  hs_step_in Hp.
  destruct (decide (Z.of_nat (length decypted) = 97)) as [Hlen|]; [|discriminate].
  hs_step_in Hp.
  destruct (decide ((byte.unsigned <$> decypted !! 96%nat) = Some 0)) as [Hpost|];
    [|discriminate].
  hs_step_in Hp.
  destruct (ecdhX (util.id2pk (Buffer.slice decypted 0 64)) (_ephemeralPrivateKey e))
    as [ess|] eqn:Hess; [|discriminate].
  hs_step_in Hp.
  destruct (setupFrame_accepts _ _ _ _ Hp)
    as (rn & ess' & initMsg & d & Hrn & Hess' & Hinit & Hd & Hs').
  cbv zeta in Hs'. destruct Hs' as [_ Hs'].
  cbn in Hrn, Hess', Hinit. inversion Hrn; subst rn. inversion Hess'; subst ess'.
  exists decypted, ess, initMsg.
  split; [reflexivity|]. split; [exact Hlen|]. split; [exact Hpost|].
  split; [exact Hess|]. split; [exact Hinit|].
  split; [subst e'; reflexivity|]. split; [subst e'; reflexivity|].
  split; [subst e'; reflexivity|]. split; [exact Hp|].
  subst e'. cbn. repeat split; eauto.
Qed.

End EnvelopeChecks.

(** ** The handshake packets, one by one *)

Section HandshakePackets.
Context `{Primitives}.
Import ECIES.

Ltac hp_step :=
  cbn -[_encryptMessage _decryptMessage _setupFrame ecdhX util.xor
        util.keccak256 util.pk2id util.id2pk concat app Buffer.slice
        Buffer.slice_from length decide byte.of_Z byte.unsigned Z.of_nat
        concatKDF].

Ltac hp_step_in Hp :=
  cbn -[_encryptMessage _decryptMessage _setupFrame ecdhX util.xor
        util.keccak256 util.pk2id util.id2pk concat app Buffer.slice
        Buffer.slice_from length decide byte.of_Z byte.unsigned Z.of_nat
        concatKDF] in Hp.

Hypothesis sha256_length : forall m, length (sha256 m) = 32%nat.
Hypothesis hmac_length : forall k m, length (hmac_sha256 k m) = 32%nat.
Hypothesis keccak_length : forall m, length (keccak m) = 32%nat.
Hypothesis publicKey_format :
  forall k pk, key_pair k pk ->
    exists id, pk = Byte.x04 :: id /\ length id = 64%nat.
Hypothesis ecdh_agree :
  forall a pa b pb, key_pair a pa -> key_pair b pb ->
    exists z, ecdhUnsafe pb a = Some z /\ ecdhUnsafe pa b = Some z
              /\ length z = 33%nat.
Hypothesis sign_recover :
  forall msg k pk, length msg = 32%nat -> key_pair k pk ->
    exists sig rec, sign msg k = Some (sig, rec) /\ length sig = 64%nat
                    /\ 0 <= rec < 256 /\ recover msg sig rec = Some pk.

Lemma key_65 (k pk : bytes) : key_pair k pk -> length pk = 65%nat.
Proof.
  intros Hk. destruct (publicKey_format k pk Hk) as (id & -> & Hid).
  cbn [length]. lia.
Qed.

Lemma shared_x (a pa b pb : bytes) :
  key_pair a pa -> key_pair b pb ->
  exists x, ecdhX pb a = Some x /\ ecdhX pa b = Some x /\ length x = 32%nat.
Proof.
  intros Ha Hb. destruct (ecdh_agree a pa b pb Ha Hb) as (z & Hz1 & Hz2 & Hz).
  exists (Buffer.slice_from z 1). unfold ecdhX. rewrite Hz1, Hz2.
  split; [reflexivity|]. split; [reflexivity|].
  unfold Buffer.slice_from. rewrite slice_inside by lia.
  rewrite length_take, length_drop. lia.
Qed.

(** The envelope around a plaintext of [n] bytes has [n + 113]. *)
Lemma envelope_length (R IV C tag : bytes) (n : nat) :
  length R = 65%nat -> length IV = 16%nat -> length C = n -> length tag = 32%nat ->
  length (R ++ (IV ++ C) ++ tag) = (n + 113)%nat
  /\ Buffer.slice (R ++ (IV ++ C) ++ tag) 0 65 = R
  /\ Buffer.slice (R ++ (IV ++ C) ++ tag) 65 81 = IV.
Proof.
  intros HR HIV HC Htag. split; [|split].
  - rewrite !length_app. lia.
  - apply slice_app_l. lia.
  - rewrite <- !app_assoc. apply slice_app_mid; lia.
Qed.

(** The auth packet and its plaintext. *)
Lemma createAuth_run (e : ECIES.t) (privR pubR rA RA ivA : bytes) :
  well_keyed e -> key_pair privR pubR -> _remotePublicKey e = Some pubR ->
  key_pair rA RA -> length ivA = 16%nat ->
  exists x sg rc C tag,
    ecdhX pubR (_privateKey e) = Some x
    /\ ecdhX (_publicKey e) privR = Some x
    /\ sign (util.xor x (_nonce e)) (_ephemeralPrivateKey e) = Some (sg, rc)
    /\ length sg = 64%nat /\ 0 <= rc < 256
    /\ recover (util.xor x (_nonce e)) sg rc = Some (_ephemeralPublicKey e)
    /\ length C = 194%nat /\ length tag = 32%nat
    /\ createAuth rA ivA e
       = (set_initMsg (Some (RA ++ (ivA ++ C) ++ tag)) e,
          Return (RA ++ (ivA ++ C) ++ tag))
    /\ forall receiver, _privateKey receiver = privR ->
         _decryptMessage (RA ++ (ivA ++ C) ++ tag) receiver
         = (receiver,
            Return (concat [sg; [byte.of_Z rc];
                            util.keccak256 [util.pk2id (_ephemeralPublicKey e)];
                            util.pk2id (_publicKey e); _nonce e; [Byte.x00]])).
Proof.
  intros (Hk & He & Hn) HkR Hrem HrA HivA.
  destruct (shared_x _ _ privR pubR Hk HkR) as (x & Hx1 & Hx2 & Hx).
  assert (Hmsg : length (util.xor x (_nonce e)) = 32%nat).
  { rewrite xor_length. lia. }
  destruct (sign_recover _ _ _ Hmsg He) as (sg & rc & Hsign & Hsg & Hrc & Hrec).
  set (data := concat [sg; [byte.of_Z rc];
                       util.keccak256 [util.pk2id (_ephemeralPublicKey e)];
                       util.pk2id (_publicKey e); _nonce e; [Byte.x00]]).
  destruct (encrypt_decrypt sha256_length hmac_length key_65
              (ecdh_agree_weak ecdh_agree) e privR pubR rA RA ivA data HkR HrA HivA Hrem)
    as (C & tag & Henc & HC & Htag & Hdec).
  destruct (id2pk_pk2id publicKey_format _ _ Hk) as [_ Hid].
  destruct (auth_fields sg (util.keccak256 [util.pk2id (_ephemeralPublicKey e)])
              (util.pk2id (_publicKey e)) (_nonce e) (byte.of_Z rc)
              Hsg (keccak_length _) Hid Hn) as (Hl & _).
  fold data in Hl.
  exists x, sg, rc, C, tag.
  split; [exact Hx1|]. split; [exact Hx2|]. split; [exact Hsign|].
  split; [exact Hsg|]. split; [exact Hrc|]. split; [exact Hrec|].
  split; [lia|]. split; [exact Htag|].
  split; [|exact Hdec].
  unfold createAuth, field, bindM, gets, need, ret, modify.
  rewrite Hrem. hp_step. rewrite Hx1. hp_step. rewrite Hsign. hp_step.
  fold data. rewrite Henc. reflexivity.
Qed.

(** X10: [createAuth] returns a packet of 307 bytes, the envelope of a plaintext
    of 194, which opens with the public key and the IV drawn for the
    envelope; it keeps the packet as [_initMsg] and changes nothing else. *)
Theorem createAuth_packet (e : ECIES.t) (privR pubR rA RA ivA : bytes) :
  well_keyed e -> key_pair privR pubR -> _remotePublicKey e = Some pubR ->
  key_pair rA RA -> length ivA = 16%nat ->
  exists auth,
    createAuth rA ivA e = (set_initMsg (Some auth) e, Return auth)
    /\ length auth = 307%nat
    /\ Buffer.slice auth 0 65 = RA
    /\ Buffer.slice auth 65 81 = ivA.
Proof.
  intros Hw HkR Hrem HrA HivA.
  destruct (createAuth_run e privR pubR rA RA ivA Hw HkR Hrem HrA HivA)
    as (x & sg & rc & C & tag & _ & _ & _ & _ & _ & _ & HC & Htag & Hrun & _).
  exists (RA ++ (ivA ++ C) ++ tag). split; [exact Hrun|].
  apply (envelope_length RA ivA C tag 194 (key_65 _ _ HrA) HivA HC Htag).
Qed.

(** X11: [parseAuth], by the holder of the key that an honest [createAuth]
    addressed, returns, and has learned who the initiator is: its static
    public key, its nonce, and the ephemeral public key recovered from the
    signature, with which the ephemeral shared secret is the one the
    initiator will compute.  It has stored the packet and changed nothing
    else. *)
Theorem parseAuth_learns_initiator (i i1 r : ECIES.t) (rA RA ivA auth : bytes) :
  well_keyed i -> well_keyed r ->
  _remotePublicKey i = Some (_publicKey r) ->
  key_pair rA RA -> length ivA = 16%nat ->
  createAuth rA ivA i = (i1, Return auth) ->
  exists ess,
    ecdhX (_ephemeralPublicKey i) (_ephemeralPrivateKey r) = Some ess
    /\ ecdhX (_ephemeralPublicKey r) (_ephemeralPrivateKey i) = Some ess
    /\ parseAuth auth r
       = (set_ephemeralSharedSecret (Some ess)
            (set_remoteEphemeralPublicKey (Some (_ephemeralPublicKey i))
               (set_remoteNonce (Some (_nonce i))
                  (set_remotePublicKey (Some (_publicKey i))
                     (set_remoteInitMsg (Some auth) r)))),
          Return tt).
Proof.
  intros Hwi Hwr Hrem HrA HivA Hauth.
  pose proof Hwi as (HkI & HeI & HnI). pose proof Hwr as (HkR & HeR & HnR).
  destruct (createAuth_run i _ _ rA RA ivA Hwi HkR Hrem HrA HivA)
    as (x & sg & rc & C & tag & Hx1 & Hx2 & Hsign & Hsg & Hrc & Hrec & HC & Htag
        & Hrun & Hdec).
  rewrite Hrun in Hauth. inversion Hauth; subst i1 auth. clear Hauth.
  set (auth := RA ++ (ivA ++ C) ++ tag) in *.
  destruct (shared_x _ _ _ _ HeI HeR) as (ess & Hes1 & Hes2 & _).
  destruct (id2pk_pk2id publicKey_format _ _ HkI) as [HidI HlenI].
  destruct (auth_fields sg (util.keccak256 [util.pk2id (_ephemeralPublicKey i)])
              (util.pk2id (_publicKey i)) (_nonce i) (byte.of_Z rc)
              Hsg (keccak_length _) HlenI HnI)
    as (HlA & HA0 & HA64 & HA65 & HA97 & HA161 & HA193).
  exists ess. split; [exact Hes2|]. split; [exact Hes1|].
  unfold parseAuth, field, bindM, gets, need, ret, modify, util.assertEq.
  rewrite (Hdec (set_remoteInitMsg (Some auth) r) eq_refl).
  cbv zeta in HlA, HA0, HA64, HA65, HA97, HA161, HA193.
  rewrite HlA, HA0, HA64, HA65, HA97, HA161, HA193, HidI.
  hp_step.
  rewrite byte.unsigned_of_Z. unfold byte.wrap.
  rewrite (Z.mod_small rc) by (change (2 ^ 8) with 256; lia).
  destruct (decide (194 = 194)) as [_|]; [|congruence].
  change (byte.unsigned Byte.x00) with 0.
  destruct (decide (Some 0 = Some 0)) as [_|]; [|congruence].
  hp_step.
  rewrite Hx2. hp_step. rewrite Hrec. hp_step.
  rewrite Hes2.
  destruct (decide _) as [_|]; [|congruence]. reflexivity.
Qed.

(** The ack packet and its plaintext. *)
Lemma createAck_run (r : ECIES.t) (privI pubI nI ess auth rK RK ivK : bytes) :
  well_keyed r -> key_pair privI pubI -> _remotePublicKey r = Some pubI ->
  _remoteNonce r = Some nI -> _ephemeralSharedSecret r = Some ess ->
  _remoteInitMsg r = Some auth ->
  key_pair rK RK -> length ivK = 16%nat ->
  exists C tag,
    length C = 97%nat /\ length tag = 32%nat
    /\ (let ack := RK ++ (ivK ++ C) ++ tag in
        let hNonce := util.keccak256 [_nonce r ++ nI] in
        let sharedSecret := util.keccak256 [ess; hNonce] in
        let aesSecret := util.keccak256 [ess; sharedSecret] in
        let macSecret := util.keccak256 [ess; aesSecret] in
        let aes := {| cipher_key := aesSecret; cipher_iv := Buffer.zeros 16;
                      cipher_pos := 0 |} in
        createAck rK ivK r
        = (set_egressMac
             (Some (MAC.update (MAC.new macSecret) (util.xor macSecret nI ++ ack)))
             (set_ingressMac
                (Some (MAC.update (MAC.new macSecret)
                         (util.xor macSecret (_nonce r) ++ auth)))
                (set_egressAes (Some aes)
                   (set_ingressAes (Some aes) (set_initMsg (Some ack) r)))),
           Return ack))
    /\ forall receiver, _privateKey receiver = privI ->
         _decryptMessage (RK ++ (ivK ++ C) ++ tag) receiver
         = (receiver,
            Return (concat [util.pk2id (_ephemeralPublicKey r); _nonce r; [Byte.x00]])).
Proof.
  intros (Hk & He & Hn) HkI Hrem Hrn Hess Hrim HrK HivK.
  set (data := concat [util.pk2id (_ephemeralPublicKey r); _nonce r; [Byte.x00]]).
  destruct (encrypt_decrypt sha256_length hmac_length key_65
              (ecdh_agree_weak ecdh_agree) r privI pubI rK RK ivK data HkI HrK HivK Hrem)
    as (C & tag & Henc & HC & Htag & Hdec).
  destruct (id2pk_pk2id publicKey_format _ _ He) as [_ Hid].
  destruct (ack_fields (util.pk2id (_ephemeralPublicKey r)) (_nonce r) Hid Hn)
    as (Hl & _).
  fold data in Hl.
  exists C, tag. split; [lia|]. split; [exact Htag|]. split; [|exact Hdec].
  cbv zeta.
  pose proof (setupFrame_run (set_initMsg (Some (RK ++ (ivK ++ C) ++ tag)) r)
                nI ess (RK ++ (ivK ++ C) ++ tag) auth true
                keccak_length Hrn Hess eq_refl) as Hsetup.
  cbv zeta in Hsetup.
  unfold createAck, field, bindM, gets, need, ret, modify.
  hp_step. fold data. rewrite Henc. hp_step. rewrite Hrim.
  hp_step_in Hsetup. rewrite Hsetup. reflexivity.
Qed.

(** X12: [createAck], after [parseAuth], returns a packet of 210 bytes, the
    envelope of a plaintext of 97, keeps it as [_initMsg], and sets up the
    frame state: both ciphers at the start of the stream keyed by the AES
    secret, the ingress MAC seeded with the auth packet and the egress MAC
    with the ack packet.  Nothing else changes. *)
Theorem createAck_packet (r : ECIES.t) (privI pubI nI ess auth rK RK ivK : bytes) :
  well_keyed r -> key_pair privI pubI -> _remotePublicKey r = Some pubI ->
  _remoteNonce r = Some nI -> _ephemeralSharedSecret r = Some ess ->
  _remoteInitMsg r = Some auth ->
  key_pair rK RK -> length ivK = 16%nat ->
  exists ack r2 sharedSecret aesSecret macSecret,
    createAck rK ivK r = (r2, Return ack)
    /\ length ack = 210%nat
    /\ Buffer.slice ack 0 65 = RK /\ Buffer.slice ack 65 81 = ivK
    /\ _initMsg r2 = Some ack
    /\ frame_secrets r2 true = Some (sharedSecret, aesSecret, macSecret)
    /\ _ingressAes r2 = Some {| cipher_key := aesSecret; cipher_iv := Buffer.zeros 16;
                                cipher_pos := 0 |}
    /\ _egressAes r2 = _ingressAes r2
    /\ _ingressMac r2
       = Some (MAC.update (MAC.new macSecret) (util.xor macSecret (_nonce r) ++ auth))
    /\ _egressMac r2
       = Some (MAC.update (MAC.new macSecret) (util.xor macSecret nI ++ ack))
    /\ r2 = set_egressMac (_egressMac r2)
              (set_ingressMac (_ingressMac r2)
                 (set_egressAes (_egressAes r2)
                    (set_ingressAes (_ingressAes r2) (set_initMsg (Some ack) r)))).
Proof.
  intros Hw HkI Hrem Hrn Hess Hrim HrK HivK.
  destruct (createAck_run r privI pubI nI ess auth rK RK ivK
              Hw HkI Hrem Hrn Hess Hrim HrK HivK)
    as (C & tag & HC & Htag & Hrun & _).
  cbv zeta in Hrun.
  destruct (envelope_length RK ivK C tag 97 (key_65 _ _ HrK) HivK HC Htag)
    as (Hlen & Hs0 & Hs1).
  eexists _, _, _, _, _. split; [exact Hrun|].
  split; [exact Hlen|]. split; [exact Hs0|]. split; [exact Hs1|].
  split; [reflexivity|]. split.
  { unfold frame_secrets. cbn. rewrite Hrn, Hess. reflexivity. }
  repeat split.
Qed.

(** X13: [parseAck], by the initiator, on the packet that an honest [createAck]
    addressed to it, returns, and has learned the responder's ephemeral
    public key and nonce; it has derived the ephemeral shared secret and
    set up the frame state the other way round: the ingress MAC seeded
    with the ack packet, the egress MAC with its own auth packet. *)
Theorem parseAck_learns_responder (i r r2 : ECIES.t)
    (nI ess auth authI rK RK ivK ack : bytes) :
  well_keyed i -> well_keyed r ->
  _remotePublicKey r = Some (_publicKey i) ->
  _remoteNonce r = Some nI -> _ephemeralSharedSecret r = Some ess ->
  _remoteInitMsg r = Some auth ->
  key_pair rK RK -> length ivK = 16%nat ->
  _initMsg i = Some authI ->
  createAck rK ivK r = (r2, Return ack) ->
  exists essI,
    ecdhX (_ephemeralPublicKey r) (_ephemeralPrivateKey i) = Some essI
    /\ (let hNonce := util.keccak256 [_nonce r ++ _nonce i] in
        let sharedSecret := util.keccak256 [essI; hNonce] in
        let aesSecret := util.keccak256 [essI; sharedSecret] in
        let macSecret := util.keccak256 [essI; aesSecret] in
        let aes := {| cipher_key := aesSecret; cipher_iv := Buffer.zeros 16;
                      cipher_pos := 0 |} in
        parseAck ack i
        = (set_egressMac
             (Some (MAC.update (MAC.new macSecret)
                      (util.xor macSecret (_nonce r) ++ authI)))
             (set_ingressMac
                (Some (MAC.update (MAC.new macSecret)
                         (util.xor macSecret (_nonce i) ++ ack)))
                (set_egressAes (Some aes)
                   (set_ingressAes (Some aes)
                      (set_ephemeralSharedSecret (Some essI)
                         (set_remoteNonce (Some (_nonce r))
                            (set_remoteEphemeralPublicKey
                               (Some (_ephemeralPublicKey r)) i)))))),
           Return tt)).
Proof.
  intros Hwi Hwr Hrem Hrn Hess Hrim HrK HivK Hinit Hack.
  pose proof Hwi as (HkI & HeI & HnI). pose proof Hwr as (HkR & HeR & HnR).
  destruct (createAck_run r _ _ nI ess auth rK RK ivK
              Hwr HkI Hrem Hrn Hess Hrim HrK HivK)
    as (C & tag & HC & Htag & Hrun & Hdec).
  cbv zeta in Hrun. rewrite Hrun in Hack. inversion Hack; subst r2 ack. clear Hack.
  set (ack := RK ++ (ivK ++ C) ++ tag) in *.
  destruct (shared_x _ _ _ _ HeI HeR) as (essI & Hes1 & Hes2 & _).
  destruct (id2pk_pk2id publicKey_format _ _ HeR) as [HidER HlenER].
  destruct (ack_fields (util.pk2id (_ephemeralPublicKey r)) (_nonce r) HlenER HnR)
    as (HlK & HK0 & HK64 & HK96).
  cbv zeta in HlK, HK0, HK64, HK96.
  exists essI. split; [exact Hes1|]. cbv zeta.
  pose proof (setupFrame_run
                (set_ephemeralSharedSecret (Some essI)
                   (set_remoteNonce (Some (_nonce r))
                      (set_remoteEphemeralPublicKey (Some (_ephemeralPublicKey r)) i)))
                (_nonce r) essI authI ack false keccak_length eq_refl eq_refl Hinit)
    as Hsetup.
  cbv zeta in Hsetup. hp_step_in Hsetup.
  unfold parseAck, field, bindM, gets, need, ret, modify, util.assertEq.
  rewrite (Hdec i eq_refl).
  rewrite HlK, HK0, HK64, HK96, HidER.
  hp_step.
  destruct (decide (97 = 97)) as [_|]; [|congruence].
  change (byte.unsigned Byte.x00) with 0.
  destruct (decide (Some 0 = Some 0)) as [_|]; [|congruence].
  hp_step.
  rewrite Hes1. hp_step. rewrite Hsetup. reflexivity.
Qed.

(** X14: A packet of the wrong kind is refused by its length: the envelope of a
    plaintext that has not 194 bytes fails [parseAuth] (as an ack packet
    does), and one that has not 97 fails [parseAck] (as an auth packet
    does). *)
Theorem handshake_packets_checked_by_length (sender sender' receiver : ECIES.t)
    (priv pub r R IV data envelope : bytes) :
  key_pair priv pub -> key_pair r R -> length IV = 16%nat ->
  _remotePublicKey sender = Some pub ->
  _privateKey receiver = priv ->
  _encryptMessage r IV data sender = (sender', Return envelope) ->
  (length data <> 194%nat ->
   parseAuth envelope receiver
   = (set_remoteInitMsg (Some envelope) receiver, Throw (Thrown "invalid packet length")))
  /\ (length data <> 97%nat ->
      parseAck envelope receiver = (receiver, Throw (Thrown "invalid packet length"))).
Proof.
  intros Hk Hr HIV Hrem Hpriv Henc.
  destruct (encrypt_decrypt sha256_length hmac_length key_65
              (ecdh_agree_weak ecdh_agree) sender priv pub r R IV data
              Hk Hr HIV Hrem) as (C & tag & He & _ & _ & Hd).
  rewrite He in Henc. inversion Henc; subst sender' envelope. clear Henc.
  split; intros Hlen.
  - unfold parseAuth, bindM, modify, util.assertEq.
    rewrite (Hd (set_remoteInitMsg (Some (R ++ (IV ++ C) ++ tag)) receiver) Hpriv).
    destruct (decide (Z.of_nat (length data) = 194)) as [Heq|_]; [lia|reflexivity].
  - unfold parseAck, bindM, modify, util.assertEq.
    rewrite (Hd receiver Hpriv).
    destruct (decide (Z.of_nat (length data) = 97)) as [Heq|_]; [lia|reflexivity].
Qed.

End HandshakePackets.

(** ** The discovery server: calls, exchanges and invariants *)

Section ServerBehaviour.
Context `{Server.Message}.
Import Server.

(** *** After [destroy] *)

(** A step of a server without its socket leaves the socket as it is. *)
Lemma step_socket_gone (a : Action) (u u' : Server.t) :
  reachable u -> _socket u = None -> step a u = Some u' ->
  _socket u' = None /\ socket u' = socket u.
Proof.
  intros Hr Hs Hstep.
  destruct (reachable_invariant u Hr) as (_ & _ & _ & Hsw).
  destruct a as [dt|j|msg rinfo| | |q|q target]; cbn [step] in Hstep.
  - destruct (0 <=? dt); inversion Hstep; subst. auto.
  - destruct (timers u !! j) as [tmj|]; [|discriminate].
    destruct (due tmj <=? clock u); inversion Hstep; subst. clear Hstep.
    destruct (callback tmj) as [p k d|l]; cbn [run_callback].
    + unfold bindM, modify. cbn [fst].
      match goal with |- context [settle ?dd ?pp ?uu] =>
        destruct (settle_frame dd pp uu) as (_ & _ & _ & Hsk & Hso & _)
      end.
      cbn zeta in *. rewrite Hsk, Hso. auto.
    + cbn. auto.
  - rewrite (proj1 Hsw Hs) in Hstep. discriminate.
  - inversion Hstep; subst. rewrite (bind_destroyed u Hs). auto.
  - inversion Hstep; subst. rewrite (destroy_destroyed u Hs). auto.
  - inversion Hstep; subst. rewrite (ping_destroyed q u Hs). auto.
  - inversion Hstep; subst. rewrite (findneighbours_destroyed q target u Hs). auto.
Qed.

Lemma run_socket_gone (l : list Action) (u u' : Server.t) :
  reachable u -> _socket u = None -> run l u = Some u' ->
  reachable u' /\ _socket u' = None /\ socket u' = socket u.
Proof.
  revert u. induction l as [|a l IH]; intros u Hr Hs Hrun; cbn [run] in Hrun.
  - inversion Hrun; subst. auto.
  - destruct (step a u) as [v|] eqn:Hstep; [|discriminate].
    destruct (step_socket_gone a u v Hr Hs Hstep) as [Hsv Hso].
    destruct (IH v) as (Hr' & Hs' & Hso'); auto.
    { eapply reachable_step; eauto. }
    rewrite <- Hso. auto.
Qed.

(** X15: Once destroyed, a server stays so: from then on every call of [bind],
    [destroy], [ping] and [findneighbours] throws ['Server already
    destroyed'] and changes nothing, whatever has happened in between. *)
Theorem destroyed_server_throws (s u : Server.t) (l : list Action) :
  reachable s -> _socket s = Some tt ->
  run (CallDestroy :: l) s = Some u ->
  _socket u = None
  /\ Server.bind u = (u, Throw (Thrown "Server already destroyed"))
  /\ destroy u = (u, Throw (Thrown "Server already destroyed"))
  /\ (forall peer, ping peer u = (u, Throw (Thrown "Server already destroyed")))
  /\ (forall peer target,
        findneighbours peer target u
        = (u, Throw (Thrown "Server already destroyed"))).
Proof.
  intros Hr Hs Hrun. cbn [run step] in Hrun.
  assert (Hr1 : reachable (fst (destroy s)))
    by (eapply (reachable_step CallDestroy); eauto).
  rewrite (destroy_alive s Hs) in Hrun, Hr1. cbn [fst] in Hrun, Hr1.
  destruct (run_socket_gone l _ u Hr1 eq_refl Hrun) as (_ & Hu & _).
  split; [exact Hu|]. split; [apply bind_destroyed; exact Hu|].
  split; [apply destroy_destroyed; exact Hu|].
  split; [intros peer; apply ping_destroyed; exact Hu|].
  intros peer target. apply findneighbours_destroyed; exact Hu.
Qed.

(** X16: A destroyed server is silent: whatever is called and whichever timers
    fire afterwards, it sends no datagram; its socket stays as [destroy]
    left it, closed, with the datagrams sent before. *)
Theorem destroyed_server_is_silent (s u : Server.t) (l : list Action) :
  reachable s -> _socket s = Some tt ->
  run (CallDestroy :: l) s = Some u ->
  sent (socket u) = sent (socket s)
  /\ closed (socket u) = true
  /\ bound (socket u) = bound (socket s).
Proof.
  intros Hr Hs Hrun. cbn [run step] in Hrun.
  assert (Hr1 : reachable (fst (destroy s)))
    by (eapply (reachable_step CallDestroy); eauto).
  rewrite (destroy_alive s Hs) in Hrun, Hr1. cbn [fst] in Hrun, Hr1.
  destruct (run_socket_gone l _ u Hr1 eq_refl Hrun) as (_ & _ & Hso).
  rewrite Hso. cbn. repeat split.
Qed.

(** *** The timeout of a ping *)

(** X17: A [ping] to a port that the socket accepts registers its request
    under the hexadecimal hash of the datagram and schedules its timeout:
    [_timeout] ms ahead when that is a delay [setTimeout] takes, between 1
    and [2^31 - 1], and 1 ms ahead otherwise.  That timer cannot fire
    earlier; when it fires on the pending promise, it removes the request
    and rejects the promise with the timeout error naming the peer's
    address and port.  A [ping] to any other port throws the exception of
    [socket.send], and leaves no promise, no request and no timer. *)
Theorem ping_times_out (s : Server.t) (peer : Peer) :
  reachable s -> _socket s = Some tt ->
  snd (LRUCache.get (_requestsCache s) (rckey_of peer) (clock s)) = None ->
  let s1 := fst (ping peer s) in
  let msg := encode (Ping VERSION (_endpoint s) (endpoint_of peer)) (_privateKey s) in
  let rkey := Buffer.toHex (Buffer.slice msg 0 32) in
  let d := length (promises s) in
  let i := nextTimer s in
  let t := clock s + (if (1 <=? _timeout s) && (_timeout s <=? 2147483647)
                      then _timeout s else 1) in
  let tm := {| due := t; callback := PingTimeout peer rkey d |} in
  (valid_port (udpPort peer) = true ->
   snd (ping peer s) = Return d
   /\ promises s !! d = None /\ promises s1 !! d = Some Pending
   /\ _requests s1 !! rkey = Some {| Server.peer := peer; deferred := d; timeoutId := i |}
   /\ timers s !! i = None /\ timers s1 !! i = Some tm
   /\ forall u, timers u !! i = Some tm -> promises u !! d = Some Pending ->
        (clock u < t -> step (TimerFires i) u = None)
        /\ (t <= clock u ->
            exists u', step (TimerFires i) u = Some u'
              /\ promises u' !! d
                 = Some (Rejected (Thrown ("Timeout error: ping " +:+ rckey_of peer)))
              /\ _requests u' = delete rkey (_requests u)
              /\ timers u' = delete i (timers u)))
  /\ (valid_port (udpPort peer) = false ->
      snd (ping peer s) = Throw RangeError
      /\ promises s1 = promises s /\ _requests s1 = _requests s
      /\ timers s1 = timers s /\ nextTimer s1 = nextTimer s
      /\ socket s1 = socket s).
Proof.
  intros Hr Hs Hmiss s1 msg rkey d i t tm. subst s1.
  destruct (reachable_invariant s Hr) as (Hf & _).
  split; intros Hport.
  - rewrite (ping_miss peer s Hs Hmiss Hport). cbn [fst snd].
    cbn [promises _requests timers].
    split; [reflexivity|].
    split; [apply lookup_ge_None_2; reflexivity|].
    split; [apply list_lookup_middle; reflexivity|].
    split; [apply lookup_insert_eq|].
    split; [apply Hf; reflexivity|].
    split; [apply lookup_insert_eq|].
    intros u Hu Hp. apply (fire_timeout u i d _ peer rkey Hu Hp).
  - rewrite (ping_unsendable peer s Hs Hmiss Hport). repeat split.
Qed.

(** *** Datagrams that make the handler throw *)

(** X18: An exception of the handler does not leave the socket's listener: it
    becomes one ['error'] event.  A datagram that [message.decode] rejects
    is emitted as the exception of the decoder, and nothing else changes.
    A ping or a findneighbours from a port that [socket.send] does not
    accept, as the source port 0 is, gets no answer: the exception of
    [send] is emitted; for the ping of an unknown sender the timer that
    announces the sender had been scheduled before and stays. *)
Theorem handler_exceptions_become_events (s s' : Server.t) (msg : bytes)
    (rinfo : RInfo) :
  reachable s -> step (Receive msg rinfo) s = Some s' ->
  (forall e, decode msg = Throw e ->
     s' = set_emitted (emitted s ++ [error e]) s)
  /\ (forall version from to pk,
        decode msg = Return {| data := Ping version from to; publicKey := pk |} ->
        valid_port (Some (r_port rinfo)) = false ->
        emitted s' = emitted s ++ [error RangeError]
        /\ socket s' = socket s
        /\ promises s' = promises s /\ _requests s' = _requests s
        /\ timers s'
           = match getPeer (_dpt s) (util.pk2id pk), e_udpPort from with
             | None, Some _ =>
                 <[nextTimer s := {| due := clock s + 100;
                                     callback := EmitPeers [from] |}]> (timers s)
             | _, _ => timers s
             end)
  /\ (forall target pk,
        decode msg = Return {| data := FindNeighbours target; publicKey := pk |} ->
        valid_port (Some (r_port rinfo)) = false ->
        s' = set_emitted (emitted s ++ [error RangeError]) s).
Proof.
  intros Hr Hstep.
  destruct (receive_alive s s' msg rinfo Hr Hstep) as [Hs ->].
  unfold on_message. split; [|split].
  - intros e Hd. rewrite (handler_malformed s msg rinfo e Hd). reflexivity.
  - intros version from to pk Hd Hport.
    rewrite (handler_ping s msg rinfo version from to pk Hd). cbn zeta.
    rewrite Hs, Hport.
    destruct (getPeer (_dpt s) (util.pk2id pk)) as [known|];
      [|destruct (e_udpPort from) as [port|]]; cbn; repeat split.
  - intros target pk Hd Hport.
    rewrite (handler_findneighbours s msg rinfo target pk Hd).
    rewrite Hs, Hport. reflexivity.
Qed.

(** *** Exchanges between two servers *)

Section PingPong.
Context `{Primitives}.

(** What [./message] promises of a pong: [decode] finds in the packet that
    [encode] made the hash it was given, and recovers from its signature
    the public key of the private key that signed it. *)
Hypothesis pong_decodes :
  forall to hash privateKey publicKey,
    key_pair privateKey publicKey ->
    exists to',
      decode (encode (Pong to hash) privateKey)
      = Return {| data := Pong to' hash; Server.publicKey := publicKey |}.

(** X19: A ping and its pong, between ports that the sockets accept.  Server
    [a] pings [peer]; server [b] receives the datagram from [rinfoA] and
    answers the datagram's source, not the endpoint the ping declares,
    echoing the first 32 bytes of the ping as the hash; when [a] receives
    that pong, from wherever, the request is gone and the promise that
    [ping] returned is resolved with the node id of [b], the public key of
    [b]'s private key without its first byte, and the address and ports
    that [ping] was given. *)
Theorem ping_pong_exchange (a a1 a2 b b1 : Server.t) (peer : Peer)
    (rinfoA rinfoB : RInfo) (version : Z) (from to : Endpoint)
    (pkA publicKeyB : bytes) :
  reachable a -> _socket a = Some tt -> reachable b ->
  key_pair (_privateKey b) publicKeyB ->
  snd (LRUCache.get (_requestsCache a) (rckey_of peer) (clock a)) = None ->
  valid_port (udpPort peer) = true ->
  valid_port (Some (r_port rinfoA)) = true ->
  let m := encode (Ping VERSION (_endpoint a) (endpoint_of peer)) (_privateKey a) in
  let hash := Buffer.slice m 0 32 in
  let reply :=
    encode (Pong {| e_address := r_address rinfoA;
                    e_udpPort := Some (r_port rinfoA);
                    e_tcpPort := e_tcpPort from |} hash) (_privateKey b) in
  decode m = Return {| data := Ping version from to; Server.publicKey := pkA |} ->
  step (CallPing peer) a = Some a1 ->
  step (Receive m rinfoA) b = Some b1 ->
  step (Receive reply rinfoB) a1 = Some a2 ->
  sent (socket a1)
  = sent (socket a)
    ++ [ {| d_msg := m; d_port := udpPort peer; d_address := address peer |} ]
  /\ sent (socket b1)
     = sent (socket b)
       ++ [ {| d_msg := reply; d_port := Some (r_port rinfoA);
               d_address := r_address rinfoA |} ]
  /\ snd (ping peer a) = Return (length (promises a))
  /\ promises a1 !! length (promises a) = Some Pending
  /\ promises a2 !! length (promises a)
     = Some (Resolved {| id := Some (util.pk2id publicKeyB);
                         address := address peer;
                         udpPort := udpPort peer; tcpPort := tcpPort peer |})
  /\ _requests a2 !! Buffer.toHex hash = None
  /\ sent (socket a2) = sent (socket a1).
Proof.
  intros Hra Hsa Hrb Hkey Hmiss Hport HportA m hash reply Hdm Hping Hrecv Hpong.
  destruct (pong_decodes {| e_address := r_address rinfoA;
                            e_udpPort := Some (r_port rinfoA);
                            e_tcpPort := e_tcpPort from |} hash
              (_privateKey b) publicKeyB Hkey) as (to' & Hdr).
  fold reply in Hdr.
  pose proof (reachable_step (CallPing peer) a a1 Hra Hping) as Hra1.
  cbn [step] in Hping. inversion Hping; subst a1. clear Hping.
  destruct (receive_alive b b1 m rinfoA Hrb Hrecv) as [Hsb ->].
  destruct (receive_alive _ a2 reply rinfoB Hra1 Hpong) as [_ ->].
  pose proof (ping_miss peer a Hsa Hmiss Hport) as Hp. cbn zeta in Hp.
  fold m in Hp. fold hash in Hp.
  set (request := {| Server.peer := peer; deferred := length (promises a);
                     timeoutId := nextTimer a |}).
  assert (Hreq : _requests (fst (ping peer a)) !! Buffer.toHex hash = Some request).
  { rewrite Hp. cbn [fst _requests]. apply lookup_insert_eq. }
  assert (Hpend : promises (fst (ping peer a)) !! length (promises a) = Some Pending).
  { rewrite Hp. cbn [fst promises]. apply list_lookup_middle. reflexivity. }
  split; [rewrite Hp; reflexivity|]. split.
  { unfold on_message. rewrite (handler_ping b m rinfoA version from to pkA Hdm).
    cbn zeta. rewrite Hsb, HportA. cbn [fst].
    destruct (getPeer (_dpt b) (util.pk2id pkA)) as [known|];
      [|destruct (e_udpPort from) as [port|]]; reflexivity. }
  split; [rewrite Hp; reflexivity|]. split; [exact Hpend|].
  unfold on_message.
  rewrite (handler_pong_matched _ reply rinfoB to' hash publicKeyB request Hdr Hreq).
  match goal with |- context [settle ?dd ?pp ?uu] =>
    destruct (settle_frame dd pp uu) as (_ & _ & Hrq & _ & Hso & _);
    pose proof (settle_pending dd pp uu) as Hres;
    rewrite (surjective_pairing (settle dd pp uu)), (settle_run dd pp uu)
  end.
  cbn [fst snd] in *. cbv zeta in Hrq, Hso.
  rewrite settle_run in Hrq, Hso, Hres. cbn [fst] in Hrq, Hso, Hres.
  split; [apply Hres; exact Hpend|]. split.
  - rewrite Hrq. cbn [_requests set_requests]. apply lookup_delete_eq.
  - rewrite Hso. reflexivity.
Qed.

End PingPong.

(** X20: A [findneighbours] and its answer.  The call sends one datagram and
    registers nothing: no request, no promise, no timeout.  Server [b]
    answers the datagram's source with the peers its table says are
    closest to the target, and when [a] receives that answer it emits one
    ['peers'] event with their endpoints, at once.  Where the socket does
    not accept the port, nothing is sent: the call throws and changes
    nothing, and the handler's exception becomes an ['error'] event. *)
Theorem findneighbours_exchange (a a1 a2 b b1 : Server.t) (peer : Peer)
    (target target' : bytes) (rinfoA rinfoB : RInfo) (l : list Peer) (pkA pkB : bytes) :
  reachable a -> _socket a = Some tt -> reachable b ->
  let m := encode (FindNeighbours target) (_privateKey a) in
  let reply :=
    encode (Neighbours (getClosestPeers (_dpt b) target')) (_privateKey b) in
  decode m = Return {| data := FindNeighbours target'; publicKey := pkA |} ->
  decode reply = Return {| data := Neighbours l; publicKey := pkB |} ->
  step (CallFindneighbours peer target) a = Some a1 ->
  step (Receive m rinfoA) b = Some b1 ->
  step (Receive reply rinfoB) a1 = Some a2 ->
  a1 = (if valid_port (udpPort peer)
        then set_socket
               {| sent := sent (socket a)
                          ++ [ {| d_msg := m; d_port := udpPort peer;
                                  d_address := address peer |} ];
                  bound := bound (socket a); closed := closed (socket a) |} a
        else a)
  /\ b1 = (if valid_port (Some (r_port rinfoA))
           then set_socket
                  {| sent := sent (socket b)
                             ++ [ {| d_msg := reply; d_port := Some (r_port rinfoA);
                                     d_address := r_address rinfoA |} ];
                     bound := bound (socket b); closed := closed (socket b) |} b
           else set_emitted (emitted b ++ [error RangeError]) b)
  /\ a2 = set_emitted (emitted a1 ++ [peers (map endpoint_of l)]) a1.
Proof.
  intros Hra Hsa Hrb m reply Hdm Hdr Hcall Hrecv Hans.
  pose proof (reachable_step (CallFindneighbours peer target) a a1 Hra Hcall) as Hra1.
  cbn [step] in Hcall. inversion Hcall; subst a1. clear Hcall.
  destruct (receive_alive b b1 m rinfoA Hrb Hrecv) as [Hsb ->].
  destruct (receive_alive _ a2 reply rinfoB Hra1 Hans) as [_ ->].
  split; [|split].
  - destruct (valid_port (udpPort peer)) eqn:Hport.
    + rewrite (findneighbours_alive peer target a Hsa Hport). reflexivity.
    + rewrite (findneighbours_unsendable peer target a Hsa Hport). reflexivity.
  - unfold on_message. rewrite (handler_findneighbours b m rinfoA target' pkA Hdm).
    rewrite Hsb. destruct (valid_port (Some (r_port rinfoA))); reflexivity.
  - unfold on_message. rewrite (handler_neighbours _ reply rinfoB l pkB Hdr).
    reflexivity.
Qed.

(** *** Invariants of the reachable states *)

(** X21: In every state the server can reach, each entry of the pending map has
    a promise that is still pending and a timer that is still scheduled
    and will reject that promise under the entry's key; no two entries
    share a promise or a timer; and the reference to the socket is null
    exactly when the socket is closed. *)
Theorem pending_requests_are_live (s : Server.t) :
  reachable s ->
  (forall k r, _requests s !! k = Some r ->
     promises s !! deferred r = Some Pending
     /\ (timeoutId r < nextTimer s)%nat
     /\ exists t, timers s !! timeoutId r
                  = Some {| due := t;
                            callback := PingTimeout (peer r) k (deferred r) |})
  /\ (forall k k' r r', _requests s !! k = Some r -> _requests s !! k' = Some r' ->
        deferred r = deferred r' \/ timeoutId r = timeoutId r' -> k = k')
  /\ (_socket s = None <-> closed (socket s) = true).
Proof.
  intros Hr. destruct (reachable_invariant s Hr) as (Hf & Hrw & Htw & Hsw).
  split; [|split; [|exact Hsw]].
  - intros k r Hk. destruct (Hrw k r Hk) as (Hp & t & Ht).
    split; [exact Hp|]. split; [|eauto].
    destruct (Nat.lt_ge_cases (timeoutId r) (nextTimer s)) as [Hlt|Hge]; [exact Hlt|].
    rewrite (Hf _ Hge) in Ht. discriminate.
  - intros k k' r r' Hk Hk' [Hd|Hi].
    + eapply request_promise_key; eauto.
    + destruct (Hrw k r Hk) as (_ & t & Ht). destruct (Hrw k' r' Hk') as (_ & t' & Ht').
      rewrite Hi, Ht' in Ht. inversion Ht. reflexivity.
Qed.

(** A step changes no promise that is settled. *)
Lemma handler_keeps_settled (msg : bytes) (rinfo : RInfo) (s : Server.t)
    (d : nat) (p : Promise) :
  promises s !! d = Some p -> p <> Pending ->
  promises (fst (on_message msg rinfo s)) !! d = Some p.
Proof.
  intros Hd Hp. unfold on_message.
  assert (Hh : promises (fst (_handler msg rinfo s)) !! d = Some p).
  { destruct (decode msg) as [[[version from to|to hash|target|l] pk]|e] eqn:Hdec.
    - rewrite (handler_ping s msg rinfo version from to pk Hdec). cbn zeta.
      destruct (getPeer (_dpt s) (util.pk2id pk)) as [known|];
        [|destruct (e_udpPort from) as [port|]];
        destruct (_socket s); try exact Hd;
        destruct (valid_port (Some (r_port rinfo))); exact Hd.
    - destruct (_requests s !! Buffer.toHex hash) as [request|] eqn:Hr.
      + rewrite (handler_pong_matched s msg rinfo to hash pk request Hdec Hr).
        rewrite settle_settled; cbn; rewrite Hd; [reflexivity|congruence].
      + rewrite (handler_pong_unmatched s msg rinfo to hash pk Hdec Hr). exact Hd.
    - rewrite (handler_findneighbours s msg rinfo target pk Hdec).
      destruct (_socket s); try exact Hd;
        destruct (valid_port (Some (r_port rinfo))); exact Hd.
    - rewrite (handler_neighbours s msg rinfo l pk Hdec). exact Hd.
    - rewrite (handler_malformed s msg rinfo e Hdec). exact Hd. }
  destruct (_handler msg rinfo s) as [u [[]|e]]; cbn [fst] in *; exact Hh.
Qed.

Lemma step_keeps_settled (a : Action) (s s' : Server.t) (d : nat) (p : Promise) :
  step a s = Some s' -> promises s !! d = Some p -> p <> Pending ->
  promises s' !! d = Some p.
Proof.
  intros Hstep Hd Hp.
  destruct a as [dt|i|msg rinfo| | |q|q target]; cbn [step] in Hstep.
  - destruct (0 <=? dt); inversion Hstep; subst. exact Hd.
  - destruct (timers s !! i) as [tm|]; [|discriminate].
    destruct (due tm <=? clock s); inversion Hstep; subst. clear Hstep.
    destruct (callback tm) as [q k d'|l]; cbn [run_callback]; [|exact Hd].
    unfold bindM, modify. cbn [fst].
    rewrite settle_settled; cbn; rewrite Hd; [reflexivity|congruence].
  - destruct (closed (socket s)); inversion Hstep; subst.
    apply handler_keeps_settled; assumption.
  - inversion Hstep; subst. destruct (_socket s) as [[]|] eqn:Hs.
    + rewrite (bind_alive s Hs). exact Hd.
    + rewrite (bind_destroyed s Hs). exact Hd.
  - inversion Hstep; subst. destruct (_socket s) as [[]|] eqn:Hs.
    + rewrite (destroy_alive s Hs). exact Hd.
    + rewrite (destroy_destroyed s Hs). exact Hd.
  - inversion Hstep; subst. destruct (_socket s) as [[]|] eqn:Hs.
    + destruct (snd (LRUCache.get (_requestsCache s) (rckey_of q) (clock s)))
        as [promise|] eqn:Hget.
      * rewrite (ping_hit q s promise Hs Hget). exact Hd.
      * destruct (valid_port (udpPort q)) eqn:Hport.
        -- rewrite (ping_miss q s Hs Hget Hport). cbn [fst promises].
           rewrite lookup_app_l; [exact Hd|]. eapply lookup_lt_Some; eauto.
        -- rewrite (ping_unsendable q s Hs Hget Hport). exact Hd.
    + rewrite (ping_destroyed q s Hs). exact Hd.
  - inversion Hstep; subst. destruct (_socket s) as [[]|] eqn:Hs.
    + destruct (valid_port (udpPort q)) eqn:Hport.
      * rewrite (findneighbours_alive q target s Hs Hport). exact Hd.
      * rewrite (findneighbours_unsendable q target s Hs Hport). exact Hd.
    + rewrite (findneighbours_destroyed q target s Hs). exact Hd.
Qed.

(** X22: A promise is settled once: after it has been resolved or rejected,
    nothing the server does changes it, neither a late or repeated pong
    nor the timeout that was left running. *)
Theorem settled_promise_is_final (l : list Action) (s u : Server.t)
    (d : nat) (p : Promise) :
  run l s = Some u -> promises s !! d = Some p -> p <> Pending ->
  promises u !! d = Some p.
Proof.
  revert s. induction l as [|a l IH]; intros s Hrun Hd Hp; cbn [run] in Hrun.
  - inversion Hrun; subst. exact Hd.
  - destruct (step a s) as [v|] eqn:Hstep; [|discriminate].
    apply (IH v Hrun); [|exact Hp]. eapply step_keeps_settled; eauto.
Qed.

(** *** The dedup cache *)

(** [get] of the most recently used entry, once it is stale. *)
Lemma lru_get_stale {V : Type} (c : LRUCache.t V) (e : LRUCache.Entry V)
    (rest : list (LRUCache.Entry V)) (t : Z) :
  LRUCache.lruList c = e :: rest ->
  LRUCache.maxAge c <> 0 -> LRUCache.stale c = false ->
  LRUCache.maxAge c < t - LRUCache.now e ->
  snd (LRUCache.get c (LRUCache.key e) t) = None.
Proof.
  intros Hl Hage Hstale Ht. unfold LRUCache.get, LRUCache.find, LRUCache.isStale.
  rewrite Hl. cbn [List.find]. rewrite String.eqb_refl.
  destruct (Z.eqb_spec (LRUCache.maxAge c) 0); [contradiction|].
  destruct (Z.ltb_spec (LRUCache.maxAge c) (t - LRUCache.now e)); [|lia].
  cbn. rewrite Hstale. reflexivity.
Qed.

(** X23: The dedup window ends: a [ping] for the same address and port more
    than one second after the one that went out finds the cache entry
    stale, sends a datagram again and returns a new promise, whether the
    first ping has been answered or not.  (To a port that the socket does
    not accept no ping goes out: both calls throw.) *)
Theorem dedup_window_ends (s : Server.t) (peer : Peer) (dt0 dt : Z) :
  reachable s -> _socket s = Some tt ->
  snd (LRUCache.get (_requestsCache s) (rckey_of peer) (clock s + dt0)) = None ->
  ms_1s < dt ->
  let calls := [(dt0, peer); (dt, peer)] in
  if valid_port (udpPort peer)
  then
    snd (pings calls s)
    = [Return (length (promises s)); Return (S (length (promises s)))]
    /\ length (sent (socket (fst (pings calls s)))) = (length (sent (socket s)) + 2)%nat
    /\ Forall (fun dg => d_address dg = address peer /\ d_port dg = udpPort peer)
         (skipn (length (sent (socket s))) (sent (socket (fst (pings calls s)))))
    /\ promises (fst (pings calls s)) = promises s ++ [Pending; Pending]
  else
    snd (pings calls s) = [Throw RangeError; Throw RangeError]
    /\ sent (socket (fst (pings calls s))) = sent (socket s)
    /\ promises (fst (pings calls s)) = promises s.
Proof.
  intros Hr Hs Hmiss Hdt calls. subst calls.
  destruct (reachable_cache_wf s Hr) as (Hmax & Hage & Hstale).
  set (s0 := set_clock (clock s + dt0) s).
  destruct (valid_port (udpPort peer)) eqn:Hport.
  - pose proof (ping_miss peer s0 Hs Hmiss Hport) as Hping. cbn zeta in Hping.
    cbn [pings]. fold s0. rewrite Hping. clear Hping.
    match goal with |- context [ping peer (set_clock _ ?x)] => set (s1 := x) end.
    set (s2 := set_clock (clock s1 + dt) s1).
    destruct (lru_get_opts (_requestsCache s) (rckey_of peer) (clock s + dt0))
      as (Hm1 & Ha1 & Hst1).
    destruct (lru_set_head
                (fst (LRUCache.get (_requestsCache s) (rckey_of peer) (clock s + dt0)))
                (rckey_of peer) (length (promises s)) (clock s + dt0))
      as (rest & Hhead).
    { rewrite Hm1, Hmax. lia. }
    { rewrite Ha1, Hage. discriminate. }
    match type of Hhead with LRUCache.lruList ?c = _ => set (c1 := c) in * end.
    destruct (lru_set_opts
                (fst (LRUCache.get (_requestsCache s) (rckey_of peer) (clock s + dt0)))
                (rckey_of peer) (length (promises s)) (clock s + dt0))
      as (_ & Ha2 & Hst2).
    fold c1 in Ha2, Hst2.
    assert (Hmiss2 : snd (LRUCache.get (_requestsCache s2) (rckey_of peer) (clock s2))
                     = None).
    { apply (lru_get_stale c1 _ rest (clock s2) Hhead).
      - rewrite Ha2, Ha1, Hage. discriminate.
      - rewrite Hst2, Hst1. exact Hstale.
      - rewrite Ha2, Ha1, Hage. subst s2 s1. cbn. unfold ms_1s in *. lia. }
    pose proof (ping_miss peer s2 Hs Hmiss2 Hport) as Hping2. cbn zeta in Hping2.
    rewrite Hping2. cbn [fst snd promises socket sent set_clock].
    split.
    { subst s2 s1. cbn. rewrite length_app. cbn. do 3 f_equal. lia. }
    split.
    { subst s2 s1. cbn. rewrite !length_app. cbn. lia. }
    split.
    { subst s2 s1. cbn. rewrite <- app_assoc, drop_app_length. cbn.
      repeat constructor. }
    subst s2 s1. cbn. rewrite <- app_assoc. reflexivity.
  - pose proof (ping_unsendable peer s0 Hs Hmiss Hport) as Hping.
    cbn [pings]. fold s0. rewrite Hping. clear Hping.
    match goal with |- context [ping peer (set_clock _ ?x)] => set (s1 := x) end.
    pose proof (lru_get_miss (_requestsCache s) (rckey_of peer) (clock s + dt0)
                  Hmiss) as Hfind.
    destruct (pings_unsendable [(dt, peer)] s1 (rckey_of peer) Hs Hfind)
      as (Hres & Hso & _ & _ & Hpr & _).
    { repeat constructor. exact Hport. }
    cbn [pings] in Hres, Hso, Hpr.
    destruct (ping peer (set_clock (clock s1 + dt) s1)) as [s2 r2].
    cbn [fst snd length repeat] in *.
    rewrite Hres, Hso, Hpr. repeat split.
Qed.

Lemma lru_remove_length {V : Type} (k : string) (l : list (LRUCache.Entry V)) :
  (length (LRUCache.remove k l) <= length l)%nat.
Proof.
  unfold LRUCache.remove. induction l as [|e l IH]; cbn; [lia|].
  destruct (negb _); cbn; lia.
Qed.

Lemma lru_find_remove {V : Type} (k : string) (l : list (LRUCache.Entry V))
    (hit : LRUCache.Entry V) :
  LRUCache.find k l = Some hit ->
  LRUCache.key hit = k /\ (length (LRUCache.remove k l) < length l)%nat.
Proof.
  unfold LRUCache.find, LRUCache.remove. induction l as [|e l IH]; cbn; [discriminate|].
  destruct (String.eqb_spec (LRUCache.key e) k) as [Heq|Hne]; cbn.
  - intros Hh. inversion Hh; subst. split; [reflexivity|].
    pose proof (lru_remove_length (LRUCache.key hit) l) as Hl.
    unfold LRUCache.remove in Hl. lia.
  - intros Hh. destruct (IH Hh) as [Hk Hl]. split; [exact Hk|lia].
Qed.

Lemma lru_remove_keys {V : Type} (k : string) (l : list (LRUCache.Entry V)) :
  ~ In k (map LRUCache.key (LRUCache.remove k l))
  /\ (NoDup (map LRUCache.key l) -> NoDup (map LRUCache.key (LRUCache.remove k l))).
Proof.
  unfold LRUCache.remove. induction l as [|e l [IH1 IH2]]; cbn.
  - split; [tauto|auto].
  - destruct (String.eqb_spec (LRUCache.key e) k) as [Heq|Hne]; cbn.
    + split; [exact IH1|]. intros Hnd. apply IH2. apply NoDup_cons_1_2 in Hnd.
      exact Hnd.
    + split; [intros [Hk|Hin]; [congruence|contradiction]|].
      intros Hnd. apply NoDup_cons in Hnd. destruct Hnd as [Hnin Hnd].
      apply NoDup_cons. split; [|apply IH2; exact Hnd].
      intros Hin. apply Hnin.
      rewrite list_elem_of_In in *. apply in_map_iff in Hin.
      destruct Hin as (x & Hx & Hin). apply List.filter_In in Hin.
      apply in_map_iff. exists x. tauto.
Qed.

(** The cache operations keep the list within [max] entries, one per
    key. *)
Lemma lru_get_bounded {V : Type} (c : LRUCache.t V) (k : string) (t : Z) (n : nat) :
  (length (LRUCache.lruList c) <= n)%nat -> NoDup (map LRUCache.key (LRUCache.lruList c)) ->
  (length (LRUCache.lruList (fst (LRUCache.get c k t))) <= n)%nat
  /\ NoDup (map LRUCache.key (LRUCache.lruList (fst (LRUCache.get c k t)))).
Proof.
  intros Hl Hnd. unfold LRUCache.get.
  destruct (LRUCache.find k (LRUCache.lruList c)) as [hit|] eqn:Hf; [|auto].
  destruct (lru_find_remove k _ hit Hf) as [Hk Hlt].
  destruct (lru_remove_keys k (LRUCache.lruList c)) as [Hnin Hnd'].
  destruct (LRUCache.isStale c hit t); cbn.
  - split; [lia|auto].
  - split; [lia|]. apply NoDup_cons. rewrite Hk, list_elem_of_In. auto.
Qed.

Lemma lru_set_bounded {V : Type} (c : LRUCache.t V) (k : string) (v : V) (t : Z) :
  1 <= LRUCache.max c -> NoDup (map LRUCache.key (LRUCache.lruList c)) ->
  (length (LRUCache.lruList (LRUCache.set c k v t)) <= Z.to_nat (LRUCache.max c))%nat
  /\ NoDup (map LRUCache.key (LRUCache.lruList (LRUCache.set c k v t))).
Proof.
  intros Hmax Hnd. unfold LRUCache.set, LRUCache.trim.
  destruct (Z.ltb_spec (LRUCache.max c) 1); [lia|]. cbn [LRUCache.lruList LRUCache.with_list LRUCache.max].
  destruct (lru_remove_keys k (LRUCache.lruList c)) as [Hnin Hnd'].
  split.
  - rewrite length_take. lia.
  - rewrite <- firstn_map. eapply sublist_NoDup; [|apply sublist_take].
    cbn. apply NoDup_cons. rewrite list_elem_of_In. auto.
Qed.

Lemma step_cache_bounded (a : Action) (s s' : Server.t) :
  step a s = Some s' -> cache_wf s ->
  (length (LRUCache.lruList (_requestsCache s)) <= 1000)%nat
  /\ NoDup (map LRUCache.key (LRUCache.lruList (_requestsCache s))) ->
  (length (LRUCache.lruList (_requestsCache s')) <= 1000)%nat
  /\ NoDup (map LRUCache.key (LRUCache.lruList (_requestsCache s'))).
Proof.
  intros Hstep (Hmax & _) Hb.
  destruct a as [dt|i|msg rinfo| | |p|p target]; cbn [step] in Hstep.
  - destruct (0 <=? dt); inversion Hstep; subst. exact Hb.
  - destruct (timers s !! i) as [tm|]; [|discriminate].
    destruct (due tm <=? clock s); inversion Hstep; subst. clear Hstep.
    destruct (callback tm) as [q k d|l]; cbn [run_callback]; [|exact Hb].
    unfold bindM, modify. cbn [fst].
    match goal with |- context [settle ?dd ?pp ?uu] =>
      destruct (settle_frame dd pp uu) as (_ & _ & _ & _ & _ & _ & _ & Hq & _)
    end.
    cbn zeta in Hq. rewrite Hq. exact Hb.
  - destruct (closed (socket s)); inversion Hstep; subst. clear Hstep.
    unfold on_message. pose proof (handler_cache msg rinfo s) as Hh.
    destruct (_handler msg rinfo s) as [u [[]|e]]; cbn [fst] in *;
      cbn; rewrite Hh; exact Hb.
  - inversion Hstep; subst. destruct (_socket s) as [[]|] eqn:Hs.
    + rewrite (bind_alive s Hs). exact Hb.
    + rewrite (bind_destroyed s Hs). exact Hb.
  - inversion Hstep; subst. destruct (_socket s) as [[]|] eqn:Hs.
    + rewrite (destroy_alive s Hs). exact Hb.
    + rewrite (destroy_destroyed s Hs). exact Hb.
  - inversion Hstep; subst. destruct Hb as [Hl Hnd].
    destruct (lru_get_bounded (_requestsCache s) (rckey_of p) (clock s) 1000 Hl Hnd)
      as [Hl1 Hnd1].
    destruct (_socket s) as [[]|] eqn:Hs.
    + destruct (snd (LRUCache.get (_requestsCache s) (rckey_of p) (clock s)))
        as [promise|] eqn:Hget.
      * rewrite (ping_hit p s promise Hs Hget). cbn. auto.
      * destruct (valid_port (udpPort p)) eqn:Hport.
        -- rewrite (ping_miss p s Hs Hget Hport). cbn [fst _requestsCache].
           destruct (lru_get_opts (_requestsCache s) (rckey_of p) (clock s))
             as (Hm1 & _).
           match goal with |- context [LRUCache.set ?c ?k ?v ?t] =>
             destruct (lru_set_bounded c k v t) as [Hl2 Hnd2]
           end; [rewrite Hm1, Hmax; lia|exact Hnd1|].
           rewrite Hm1, Hmax in Hl2. split; [exact Hl2|exact Hnd2].
        -- rewrite (ping_unsendable p s Hs Hget Hport). cbn. auto.
    + rewrite (ping_destroyed p s Hs). auto.
  - inversion Hstep; subst. destruct (_socket s) as [[]|] eqn:Hs.
    + destruct (valid_port (udpPort p)) eqn:Hport.
      * rewrite (findneighbours_alive p target s Hs Hport). exact Hb.
      * rewrite (findneighbours_unsendable p target s Hs Hport). exact Hb.
    + rewrite (findneighbours_destroyed p target s Hs). exact Hb.
Qed.

(** X24: The dedup cache never grows beyond its 1000 entries, and never holds
    two entries for one ["address:udpPort"] key, however many peers are
    pinged. *)
Theorem dedup_cache_is_bounded (s : Server.t) :
  reachable s ->
  (length (LRUCache.lruList (_requestsCache s)) <= 1000)%nat
  /\ NoDup (map LRUCache.key (LRUCache.lruList (_requestsCache s))).
Proof.
  induction 1 as [dpt pk timeout endpoint time|a s s' Hr IH Hstep].
  - cbn. split; [lia|constructor].
  - eapply step_cache_bounded; eauto. apply reachable_cache_wf. exact Hr.
Qed.

End ServerBehaviour.

(** ** The key of the dedup cache *)

Section CacheKey.
Import Server.

(** Decimal digits in front of a string keep what holds for it. *)
Lemma pretty_N_go_digits (P : string -> Prop) :
  (forall d s, (d < 10)%N -> P s -> P (String (pretty_N_char d) s)) ->
  forall x s, P s -> P (pretty_N_go x s).
Proof.
  intros Hd x. induction (N.lt_wf_0 x) as [x _ IH]. intros s Hs.
  destruct (N.eq_dec x 0%N) as [->|Hx]; [rewrite pretty_N_go_0; exact Hs|].
  rewrite pretty_N_go_step by lia. apply IH.
  - apply N.div_lt; lia.
  - apply Hd; [apply N.mod_lt; lia|exact Hs].
Qed.

Lemma pretty_Z_chars (P : string -> Prop) (n : Z) :
  (forall d s, (d < 10)%N -> P s -> P (String (pretty_N_char d) s)) ->
  (forall s, P s -> P (String "-" s)) ->
  P EmptyString -> P (pretty n).
Proof.
  intros Hd Hm He.
  assert (Hn : forall x : N, P (pretty x)).
  { intros x. unfold pretty, pretty_N. destruct (decide (x = 0%N)).
    - apply (Hd 0%N); [lia|exact He].
    - apply pretty_N_go_digits; assumption. }
  destruct n as [|x|x]; unfold pretty, pretty_Z.
  - apply (Hd 0%N); [lia|exact He].
  - apply Hn.
  - apply Hm, Hn.
Qed.

Lemma digit_char (d : N) :
  (d < 10)%N -> pretty_N_char d <> ":"%char /\ pretty_N_char d <> "n"%char.
Proof.
  intros _. unfold pretty_N_char. repeat case_match; split; discriminate.
Qed.

(** The rendering of a port holds no colon. *)
Lemma show_port_no_colon (p : option Z) (s1 s2 : string) :
  show_port p <> s1 +:+ String ":" s2.
Proof.
  revert s1 s2. destruct p as [n|]; cbn [show_port].
  - apply (pretty_Z_chars (fun s => forall s1 s2, s <> s1 +:+ String ":" s2)).
    + intros d s Hd Hs [|c s1] s2; cbn; intros Heq; inversion Heq; subst.
      * destruct (digit_char d Hd) as [Hc _]. congruence.
      * eapply Hs. reflexivity.
    + intros s Hs [|c s1] s2; cbn; intros Heq; inversion Heq; subst.
      eapply Hs. reflexivity.
    + intros [|c s1] s2; discriminate.
  - intros [|c1 [|c2 [|c3 [|c4 [|c5 s1]]]]] s2; discriminate.
Qed.

Lemma show_port_inj (p q : option Z) : show_port p = show_port q -> p = q.
Proof.
  assert (Hnull : forall n : Z, pretty n <> "null").
  { intros n.
    assert (Hn : forall s', pretty n <> String "n" s').
    { apply (pretty_Z_chars (fun s => forall s', s <> String "n" s')).
      - intros d s Hd _ s' Heq. inversion Heq.
        destruct (digit_char d Hd) as [_ Hc]. congruence.
      - intros s _ s'. discriminate.
      - discriminate. }
    apply Hn. }
  destruct p as [n|], q as [m|]; cbn [show_port]; intros Heq.
  - f_equal. apply (inj pretty). exact Heq.
  - destruct (Hnull n Heq).
  - destruct (Hnull m (eq_sym Heq)).
  - reflexivity.
Qed.

(** Two strings cut at their last colon. *)
Lemma split_at_last_colon (a1 a2 s1 s2 : string) :
  (forall x y, s1 <> x +:+ String ":" y) ->
  (forall x y, s2 <> x +:+ String ":" y) ->
  a1 +:+ String ":" s1 = a2 +:+ String ":" s2 -> a1 = a2 /\ s1 = s2.
Proof.
  intros H1 H2. revert a2. induction a1 as [|c a1 IH]; intros [|c' a2]; cbn; intros Heq.
  - inversion Heq. auto.
  - inversion Heq; subst. destruct (H1 a2 s2). reflexivity.
  - inversion Heq; subst. destruct (H2 a1 s1). reflexivity.
  - inversion Heq; subst. destruct (IH a2) as [-> ->]; auto.
Qed.

(** X25: The string ["address:udpPort"] that keys the dedup cache is the same
    for two peers exactly when they have the same address and the same
    UDP port (a number or [null]): pings to different destinations are
    never taken for one another, also when an address has colons in it. *)
Theorem rckey_determines_destination (p q : Peer) :
  rckey_of p = rckey_of q <-> address p = address q /\ udpPort p = udpPort q.
Proof.
  split.
  - unfold rckey_of. intros Heq.
    destruct (split_at_last_colon (address p) (address q)
                (show_port (udpPort p)) (show_port (udpPort q))) as [Ha Hp].
    + apply show_port_no_colon.
    + apply show_port_no_colon.
    + exact Heq.
    + split; [exact Ha|]. apply show_port_inj. exact Hp.
  - intros [Ha Hp]. apply rckey_same; assumption.
Qed.

End CacheKey.

(** ** The small instances: their laws, and the theorems at work *)

Section Instances.
#[local] Existing Instance Toy.primitives.
#[local] Existing Instance Toy.message.

Lemma toy_fill_length (n : nat) (b : bytes) : length (Toy.fill n b) = n.
Proof.
  unfold Toy.fill. rewrite length_take, length_app, zeros_length. lia.
Qed.

Lemma toy_sha256_length (m : bytes) : length (sha256 m) = 32%nat.
Proof. apply toy_fill_length. Qed.

Lemma toy_keccak_length (m : bytes) : length (keccak m) = 32%nat.
Proof. apply toy_fill_length. Qed.

Lemma toy_hmac_length (k m : bytes) : length (hmac_sha256 k m) = 32%nat.
Proof.
  cbn. unfold Toy.hmac_sha256. rewrite xor_length, !toy_fill_length. reflexivity.
Qed.

Lemma toy_rlp_length : (length rlp_encode_0_0 <= 13)%nat.
Proof. cbn. lia. Qed.

Lemma toy_rlp_short : (length rlp_encode_0_0 <= 12)%nat.
Proof. cbn. lia. Qed.

Lemma toy_key_pair (k : bytes) :
  length k = 32%nat -> key_pair k (Byte.x04 :: k ++ k).
Proof.
  intros Hk. unfold key_pair. cbn. unfold Toy.publicKeyCreate, Toy.privateKeyVerify.
  rewrite Hk. auto.
Qed.

Lemma toy_key_pair_inv (k pk : bytes) :
  key_pair k pk -> length k = 32%nat /\ pk = Byte.x04 :: k ++ k.
Proof.
  unfold key_pair. cbn. unfold Toy.publicKeyCreate, Toy.privateKeyVerify.
  intros [Hv Hc]. rewrite Hv in Hc. apply Nat.eqb_eq in Hv. inversion Hc. auto.
Qed.

Lemma toy_publicKey_format (k pk : bytes) :
  key_pair k pk -> exists id, pk = Byte.x04 :: id /\ length id = 64%nat.
Proof.
  intros Hk. destruct (toy_key_pair_inv k pk Hk) as [Hl ->].
  eexists. split; [reflexivity|]. rewrite length_app. lia.
Qed.

Lemma toy_publicKey_length (k pk : bytes) : key_pair k pk -> length pk = 65%nat.
Proof.
  intros Hk. destruct (toy_publicKey_format k pk Hk) as (id & -> & Hid).
  cbn [length]. lia.
Qed.

Lemma toy_take_32 (x y : bytes) : length x = 32%nat -> firstn 32 (x ++ y) = x.
Proof. intros Hx. rewrite <- Hx. apply take_app_length. Qed.

Lemma toy_ecdh_agree (a pa b pb : bytes) :
  key_pair a pa -> key_pair b pb ->
  exists z, ecdhUnsafe pb a = Some z /\ ecdhUnsafe pa b = Some z
            /\ length z = 33%nat.
Proof.
  intros Ha Hb.
  destruct (toy_key_pair_inv a pa Ha) as [Hla ->].
  destruct (toy_key_pair_inv b pb Hb) as [Hlb ->].
  exists (Byte.x02 :: util.xor a b). cbn.
  unfold Toy.ecdhUnsafe, Toy.privateKeyVerify. cbn [length].
  rewrite !length_app, Hla, Hlb. cbn [Nat.eqb Nat.add andb skipn].
  rewrite !drop_0, !toy_take_32 by assumption.
  rewrite (xor_comm b a). repeat split.
  rewrite xor_length. lia.
Qed.

Lemma toy_ecdh_agree_weak (a pa b pb : bytes) :
  key_pair a pa -> key_pair b pb ->
  exists z, ecdhUnsafe pb a = Some z /\ ecdhUnsafe pa b = Some z.
Proof.
  intros Ha Hb. destruct (toy_ecdh_agree a pa b pb Ha Hb) as (z & H1 & H2 & _).
  eauto.
Qed.

Lemma toy_sign_recover (msg k pk : bytes) :
  length msg = 32%nat -> key_pair k pk ->
  exists sig rec, sign msg k = Some (sig, rec) /\ length sig = 64%nat
                  /\ 0 <= rec < 256 /\ recover msg sig rec = Some pk.
Proof.
  intros Hm Hk. destruct (toy_key_pair_inv k pk Hk) as [Hl ->].
  exists (k ++ Toy.fill 32 msg), 0. cbn.
  unfold Toy.sign, Toy.recover, Toy.privateKeyVerify.
  rewrite Hl, length_app, toy_fill_length, Hl. cbn [Nat.eqb Nat.add].
  rewrite !toy_take_32 by assumption.
  repeat split; lia.
Qed.

(** *** The key derivation *)

Lemma concatKDF_one_round_witness :
  length (repeat Byte.x00 32) = 32%nat
  /\ concatKDF (repeat Byte.x00 32) 32
     = sha256 ([Byte.x00; Byte.x00; Byte.x00; Byte.x01] ++ repeat Byte.x00 32).
Proof.
  split; [reflexivity|].
  exact (proj2 (proj2 (proj2
    (concatKDF_one_round toy_sha256_length (repeat Byte.x00 32) eq_refl)))).
Defined.

(** *** Frames *)

Lemma mac_failure_keeps_aes_and_bodySize_witness :
  let e := Toy.frame_state (Some 5) in
  ECIES._ingressMac e = Some Toy.mac
  /\ (snd (ECIES.parseHeader Toy.bad_body e) = Throw (Thrown "Invalid MAC")
      /\ ECIES._ingressAes (fst (ECIES.parseHeader Toy.bad_body e)) = Some Toy.cipher
      /\ ECIES._bodySize (fst (ECIES.parseHeader Toy.bad_body e)) = Some 5)
  /\ (snd (ECIES.parseBody Toy.bad_body e) = Throw (Thrown "Invalid MAC")
      /\ ECIES._ingressAes (fst (ECIES.parseBody Toy.bad_body e)) = Some Toy.cipher
      /\ ECIES._bodySize (fst (ECIES.parseBody Toy.bad_body e)) = Some 5).
Proof.
  intros e.
  destruct (mac_failure_keeps_aes_and_bodySize e Toy.mac Toy.bad_body eq_refl)
    as [Hheader Hbody].
  split; [reflexivity|]. split.
  - destruct Hheader as (H1 & H2 & H3 & _); [vm_compute; discriminate|].
    rewrite H2, H3. split; [exact H1|]. split; reflexivity.
  - destruct Hbody as (H1 & H2 & H3 & _);
      [discriminate|vm_compute; discriminate|].
    rewrite H2, H3. split; [exact H1|]. split; reflexivity.
Defined.

(** After a body with a wrong tag, a body with the right tag is read: the
    second of two consecutive [parseBody] calls returns. *)
Lemma parseBody_twice_counterexample :
  let e := Toy.frame_state (Some 5) in
  snd (ECIES.parseBody Toy.bad_body e) = Throw (Thrown "Invalid MAC")
  /\ snd (ECIES.parseBody Toy.next_body (fst (ECIES.parseBody Toy.bad_body e)))
     = Return [Byte.xf5; Byte.xf4; Byte.xf3; Byte.xf2; Byte.xf1]
  /\ ~ (exists err,
          snd (ECIES.parseBody Toy.next_body (fst (ECIES.parseBody Toy.bad_body e)))
          = Throw err).
Proof.
  intros e. split; [vm_compute; reflexivity|].
  assert (Hret : snd (ECIES.parseBody Toy.next_body
                        (fst (ECIES.parseBody Toy.bad_body e)))
                 = Return [Byte.xf5; Byte.xf4; Byte.xf3; Byte.xf2; Byte.xf1])
    by (vm_compute; reflexivity).
  split; [exact Hret|]. intros [err Herr]. rewrite Hret in Herr. discriminate.
Qed.

Lemma parseBody_twice_witness :
  let waiting := fst (ECIES.parseBody Toy.bad_body (Toy.frame_state (Some 5))) in
  ECIES._bodySize (Toy.frame_state None) = None
  /\ ECIES.parseBody Toy.bad_body (Toy.frame_state None)
     = (Toy.frame_state None, Throw (Thrown "need to parse header first"))
  /\ ECIES._bodySize (fst (ECIES.parseBody Toy.next_body waiting)) = None
  /\ exists err,
       snd (ECIES.parseBody Toy.bad_body (fst (ECIES.parseBody Toy.next_body waiting)))
       = Throw err.
Proof.
  intros waiting.
  split; [reflexivity|]. split.
  - apply (proj1 (parseBody_twice (Toy.frame_state None) Toy.bad_body Toy.bad_body)).
    reflexivity.
  - destruct (parseBody_twice waiting Toy.next_body Toy.bad_body) as (_ & Hclear & Hnext).
    split.
    + eapply Hclear. vm_compute. reflexivity.
    + apply Hnext. vm_compute. discriminate.
Defined.

Lemma frame_roundtrip_witness :
  let e := Toy.frame_state None in
  ECIES.mirrored e e
  /\ Z.of_nat (length Toy.hello) <= 2 ^ 24 - 1
  /\ exists sender1 sender2 receiver1 receiver2 header body,
       ECIES.createHeader 5 e = (sender1, Return header)
       /\ ECIES.parseHeader header e = (receiver1, Return 5)
       /\ ECIES.createBody Toy.hello sender1 = (sender2, Return body)
       /\ ECIES.parseBody body receiver1 = (receiver2, Return Toy.hello)
       /\ Z.of_nat (length body) = 32.
Proof.
  intros e.
  assert (Hm : ECIES.mirrored e e).
  { split; [exists Toy.cipher|exists Toy.mac]; split; reflexivity. }
  assert (Hl : Z.of_nat (length Toy.hello) <= 2 ^ 24 - 1) by (cbn; lia).
  split; [exact Hm|]. split; [exact Hl|].
  destruct (frame_roundtrip toy_keccak_length toy_rlp_length e e Toy.hello Hm Hl)
    as (s1 & s2 & r1 & r2 & header & body & H1 & H2 & H3 & H4 & _ & H6 & _).
  exists s1, s2, r1, r2, header, body. repeat split; assumption.
Defined.

(** *** The handshake *)

Lemma decryptMessage_inverts_encryptMessage_witness :
  let e := Toy.frame_state None in
  let priv := repeat Byte.x01 32 in
  let r := repeat Byte.x07 32 in
  let IV := repeat Byte.x08 16 in
  key_pair priv (Byte.x04 :: priv ++ priv)
  /\ key_pair r (Byte.x04 :: r ++ r)
  /\ length IV = 16%nat
  /\ ECIES._remotePublicKey e = Some (Byte.x04 :: priv ++ priv)
  /\ ECIES._privateKey e = priv
  /\ exists envelope,
       ECIES._encryptMessage r IV Toy.hello e = (e, Return envelope)
       /\ length envelope = (65 + 16 + 5 + 32)%nat
       /\ ECIES._decryptMessage envelope e = (e, Return Toy.hello).
Proof.
  intros e priv r IV.
  assert (Hk : key_pair priv (Byte.x04 :: priv ++ priv))
    by (apply toy_key_pair; reflexivity).
  assert (Hr : key_pair r (Byte.x04 :: r ++ r))
    by (apply toy_key_pair; reflexivity).
  split; [exact Hk|]. split; [exact Hr|]. split; [reflexivity|].
  split; [reflexivity|]. split; [reflexivity|].
  destruct (decryptMessage_inverts_encryptMessage toy_sha256_length toy_hmac_length
              toy_publicKey_length toy_ecdh_agree_weak e e priv
              (Byte.x04 :: priv ++ priv) r (Byte.x04 :: r ++ r) IV Toy.hello
              Hk Hr eq_refl eq_refl eq_refl)
    as (C & tag & envelope & He & -> & HR & HIV & HC & Htag & Hd).
  exists (Byte.x04 :: r ++ r ++ IV ++ C ++ tag).
  split; [exact He|]. split; [|exact Hd].
  cbn [length]. rewrite !length_app. cbn [length] in HR. rewrite HC, Htag.
  reflexivity.
Defined.

Lemma handshake_agreement_witness :
  let key (b : byte) := repeat b 32 in
  let pub (b : byte) := Byte.x04 :: key b ++ key b in
  key_pair (key Byte.x01) (pub Byte.x01)
  /\ key_pair (key Byte.x02) (pub Byte.x02)
  /\ key_pair (key Byte.x05) (pub Byte.x05)
  /\ key_pair (key Byte.x06) (pub Byte.x06)
  /\ exists initiator2 responder2,
       ECIES.mirrored initiator2 responder2
       /\ ECIES.mirrored responder2 initiator2
       /\ ECIES._ephemeralSharedSecret initiator2
          = ECIES._ephemeralSharedSecret responder2
       /\ ECIES.session [(true, Toy.hello); (false, []); (true, repeat Byte.x00 16)]
            initiator2 responder2.
Proof.
  intros key pub.
  assert (Hk : forall b, key_pair (key b) (pub b))
    by (intros b; apply toy_key_pair; apply repeat_length).
  split; [apply Hk|]. split; [apply Hk|]. split; [apply Hk|]. split; [apply Hk|].
  destruct (handshake_agreement toy_sha256_length toy_hmac_length toy_keccak_length
              toy_rlp_length toy_publicKey_format toy_ecdh_agree toy_sign_recover
              (key Byte.x01) (pub Byte.x01) (key Byte.x02) (pub Byte.x02)
              (key Byte.x05) (pub Byte.x05) (key Byte.x06) (pub Byte.x06)
              (key Byte.x03) (key Byte.x04)
              (key Byte.x07) (pub Byte.x07) (repeat Byte.x08 16)
              (key Byte.x09) (pub Byte.x09) (repeat Byte.x0a 16)
              (Hk _) (Hk _) (Hk _) (Hk _) eq_refl eq_refl
              (Hk _) eq_refl (Hk _) eq_refl)
    as (i0 & r0 & auth & ack & i1 & i2 & r1 & r2 & _ & _ & _ & _ & _ & _
        & (ess & Hei & Her) & _ & _ & _ & Hab & Hba & Hsession).
  exists i2, r2. split; [exact Hab|]. split; [exact Hba|].
  split; [rewrite Hei, Her; reflexivity|].
  apply Hsession. repeat constructor; cbn; lia.
Defined.

Lemma repeat_Z_length {A : Type} (b : A) (n : Z) :
  0 <= n -> Z.of_nat (length (repeat b (Z.to_nat n))) = n.
Proof. intros Hn. rewrite repeat_length. apply Z2Nat.id. exact Hn. Qed.

(** The handshake of the small instances returns and leaves mirrored
    states, and yet a frame of [2^24] zero bytes written by the initiator
    does not arrive: the responder reads 65536 from the header as its
    size. *)
Lemma handshake_agreement_counterexample :
  let data := repeat Byte.x00 (Z.to_nat (2 ^ 24)) in
  ECIES.createAuth (Toy.key Byte.x07) (repeat Byte.x08 16) Toy.initiator
  = (Toy.initiator1, Return Toy.auth)
  /\ ECIES.parseAuth Toy.auth Toy.responder = (Toy.responder1, Return tt)
  /\ ECIES.createAck (Toy.key Byte.x09) (repeat Byte.x0a 16) Toy.responder1
     = (Toy.responder2, Return Toy.ack)
  /\ ECIES.parseAck Toy.ack Toy.initiator1 = (Toy.initiator2, Return tt)
  /\ ECIES.mirrored Toy.initiator2 Toy.responder2
  /\ Z.of_nat (length data) = 2 ^ 24
  /\ (exists sender1 receiver1 header,
        ECIES.createHeader (2 ^ 24) Toy.initiator2 = (sender1, Return header)
        /\ ECIES.parseHeader header Toy.responder2 = (receiver1, Return 65536))
  /\ ~ ECIES.session [(true, data)] Toy.initiator2 Toy.responder2.
Proof.
  assert (Hm : ECIES.mirrored Toy.initiator2 Toy.responder2).
  { split; eexists; split; vm_compute; reflexivity. }
  assert (H1 : ECIES.createAuth (Toy.key Byte.x07) (repeat Byte.x08 16) Toy.initiator
               = (Toy.initiator1, Return Toy.auth)) by (vm_compute; reflexivity).
  assert (H2 : ECIES.parseAuth Toy.auth Toy.responder = (Toy.responder1, Return tt))
    by (vm_compute; reflexivity).
  assert (H3 : ECIES.createAck (Toy.key Byte.x09) (repeat Byte.x0a 16) Toy.responder1
               = (Toy.responder2, Return Toy.ack)) by (vm_compute; reflexivity).
  assert (H4 : ECIES.parseAck Toy.ack Toy.initiator1 = (Toy.initiator2, Return tt))
    by (vm_compute; reflexivity).
  intros data.
  assert (Hlen : Z.of_nat (length data) = 2 ^ 24).
  { apply (repeat_Z_length Byte.x00 (2 ^ 24)). lia. }
  split; [exact H1|]. split; [exact H2|]. split; [exact H3|]. split; [exact H4|].
  split; [exact Hm|]. split; [exact Hlen|]. split.
  { destruct Hm as [(c & Hec & Hic) (m & Hem & Him)].
    destruct (oversized_header_run toy_keccak_length toy_rlp_short
                Toy.initiator2 Toy.responder2 c m (2 ^ 24) Hec Hic Hem Him)
      as (s1 & header & Hc & _ & r1 & Hp & _); [lia|].
    exists s1, r1, header. split; [exact Hc|exact Hp]. }
  intros (a' & b' & Ht & _). revert Ht.
  apply (oversized_frame_is_lost toy_keccak_length toy_rlp_short).
  - exact Hm.
  - rewrite Hlen. lia.
Qed.

(** *** The discovery server *)

Lemma toy_server1_reachable : Server.reachable Toy.server1.
Proof.
  eapply (Server.reachable_step (Server.CallPing Toy.peer));
    [apply Server.reachable_new|reflexivity].
Qed.

Lemma unknown_ping_announces_sender_witness :
  let s := Toy.server0 in
  let s' := fst (Server.on_message Toy.ping1 Toy.rinfo s) in
  let known := Server.new Toy.dpt_full (repeat Byte.x01 32) None None 0 in
  let known' := fst (Server.on_message Toy.ping1 Toy.rinfo known) in
  Server.reachable s
  /\ Server.decode Toy.ping1
     = Return {| Server.data := Server.Ping Server.VERSION Toy.from Toy.to;
                 Server.publicKey := Toy.senderKey |}
  /\ Server.step (Server.Receive Toy.ping1 Toy.rinfo) s = Some s'
  /\ Server.timers s' !! 0%nat
     = Some {| Server.due := 100; Server.callback := Server.EmitPeers [Toy.from] |}
  /\ Server.emitted s' = []
  /\ Server.step (Server.TimerFires 0) (Server.set_clock 99 s') = None
  /\ (exists u', Server.step (Server.TimerFires 0) (Server.set_clock 100 s') = Some u'
                 /\ Server.emitted u' = [Server.peers [Toy.from]])
  /\ Server.timers known' = Server.timers known
  /\ Server.emitted known' = [].
Proof.
  intros s s' known known'.
  assert (Hr : Server.reachable s) by apply Server.reachable_new.
  assert (Hd : Server.decode Toy.ping1
               = Return {| Server.data := Server.Ping Server.VERSION Toy.from Toy.to;
                           Server.publicKey := Toy.senderKey |})
    by reflexivity.
  assert (Hstep : Server.step (Server.Receive Toy.ping1 Toy.rinfo) s = Some s')
    by reflexivity.
  destruct (unknown_ping_announces_sender s s' Toy.ping1 Toy.rinfo Server.VERSION
              Toy.from Toy.to Toy.senderKey Hr Hd Hstep) as [Hunknown _].
  destruct Hunknown as (_ & Htimers & Hemitted & Hfire);
    [reflexivity|discriminate|].
  assert (Hi : Server.timers s' !! 0%nat
               = Some {| Server.due := 100;
                         Server.callback := Server.EmitPeers [Toy.from] |})
    by (rewrite Htimers; apply lookup_insert_eq).
  destruct (Hfire (Server.set_clock 99 s') Hi) as [Hearly _].
  destruct (Hfire (Server.set_clock 100 s') Hi) as [_ Hlate].
  destruct Hlate as (u' & Hu' & Hem & _); [cbn; lia|].
  destruct (unknown_ping_announces_sender known known' Toy.ping1 Toy.rinfo
              Server.VERSION Toy.from Toy.to Toy.senderKey
              (Server.reachable_new _ _ _ _ _) Hd eq_refl) as [_ Hknown].
  destruct Hknown as [Hkt Hke]; [left; discriminate|].
  split; [exact Hr|]. split; [exact Hd|]. split; [exact Hstep|].
  split; [exact Hi|]. split; [exact Hemitted|].
  split; [apply Hearly; cbn; lia|].
  split.
  { exists u'. split; [exact Hu'|]. rewrite Hem.
    cbn [Server.emitted Server.set_clock]. rewrite Hemitted. reflexivity. }
  split; [exact Hkt|exact Hke].
Defined.

(** C3: a pong does not cancel the timeout of the ping that it answers.
    A new server pings a peer and receives the pong that answers it: the
    promise is resolved and the request is gone, but the timer of the
    timeout is still scheduled, ten seconds after the ping.  The timer
    fires later, and its callback deletes whatever request is then under
    the key: here that of a second ping of the same peer, whose packet has
    the same hash.  The pong that answers the second ping then finds no
    request and is ignored, and the second promise stays pending. *)
Theorem pong_leaves_timeout_running :
  let descriptor :=
    {| Server.id := Some (util.pk2id Toy.senderKey); Server.address := "127.0.0.1";
       Server.udpPort := Some 30303; Server.tcpPort := Some 30303 |} in
  exists answered late ignored,
    Server._requests Toy.server1 !! Toy.rkey1 = Some Toy.request1
    /\ Server.run [Server.CallPing Toy.peer; Server.Receive Toy.pong1 Toy.rinfo]
         Toy.server0 = Some answered
    /\ Server.promises answered = [Server.Resolved descriptor]
    /\ Server._requests answered !! Toy.rkey1 = None
    /\ Server.timers answered !! Server.timeoutId Toy.request1
       = Some {| Server.due := 10000;
                 Server.callback := Server.PingTimeout Toy.peer Toy.rkey1 0 |}
    /\ Server.run [Server.Elapse 1500; Server.CallPing Toy.peer]
         answered
       = Some (fst (Server.ping Toy.peer (Server.set_clock 1500 answered)))
    /\ Server._requests (fst (Server.ping Toy.peer (Server.set_clock 1500 answered)))
         !! Toy.rkey1
       = Some {| Server.peer := Toy.peer; Server.deferred := 1;
                 Server.timeoutId := 1 |}
    /\ Server.run [Server.Elapse 1500; Server.CallPing Toy.peer;
                   Server.Elapse 8500; Server.TimerFires 0] answered = Some late
    /\ Server.promises late = [Server.Resolved descriptor; Server.Pending]
    /\ Server._requests late !! Toy.rkey1 = None
    /\ Server.step (Server.Receive Toy.pong1 Toy.rinfo) late = Some ignored
    /\ Server.promises ignored = [Server.Resolved descriptor; Server.Pending].
Proof.
  intros descriptor. eexists _, _, _.
  split; [vm_compute; reflexivity|].
  split; [vm_compute; reflexivity|].
  split; [vm_compute; reflexivity|].
  split; [vm_compute; reflexivity|].
  split; [vm_compute; reflexivity|].
  split; [vm_compute; reflexivity|].
  split; [vm_compute; reflexivity|].
  split; [vm_compute; reflexivity|].
  split; [vm_compute; reflexivity|].
  split; [vm_compute; reflexivity|].
  split; vm_compute; reflexivity.
Qed.

(** The lemma on pongs, at the first pong of that run. *)
Lemma pong_resolves_request_witness :
  let s' := fst (Server.on_message Toy.pong1 Toy.rinfo Toy.server1) in
  Server.reachable Toy.server1
  /\ Server.decode Toy.pong1
     = Return {| Server.data := Server.Pong Toy.to Toy.hash1;
                 Server.publicKey := Toy.senderKey |}
  /\ Server.step (Server.Receive Toy.pong1 Toy.rinfo) Toy.server1 = Some s'
  /\ Server._requests Toy.server1 !! Toy.rkey1 = Some Toy.request1
  /\ Server._requests s' = delete Toy.rkey1 (Server._requests Toy.server1)
  /\ Server.promises s' !! 0%nat
     = Some (Server.Resolved
               {| Server.id := Some (util.pk2id Toy.senderKey);
                  Server.address := "127.0.0.1";
                  Server.udpPort := Some 30303; Server.tcpPort := Some 30303 |})
  /\ Server.timers s' = Server.timers Toy.server1.
Proof.
  intros s'.
  assert (Hd : Server.decode Toy.pong1
               = Return {| Server.data := Server.Pong Toy.to Toy.hash1;
                           Server.publicKey := Toy.senderKey |})
    by reflexivity.
  assert (Hstep : Server.step (Server.Receive Toy.pong1 Toy.rinfo) Toy.server1
                  = Some s') by reflexivity.
  assert (Hreq : Server._requests Toy.server1 !! Toy.rkey1 = Some Toy.request1)
    by (vm_compute; reflexivity).
  destruct (pong_resolves_request Toy.server1 s' Toy.pong1 Toy.rinfo Toy.to
              Toy.hash1 Toy.senderKey toy_server1_reachable Hd Hstep) as [Hmatch _].
  destruct (Hmatch Toy.request1 Hreq) as (H1 & _ & H3 & _ & _ & _ & H7 & _).
  split; [exact toy_server1_reachable|]. split; [exact Hd|]. split; [exact Hstep|].
  split; [exact Hreq|]. split; [exact H1|]. split; [exact H3|exact H7].
Defined.

(** A ping, then [destroy], then ten seconds: the timer fires and rejects
    the promise that was pending when the server was destroyed. *)
Lemma destroy_leaves_timeouts_counterexample :
  exists destroyed later,
    Server.run [Server.CallPing Toy.peer; Server.CallDestroy] Toy.server0
    = Some destroyed
    /\ Server._socket destroyed = None
    /\ Server.promises destroyed = [Server.Pending]
    /\ Server.timers destroyed !! 0%nat <> None
    /\ Server.run [Server.Elapse 10000; Server.TimerFires 0] destroyed = Some later
    /\ Server.promises later
       = [Server.Rejected (Thrown "Timeout error: ping 127.0.0.1:30303")]
    /\ Server.promises later !! 0%nat <> Some Server.Pending.
Proof.
  eexists _, _. split; [reflexivity|]. split; [reflexivity|].
  split; [reflexivity|]. split; [vm_compute; discriminate|].
  split; [vm_compute; reflexivity|].
  split; vm_compute; [reflexivity|discriminate].
Qed.

Lemma destroy_leaves_timeouts_witness :
  let s' := fst (Server.destroy Toy.server1) in
  Server.reachable Toy.server1
  /\ Server._socket Toy.server1 = Some tt
  /\ Server._requests Toy.server1 !! Toy.rkey1 = Some Toy.request1
  /\ Server.step Server.CallDestroy Toy.server1 = Some s'
  /\ Server.timers s' = Server.timers Toy.server1
  /\ Server.promises s' !! 0%nat = Some Server.Pending
  /\ forall l u, Server.run l s' = Some u ->
       (Server.promises u !! 0%nat = Some Server.Pending
        /\ is_Some (Server.timers u !! 0%nat))
       \/ Server.promises u !! 0%nat
          = Some (Server.Rejected (Thrown "Timeout error: ping 127.0.0.1:30303")).
Proof.
  intros s'.
  assert (Hreq : Server._requests Toy.server1 !! Toy.rkey1 = Some Toy.request1)
    by (vm_compute; reflexivity).
  assert (Hstep : Server.step Server.CallDestroy Toy.server1 = Some s')
    by reflexivity.
  destruct (destroy_leaves_timeouts Toy.server1 s' Toy.rkey1 Toy.request1
              toy_server1_reachable eq_refl Hreq Hstep)
    as (t & (_ & _ & Htimers & _) & (Hpend & _) & Hrun & _).
  split; [exact toy_server1_reachable|]. split; [reflexivity|].
  split; [exact Hreq|]. split; [exact Hstep|]. split; [exact Htimers|].
  split; [exact Hpend|].
  intros l u Hl. destruct (Hrun l u Hl) as [[Hp Ht]|Hf].
  - left. split; [exact Hp|]. eexists. exact Ht.
  - right. exact Hf.
Defined.



(** *** More of the key derivation, the frames and the handshake *)

Lemma toy_well_keyed_initiator : well_keyed Toy.initiator.
Proof. repeat split; reflexivity. Qed.

Lemma toy_well_keyed_responder : well_keyed Toy.responder.
Proof. repeat split; reflexivity. Qed.

Lemma toy_well_keyed_initiator1 : well_keyed Toy.initiator1.
Proof. repeat split; reflexivity. Qed.

Lemma toy_well_keyed_responder1 : well_keyed Toy.responder1.
Proof. repeat split; reflexivity. Qed.

Lemma concatKDF_rounds_witness :
  0 <= 64 < 2 ^ 32
  /\ concatKDF_buffers Toy.hello 64
     = [ sha256 ([Byte.x00; Byte.x00; Byte.x00; Byte.x01] ++ Toy.hello);
         sha256 ([Byte.x00; Byte.x00; Byte.x00; Byte.x02] ++ Toy.hello) ].
Proof.
  assert (Hl : 0 <= 64 < 2 ^ 32) by lia.
  split; [exact Hl|].
  destruct (concatKDF_rounds Toy.hello 64 Hl) as (Hb & _). rewrite Hb. reflexivity.
Defined.

Lemma concatKDF_length_witness :
  0 <= 33 < 2 ^ 32
  /\ Z.of_nat (length (concatKDF Toy.hello 33)) = 32
  /\ Z.of_nat (length (concatKDF Toy.hello 20)) = 20.
Proof.
  assert (Hl : 0 <= 33 < 2 ^ 32) by lia. split; [exact Hl|]. split.
  - destruct (concatKDF_length toy_sha256_length Toy.hello 33 Hl) as (_ & _ & H & _).
    destruct H as [_ H]; [lia|exact H].
  - destruct (concatKDF_length toy_sha256_length Toy.hello 20) as (_ & H & _); [lia|].
    destruct H as [_ H]; [lia|exact H].
Defined.

Lemma frame_methods_need_handshake_witness :
  ECIES.new (Toy.key Byte.x02) (util.pk2id (Toy.pub Byte.x02)) None
    (Toy.key Byte.x04) (Toy.key Byte.x06) = Return Toy.responder
  /\ ECIES.createHeader 5 Toy.responder = (Toy.responder, Throw TypeError)
  /\ ECIES.parseHeader Toy.bad_body Toy.responder = (Toy.responder, Throw TypeError)
  /\ ECIES.createAck (Toy.key Byte.x09) (repeat Byte.x0a 16) Toy.responder
     = (Toy.responder, Throw TypeError).
Proof.
  assert (Hnew : ECIES.new (Toy.key Byte.x02) (util.pk2id (Toy.pub Byte.x02)) None
                   (Toy.key Byte.x04) (Toy.key Byte.x06) = Return Toy.responder)
    by reflexivity.
  destruct (frame_methods_need_handshake _ _ _ _ _ Toy.responder 5 Toy.bad_body Hnew)
    as (H1 & _ & H3 & _ & H5).
  split; [exact Hnew|]. split; [exact H1|]. split; [exact H3|].
  apply (H5 eq_refl).
Defined.

Lemma parseBody_ignores_body_length_witness :
  let body := repeat Byte.xff 16 in
  let data := body ++ MAC.digest (MAC.updateBody Toy.mac body) in
  let e := Toy.frame_state (Some 100) in
  MAC.digest (MAC.updateBody Toy.mac (Buffer.slice data 0 (-16)))
  = Buffer.slice_from data (-16)
  /\ exists e' out,
       ECIES.parseBody data e = (e', Return out)
       /\ Z.of_nat (length out) = 16.
Proof.
  intros body data e.
  assert (Hmac : MAC.digest (MAC.updateBody Toy.mac (Buffer.slice data 0 (-16)))
                 = Buffer.slice_from data (-16)) by (vm_compute; reflexivity).
  split; [exact Hmac|].
  destruct (parseBody_ignores_body_length e Toy.cipher Toy.mac 100 data
              eq_refl eq_refl eq_refl ltac:(lia) Hmac)
    as (e' & out & Hp & _ & Hb & Hl & _).
  exists e', out. split; [exact Hp|].
  rewrite Hl, Hb. vm_compute. reflexivity.
Defined.

Lemma oversized_header_is_misread_witness :
  let e := Toy.frame_state None in
  ECIES.mirrored e e
  /\ 2 ^ 24 <= 16777216 < 2 ^ 32
  /\ exists sender1 receiver1 header,
       ECIES.createHeader 16777216 e = (sender1, Return header)
       /\ ECIES.parseHeader header e = (receiver1, Return 65536).
Proof.
  intros e.
  assert (Hm : ECIES.mirrored e e).
  { split; [exists Toy.cipher|exists Toy.mac]; split; reflexivity. }
  assert (Hn : 2 ^ 24 <= 16777216 < 2 ^ 32) by lia.
  split; [exact Hm|]. split; [exact Hn|].
  destruct (oversized_header_is_misread toy_keccak_length toy_rlp_short e e 16777216
              Hm Hn) as (s1 & r1 & header & H1 & _ & H3 & _).
  exists s1, r1, header. split; [exact H1|exact H3].
Defined.

Lemma decryptMessage_rejects_bad_tag_witness :
  let bad := firstn 306 Toy.auth ++ [Byte.x00] in
  ECIES._decryptMessage bad Toy.responder
  = (Toy.responder, Throw (Thrown "should have valid tag"))
  /\ ECIES.parseAuth bad Toy.responder
     = (ECIES.set_remoteInitMsg (Some bad) Toy.responder,
        Throw (Thrown "should have valid tag")).
Proof.
  intros bad.
  edestruct (decryptMessage_rejects_bad_tag Toy.responder bad) as (H1 & _ & H3).
  - vm_compute. reflexivity.
  - vm_compute. discriminate.
  - split; [exact H1|exact H3].
Defined.

Lemma parseAuth_accepts_witness :
  ECIES.parseAuth Toy.auth Toy.responder = (Toy.responder1, Return tt)
  /\ exists decypted rpk,
       Z.of_nat (length decypted) = 194
       /\ ECIES._remoteEphemeralPublicKey Toy.responder1 = Some rpk
       /\ util.keccak256 [util.pk2id rpk] = Buffer.slice decypted 65 97.
Proof.
  assert (Hp : ECIES.parseAuth Toy.auth Toy.responder = (Toy.responder1, Return tt))
    by (vm_compute; reflexivity).
  split; [exact Hp|].
  destruct (parseAuth_accepts Toy.responder Toy.responder1 Toy.auth Hp)
    as (decypted & x & recoveryId & rpk & ess & _ & Hl & _ & _ & _ & _ & _ & Hh & He).
  exists decypted, rpk. split; [exact Hl|]. split; [|exact Hh].
  rewrite He. reflexivity.
Defined.

Lemma parseAck_accepts_witness :
  ECIES.parseAck Toy.ack Toy.initiator1
  = (fst (ECIES.parseAck Toy.ack Toy.initiator1), Return tt)
  /\ exists decypted,
       Z.of_nat (length decypted) = 97
       /\ ECIES._remoteNonce (fst (ECIES.parseAck Toy.ack Toy.initiator1))
          = Some (Buffer.slice decypted 64 96)
       /\ is_Some (ECIES._ingressMac (fst (ECIES.parseAck Toy.ack Toy.initiator1))).
Proof.
  assert (Hp : ECIES.parseAck Toy.ack Toy.initiator1
               = (fst (ECIES.parseAck Toy.ack Toy.initiator1), Return tt))
    by (vm_compute; reflexivity).
  split; [exact Hp|].
  destruct (parseAck_accepts Toy.initiator1 _ Toy.ack Hp)
    as (decypted & ess & initMsg & _ & Hl & _ & _ & _ & _ & Hn & _ & _ & _ & _ & Hm & _).
  exists decypted. split; [exact Hl|]. split; [exact Hn|exact Hm].
Defined.

Lemma handshake_packets_checked_by_length_witness :
  let envelope :=
    Toy.packet (snd (ECIES._encryptMessage (Toy.key Byte.x07) (repeat Byte.x08 16)
                       Toy.hello Toy.initiator)) in
  key_pair (Toy.key Byte.x02) (Toy.pub Byte.x02)
  /\ key_pair (Toy.key Byte.x07) (Toy.pub Byte.x07)
  /\ ECIES.parseAuth envelope Toy.responder
     = (ECIES.set_remoteInitMsg (Some envelope) Toy.responder,
        Throw (Thrown "invalid packet length"))
  /\ ECIES.parseAck envelope Toy.responder
     = (Toy.responder, Throw (Thrown "invalid packet length")).
Proof.
  intros envelope.
  assert (Hk : key_pair (Toy.key Byte.x02) (Toy.pub Byte.x02))
    by (apply toy_key_pair; reflexivity).
  assert (Hr : key_pair (Toy.key Byte.x07) (Toy.pub Byte.x07))
    by (apply toy_key_pair; reflexivity).
  split; [exact Hk|]. split; [exact Hr|].
  destruct (handshake_packets_checked_by_length toy_sha256_length toy_hmac_length
              toy_publicKey_format toy_ecdh_agree Toy.initiator Toy.initiator
              Toy.responder (Toy.key Byte.x02) (Toy.pub Byte.x02)
              (Toy.key Byte.x07) (Toy.pub Byte.x07) (repeat Byte.x08 16)
              Toy.hello envelope Hk Hr eq_refl eq_refl eq_refl)
    as [Hauth Hack].
  - vm_compute. reflexivity.
  - split; [apply Hauth|apply Hack]; discriminate.
Defined.

Lemma createAuth_packet_witness :
  well_keyed Toy.initiator
  /\ key_pair (Toy.key Byte.x02) (Toy.pub Byte.x02)
  /\ key_pair (Toy.key Byte.x07) (Toy.pub Byte.x07)
  /\ exists auth,
       ECIES.createAuth (Toy.key Byte.x07) (repeat Byte.x08 16) Toy.initiator
       = (ECIES.set_initMsg (Some auth) Toy.initiator, Return auth)
       /\ length auth = 307%nat.
Proof.
  assert (Hk : key_pair (Toy.key Byte.x02) (Toy.pub Byte.x02))
    by (apply toy_key_pair; reflexivity).
  assert (Hr : key_pair (Toy.key Byte.x07) (Toy.pub Byte.x07))
    by (apply toy_key_pair; reflexivity).
  split; [exact toy_well_keyed_initiator|]. split; [exact Hk|]. split; [exact Hr|].
  destruct (createAuth_packet toy_sha256_length toy_hmac_length toy_keccak_length
              toy_publicKey_format toy_ecdh_agree toy_sign_recover
              Toy.initiator (Toy.key Byte.x02) (Toy.pub Byte.x02)
              (Toy.key Byte.x07) (Toy.pub Byte.x07) (repeat Byte.x08 16)
              toy_well_keyed_initiator Hk eq_refl Hr eq_refl)
    as (auth & H1 & H2 & _).
  exists auth. split; [exact H1|exact H2].
Defined.

Lemma parseAuth_learns_initiator_witness :
  well_keyed Toy.initiator /\ well_keyed Toy.responder
  /\ key_pair (Toy.key Byte.x07) (Toy.pub Byte.x07)
  /\ ECIES.createAuth (Toy.key Byte.x07) (repeat Byte.x08 16) Toy.initiator
     = (Toy.initiator1, Return Toy.auth)
  /\ snd (ECIES.parseAuth Toy.auth Toy.responder) = Return tt
  /\ ECIES._remotePublicKey Toy.responder1 = Some (Toy.pub Byte.x01)
  /\ ECIES._remoteNonce Toy.responder1 = Some (Toy.key Byte.x03)
  /\ ECIES._remoteEphemeralPublicKey Toy.responder1 = Some (Toy.pub Byte.x05).
Proof.
  assert (Hr : key_pair (Toy.key Byte.x07) (Toy.pub Byte.x07))
    by (apply toy_key_pair; reflexivity).
  assert (Hc : ECIES.createAuth (Toy.key Byte.x07) (repeat Byte.x08 16) Toy.initiator
               = (Toy.initiator1, Return Toy.auth)) by (vm_compute; reflexivity).
  split; [exact toy_well_keyed_initiator|]. split; [exact toy_well_keyed_responder|].
  split; [exact Hr|]. split; [exact Hc|].
  destruct (parseAuth_learns_initiator toy_sha256_length toy_hmac_length
              toy_keccak_length toy_publicKey_format toy_ecdh_agree toy_sign_recover
              Toy.initiator Toy.initiator1 Toy.responder
              (Toy.key Byte.x07) (Toy.pub Byte.x07) (repeat Byte.x08 16) Toy.auth
              toy_well_keyed_initiator toy_well_keyed_responder eq_refl Hr eq_refl Hc)
    as (ess & _ & _ & Hp).
  unfold Toy.responder1. rewrite Hp. repeat split.
Defined.

Lemma createAck_packet_witness :
  well_keyed Toy.responder1
  /\ key_pair (Toy.key Byte.x01) (Toy.pub Byte.x01)
  /\ key_pair (Toy.key Byte.x09) (Toy.pub Byte.x09)
  /\ ECIES._remotePublicKey Toy.responder1 = Some (Toy.pub Byte.x01)
  /\ ECIES._remoteNonce Toy.responder1 = Some (Toy.key Byte.x03)
  /\ ECIES._remoteInitMsg Toy.responder1 = Some Toy.auth
  /\ exists ack r2,
       ECIES.createAck (Toy.key Byte.x09) (repeat Byte.x0a 16) Toy.responder1
       = (r2, Return ack)
       /\ length ack = 210%nat
       /\ ECIES._initMsg r2 = Some ack
       /\ ECIES._egressAes r2 = ECIES._ingressAes r2.
Proof.
  assert (Hk : key_pair (Toy.key Byte.x01) (Toy.pub Byte.x01))
    by (apply toy_key_pair; reflexivity).
  assert (Hr : key_pair (Toy.key Byte.x09) (Toy.pub Byte.x09))
    by (apply toy_key_pair; reflexivity).
  split; [exact toy_well_keyed_responder1|]. split; [exact Hk|]. split; [exact Hr|].
  split; [reflexivity|]. split; [reflexivity|]. split; [reflexivity|].
  destruct (createAck_packet toy_sha256_length toy_hmac_length toy_keccak_length
               toy_publicKey_format toy_ecdh_agree
               Toy.responder1 (Toy.key Byte.x01) (Toy.pub Byte.x01) (Toy.key Byte.x03)
               (Toy.key Byte.x03) Toy.auth (Toy.key Byte.x09) (Toy.pub Byte.x09)
               (repeat Byte.x0a 16)
               toy_well_keyed_responder1 Hk eq_refl eq_refl eq_refl eq_refl Hr eq_refl)
    as (ack & r2 & ss & aes & mac & H1 & H2 & _ & _ & H5 & _ & _ & H8 & _).
  exists ack, r2. split; [exact H1|]. split; [exact H2|]. split; [exact H5|exact H8].
Defined.

Lemma parseAck_learns_responder_witness :
  well_keyed Toy.initiator1 /\ well_keyed Toy.responder1
  /\ key_pair (Toy.key Byte.x09) (Toy.pub Byte.x09)
  /\ ECIES._initMsg Toy.initiator1 = Some Toy.auth
  /\ ECIES.createAck (Toy.key Byte.x09) (repeat Byte.x0a 16) Toy.responder1
     = (Toy.responder2, Return Toy.ack)
  /\ snd (ECIES.parseAck Toy.ack Toy.initiator1) = Return tt
  /\ ECIES._remoteNonce (fst (ECIES.parseAck Toy.ack Toy.initiator1))
     = Some (Toy.key Byte.x04)
  /\ ECIES._remoteEphemeralPublicKey (fst (ECIES.parseAck Toy.ack Toy.initiator1))
     = Some (Toy.pub Byte.x06).
Proof.
  assert (Hr : key_pair (Toy.key Byte.x09) (Toy.pub Byte.x09))
    by (apply toy_key_pair; reflexivity).
  assert (Hc : ECIES.createAck (Toy.key Byte.x09) (repeat Byte.x0a 16) Toy.responder1
               = (Toy.responder2, Return Toy.ack)) by (vm_compute; reflexivity).
  split; [exact toy_well_keyed_initiator1|]. split; [exact toy_well_keyed_responder1|].
  split; [exact Hr|]. split; [reflexivity|]. split; [exact Hc|].
  destruct (parseAck_learns_responder toy_sha256_length toy_hmac_length
               toy_keccak_length toy_publicKey_format toy_ecdh_agree
               Toy.initiator1 Toy.responder1 Toy.responder2 (Toy.key Byte.x03)
               (Toy.key Byte.x03) Toy.auth Toy.auth (Toy.key Byte.x09)
               (Toy.pub Byte.x09) (repeat Byte.x0a 16) Toy.ack
               toy_well_keyed_initiator1 toy_well_keyed_responder1 eq_refl eq_refl
               eq_refl eq_refl Hr eq_refl eq_refl Hc)
    as (essI & _ & Hp).
  cbv zeta in Hp. rewrite Hp. repeat split.
Defined.

(** *** More of the discovery server *)

Lemma destroyed_server_throws_witness :
  Server.reachable Toy.server1
  /\ Server._socket Toy.server1 = Some tt
  /\ match Server.run [Server.CallDestroy; Server.Elapse 10000; Server.TimerFires 0]
             Toy.server1 with
     | Some u =>
         Server.ping Toy.peer u = (u, Throw (Thrown "Server already destroyed"))
         /\ Server.destroy u = (u, Throw (Thrown "Server already destroyed"))
     | None => False
     end.
Proof.
  split; [exact toy_server1_reachable|]. split; [reflexivity|].
  destruct (Server.run [Server.CallDestroy; Server.Elapse 10000; Server.TimerFires 0]
              Toy.server1) as [u|] eqn:Hrun; [|vm_compute in Hrun; discriminate].
  destruct (destroyed_server_throws Toy.server1 u _ toy_server1_reachable eq_refl Hrun)
    as (_ & _ & Hd & Hp & _).
  split; [apply Hp|exact Hd].
Defined.

Lemma destroyed_server_is_silent_witness :
  Server.reachable Toy.server1
  /\ Server._socket Toy.server1 = Some tt
  /\ match Server.run [Server.CallDestroy; Server.Elapse 10000; Server.TimerFires 0;
                       Server.CallPing Toy.peer] Toy.server1 with
     | Some u =>
         length (Server.sent (Server.socket u)) = 1%nat
         /\ Server.closed (Server.socket u) = true
     | None => False
     end.
Proof.
  split; [exact toy_server1_reachable|]. split; [reflexivity|].
  destruct (Server.run [Server.CallDestroy; Server.Elapse 10000; Server.TimerFires 0;
                        Server.CallPing Toy.peer] Toy.server1)
    as [u|] eqn:Hrun; [|vm_compute in Hrun; discriminate].
  destruct (destroyed_server_is_silent Toy.server1 u _ toy_server1_reachable eq_refl Hrun)
    as (Hsent & Hclosed & _).
  split; [rewrite Hsent; reflexivity|exact Hclosed].
Defined.

Lemma ping_times_out_witness :
  let s1 := fst (Server.ping Toy.peer Toy.server0) in
  Server.reachable Toy.server0
  /\ Server._socket Toy.server0 = Some tt
  /\ Server.valid_port (Server.udpPort Toy.peer) = true
  /\ snd (Server.ping Toy.peer Toy.server0) = Return 0%nat
  /\ Server.timers s1 !! 0%nat
     = Some {| Server.due := 10000;
               Server.callback := Server.PingTimeout Toy.peer Toy.rkey1 0 |}
  /\ Server.step (Server.TimerFires 0) (Server.set_clock 9999 s1) = None
  /\ (exists u', Server.step (Server.TimerFires 0) (Server.set_clock 10000 s1) = Some u'
        /\ Server.promises u' !! 0%nat
           = Some (Server.Rejected (Thrown "Timeout error: ping 127.0.0.1:30303"))
        /\ Server._requests u' !! Toy.rkey1 = None)
  /\ Server.valid_port (Server.udpPort Toy.nobody) = false
  /\ Server.ping Toy.nobody Toy.server0
     = (Server.set_requestsCache (Server._requestsCache Toy.server0) Toy.server0,
        Throw RangeError).
Proof.
  intros s1.
  assert (Hr : Server.reachable Toy.server0) by apply Server.reachable_new.
  destruct (ping_times_out Toy.server0 Toy.peer Hr eq_refl) as [Hvalid _];
    [vm_compute; reflexivity|].
  destruct Hvalid as (H1 & _ & H3 & _ & _ & H6 & Hfire); [reflexivity|].
  destruct (ping_times_out Toy.server0 Toy.nobody Hr eq_refl) as [_ Hinvalid];
    [vm_compute; reflexivity|].
  destruct Hinvalid as (Hthrow & _); [reflexivity|].
  split; [exact Hr|]. split; [reflexivity|]. split; [reflexivity|].
  split; [exact H1|]. split; [exact H6|].
  destruct (Hfire (Server.set_clock 9999 s1) H6 H3) as [Hearly _].
  destruct (Hfire (Server.set_clock 10000 s1) H6 H3) as [_ Hlate].
  split; [apply Hearly; vm_compute; reflexivity|].
  split.
  { destruct Hlate as (u' & Hu & Hp & Hq & _); [vm_compute; discriminate|].
    exists u'. split; [exact Hu|]. split; [exact Hp|].
    rewrite Hq. apply lookup_delete_eq. }
  split; [reflexivity|].
  rewrite (surjective_pairing (Server.ping Toy.nobody Toy.server0)), Hthrow.
  reflexivity.
Defined.

Lemma handler_exceptions_become_events_witness :
  let s' := fst (Server.on_message [] Toy.rinfo Toy.server0) in
  let u' := fst (Server.on_message Toy.ping1 Toy.rinfo0 Toy.server0) in
  Server.reachable Toy.server0
  /\ Server.step (Server.Receive [] Toy.rinfo) Toy.server0 = Some s'
  /\ Server.decode [] = Throw (Thrown "unknown packet type")
  /\ s' = Server.set_emitted [Server.error (Thrown "unknown packet type")] Toy.server0
  /\ Server.step (Server.Receive Toy.ping1 Toy.rinfo0) Toy.server0 = Some u'
  /\ Server.valid_port (Some (Server.r_port Toy.rinfo0)) = false
  /\ Server.emitted u' = [Server.error RangeError]
  /\ Server.sent (Server.socket u') = []
  /\ Server.timers u' !! 0%nat
     = Some {| Server.due := 100; Server.callback := Server.EmitPeers [Toy.from] |}.
Proof.
  intros s' u'.
  assert (Hr : Server.reachable Toy.server0) by apply Server.reachable_new.
  assert (Hstep : Server.step (Server.Receive [] Toy.rinfo) Toy.server0 = Some s')
    by reflexivity.
  assert (Hstep0 : Server.step (Server.Receive Toy.ping1 Toy.rinfo0) Toy.server0
                   = Some u') by reflexivity.
  destruct (handler_exceptions_become_events Toy.server0 s' [] Toy.rinfo Hr Hstep)
    as [Herr _].
  destruct (handler_exceptions_become_events Toy.server0 u' Toy.ping1 Toy.rinfo0
              Hr Hstep0) as (_ & Hping & _).
  destruct (Hping Server.VERSION Toy.from Toy.to Toy.senderKey eq_refl eq_refl)
    as (Hem & Hso & _ & _ & Htm).
  split; [exact Hr|]. split; [exact Hstep|]. split; [reflexivity|].
  split; [apply (Herr _ eq_refl)|]. split; [exact Hstep0|].
  split; [reflexivity|]. split; [exact Hem|].
  split; [rewrite Hso; reflexivity|].
  rewrite Htm. apply lookup_insert_eq.
Defined.

Lemma findneighbours_exchange_witness :
  let m := Server.encode (Server.FindNeighbours Toy.hello) (repeat Byte.x01 32) in
  let a1 := fst (Server.findneighbours Toy.peer Toy.hello Toy.server0) in
  let b1 := fst (Server.on_message m Toy.rinfo Toy.server_b) in
  let reply := Server.encode (Server.Neighbours []) (repeat Byte.x02 32) in
  let a2 := fst (Server.on_message reply Toy.rinfo a1) in
  Server.reachable Toy.server0 /\ Server.reachable Toy.server_b
  /\ Server.step (Server.CallFindneighbours Toy.peer Toy.hello) Toy.server0 = Some a1
  /\ Server.step (Server.Receive m Toy.rinfo) Toy.server_b = Some b1
  /\ Server.step (Server.Receive reply Toy.rinfo) a1 = Some a2
  /\ Server._requests a1 = Server._requests Toy.server0
  /\ Server.sent (Server.socket b1)
     = [ {| Server.d_msg := reply; Server.d_port := Some 30303;
            Server.d_address := "127.0.0.1" |} ]
  /\ Server.emitted a2 = [Server.peers []].
Proof.
  intros m a1 b1 reply a2.
  assert (Hra : Server.reachable Toy.server0) by apply Server.reachable_new.
  assert (Hrb : Server.reachable Toy.server_b) by apply Server.reachable_new.
  assert (H1 : Server.step (Server.CallFindneighbours Toy.peer Toy.hello) Toy.server0
               = Some a1) by reflexivity.
  assert (H2 : Server.step (Server.Receive m Toy.rinfo) Toy.server_b = Some b1)
    by reflexivity.
  assert (H3 : Server.step (Server.Receive reply Toy.rinfo) a1 = Some a2)
    by reflexivity.
  destruct (findneighbours_exchange Toy.server0 a1 a2 Toy.server_b b1 Toy.peer
              Toy.hello Toy.hello Toy.rinfo Toy.rinfo [] Toy.senderKey Toy.senderKey
              Hra eq_refl Hrb)
    as (Ha1 & Hb1 & Ha2); try exact H1; try exact H2; try exact H3.
  - vm_compute. reflexivity.
  - vm_compute. reflexivity.
  - split; [exact Hra|]. split; [exact Hrb|]. split; [exact H1|].
    split; [exact H2|]. split; [exact H3|].
    split; [rewrite Ha1; reflexivity|]. split; [rewrite Hb1; reflexivity|].
    rewrite Ha2, Ha1. reflexivity.
Defined.

Lemma pending_requests_are_live_witness :
  Server.reachable Toy.server1
  /\ Server._requests Toy.server1 !! Toy.rkey1 = Some Toy.request1
  /\ Server.promises Toy.server1 !! 0%nat = Some Server.Pending
  /\ (exists t, Server.timers Toy.server1 !! 0%nat
                = Some {| Server.due := t;
                          Server.callback := Server.PingTimeout Toy.peer Toy.rkey1 0 |}).
Proof.
  assert (Hreq : Server._requests Toy.server1 !! Toy.rkey1 = Some Toy.request1)
    by (vm_compute; reflexivity).
  destruct (pending_requests_are_live Toy.server1 toy_server1_reachable) as (Hlive & _).
  destruct (Hlive Toy.rkey1 Toy.request1 Hreq) as (Hp & _ & Ht).
  split; [exact toy_server1_reachable|]. split; [exact Hreq|].
  split; [exact Hp|exact Ht].
Defined.

Lemma settled_promise_is_final_witness :
  let answered := fst (Server.on_message Toy.pong1 Toy.rinfo Toy.server1) in
  let descriptor :=
    {| Server.id := Some (util.pk2id Toy.senderKey); Server.address := "127.0.0.1";
       Server.udpPort := Some 30303; Server.tcpPort := Some 30303 |} in
  Server.promises answered !! 0%nat = Some (Server.Resolved descriptor)
  /\ match Server.run [Server.Elapse 10000; Server.TimerFires 0;
                       Server.Receive Toy.pong1 Toy.rinfo] answered with
     | Some u => Server.promises u !! 0%nat = Some (Server.Resolved descriptor)
     | None => False
     end.
Proof.
  intros answered descriptor.
  assert (Hp : Server.promises answered !! 0%nat = Some (Server.Resolved descriptor))
    by (vm_compute; reflexivity).
  split; [exact Hp|].
  destruct (Server.run [Server.Elapse 10000; Server.TimerFires 0;
                        Server.Receive Toy.pong1 Toy.rinfo] answered)
    as [u|] eqn:Hrun; [|vm_compute in Hrun; discriminate].
  apply (settled_promise_is_final _ answered u 0 _ Hrun Hp). discriminate.
Defined.

Lemma dedup_window_ends_witness :
  let calls := [(0, Toy.peer); (1001, Toy.peer)] in
  Server.reachable Toy.server0
  /\ Server._socket Toy.server0 = Some tt
  /\ snd (Server.pings calls Toy.server0) = [Return 0%nat; Return 1%nat]
  /\ length (Server.sent (Server.socket (fst (Server.pings calls Toy.server0)))) = 2%nat.
Proof.
  intros calls.
  assert (Hr : Server.reachable Toy.server0) by apply Server.reachable_new.
  assert (Hmiss : snd (LRUCache.get (Server._requestsCache Toy.server0)
                         (Server.rckey_of Toy.peer) (Server.clock Toy.server0 + 0))
                  = None) by (vm_compute; reflexivity).
  assert (Hdt : Server.ms_1s < 1001) by (unfold Server.ms_1s; lia).
  pose proof (dedup_window_ends Toy.server0 Toy.peer 0 1001 Hr eq_refl Hmiss Hdt)
    as Hw.
  cbv zeta in Hw.
  change (Server.valid_port (Server.udpPort Toy.peer)) with true in Hw.
  cbv iota in Hw. destruct Hw as (Hres & Hlen & _).
  split; [exact Hr|]. split; [reflexivity|]. split; [exact Hres|exact Hlen].
Defined.

Lemma dedup_cache_is_bounded_witness :
  Server.reachable Toy.server1
  /\ (length (LRUCache.lruList (Server._requestsCache Toy.server1)) <= 1000)%nat.
Proof.
  split; [exact toy_server1_reachable|].
  apply (dedup_cache_is_bounded Toy.server1 toy_server1_reachable).
Defined.

End Instances.

(** ** A codec that names the signer *)

Section SignedCodec.
#[local] Existing Instance Toy.primitives.
#[local] Existing Instance Toy.signed.

Lemma toy_pong_decodes (to : Server.Endpoint) (hash privateKey publicKey : bytes) :
  key_pair privateKey publicKey ->
  exists to',
    Server.decode (Server.encode (Server.Pong to hash) privateKey)
    = Return {| Server.data := Server.Pong to' hash;
                Server.publicKey := publicKey |}.
Proof.
  intros [Hv Hk]. exists Toy.to.
  cbn [publicKeyCreate privateKeyVerify Toy.primitives] in Hv, Hk.
  unfold Toy.publicKeyCreate in Hk. rewrite Hv in Hk. inversion Hk; subst. clear Hk.
  unfold Toy.privateKeyVerify in Hv. apply Nat.eqb_eq in Hv.
  cbn [Server.decode Server.encode Toy.signed].
  unfold Toy.signed_decode, Toy.signed_encode.
  assert (Hh : forall m, length (Toy.keccak m) = 32%nat)
    by (intros m; apply toy_keccak_length).
  rewrite drop_app_length' by (symmetry; apply Hh).
  assert (Hs : length (Byte.x04 :: privateKey ++ privateKey) = 65%nat)
    by (cbn [length]; rewrite length_app; lia).
  rewrite take_app_length' by (symmetry; exact Hs).
  rewrite drop_app_length' by (symmetry; exact Hs).
  reflexivity.
Qed.

Lemma ping_pong_exchange_witness :
  let m := Server.encode
             (Server.Ping Server.VERSION Server.DEFAULT_ENDPOINT
                (Server.endpoint_of Toy.peer)) (repeat Byte.x01 32) in
  let a1 := fst (Server.ping Toy.peer Toy.server0) in
  let b1 := fst (Server.on_message m Toy.rinfo Toy.server_b) in
  let reply :=
    Server.encode
      (Server.Pong {| Server.e_address := "127.0.0.1"; Server.e_udpPort := Some 30303;
                      Server.e_tcpPort := Some 30303 |} (Buffer.slice m 0 32))
      (repeat Byte.x02 32) in
  let a2 := fst (Server.on_message reply Toy.rinfo a1) in
  Server.reachable Toy.server0 /\ Server.reachable Toy.server_b
  /\ key_pair (Server._privateKey Toy.server_b) (Toy.pub Byte.x02)
  /\ Server.step (Server.CallPing Toy.peer) Toy.server0 = Some a1
  /\ Server.step (Server.Receive m Toy.rinfo) Toy.server_b = Some b1
  /\ Server.step (Server.Receive reply Toy.rinfo) a1 = Some a2
  /\ Server.sent (Server.socket b1)
     = [ {| Server.d_msg := reply; Server.d_port := Some 30303;
            Server.d_address := "127.0.0.1" |} ]
  /\ Server.promises a2 !! 0%nat
     = Some (Server.Resolved
               {| Server.id := Some (repeat Byte.x02 64);
                  Server.address := "127.0.0.1";
                  Server.udpPort := Some 30303; Server.tcpPort := Some 30303 |}).
Proof.
  intros m a1 b1 reply a2.
  assert (Hra : Server.reachable Toy.server0) by apply Server.reachable_new.
  assert (Hrb : Server.reachable Toy.server_b) by apply Server.reachable_new.
  assert (Hkey : key_pair (Server._privateKey Toy.server_b) (Toy.pub Byte.x02))
    by (split; reflexivity).
  assert (H1 : Server.step (Server.CallPing Toy.peer) Toy.server0 = Some a1)
    by reflexivity.
  assert (H2 : Server.step (Server.Receive m Toy.rinfo) Toy.server_b = Some b1)
    by reflexivity.
  assert (H3 : Server.step (Server.Receive reply Toy.rinfo) a1 = Some a2)
    by reflexivity.
  destruct (ping_pong_exchange toy_pong_decodes Toy.server0 a1 a2 Toy.server_b b1
              Toy.peer Toy.rinfo Toy.rinfo Server.VERSION Toy.from Toy.to
              (Toy.pub Byte.x01) (Toy.pub Byte.x02) Hra eq_refl Hrb Hkey)
    as (_ & Hb & _ & _ & Hres & _); try exact H1; try exact H2; try exact H3.
  - vm_compute. reflexivity.
  - reflexivity.
  - reflexivity.
  - vm_compute. reflexivity.
  - split; [exact Hra|]. split; [exact Hrb|]. split; [exact Hkey|].
    split; [exact H1|]. split; [exact H2|]. split; [exact H3|].
    split; [exact Hb|exact Hres].
Defined.

End SignedCodec.
